(** * vscode-wordcompletion: the cycle command of [src/extension.ts]

    A shallow embedding of the extension's [CurrentWord] class (the
    candidate list built by [loadWords] / [pushWordsFromText] and the
    reload-or-cycle decision of [updateCurrentWord]) together with the
    parts of the JavaScript runtime and of the editor API that the class
    calls: [RegExp] construction and [exec], [String.prototype.trim],
    [lodash.uniq], [Map] iteration order, and [TextDocument.getText]. *)

From Stdlib Require Import List String Ascii Bool Arith ZArith Lia.
Import ListNotations.
Local Open Scope string_scope.
Local Open Scope list_scope.
Local Open Scope nat_scope.

Set Implicit Arguments.

(** ** Characters

    Texts are sequences of code units in the range 0..255. *)

Module Chars.

Definition code (c : ascii) : nat := nat_of_ascii c.

Definition between (lo hi : nat) (c : ascii) : bool :=
  (lo <=? code c) && (code c <=? hi).

(** [\d] *)
Definition isDigit (c : ascii) : bool := between 48 57 c.

(** [\w] : [A-Za-z0-9_] *)
Definition isWordChar (c : ascii) : bool :=
  between 97 122 c || between 65 90 c || isDigit c || (code c =? 95).

(** LineTerminator: LF and CR. *)
Definition isLineTerminator (c : ascii) : bool :=
  (code c =? 10) || (code c =? 13).

(** [\s] : WhiteSpace and LineTerminator (TAB, LF, VT, FF, CR, SP, NBSP). *)
Definition isSpace (c : ascii) : bool :=
  between 9 13 c || (code c =? 32) || (code c =? 160).

Definition isLetter (c : ascii) : bool :=
  between 97 122 c || between 65 90 c.

End Chars.

(** ** Regular expressions: the fragment of the RegExp pattern language
    that is modelled *)

Module Regex.

Inductive ClassEscape := ClassD | ClassW | ClassS.

Inductive CharSet :=
| CsChar (c : ascii)                        (* a pattern character *)
| CsDot                                     (* [.] without the s flag *)
| CsClass (k : ClassEscape) (invert : bool) (* [\d \D \w \W \s \S] *).

Inductive regex :=
| Empty
| Char (cs : CharSet)
| Disjunction (r1 r2 : regex)
| Seq (r1 r2 : regex)
| Quantified (r : regex) (min : nat) (max : option nat) (greedy : bool)
| Group (idx : nat) (r : regex)
| InputStart                                (* [^] *)
| InputEnd                                  (* [$] *).

Definition classMatches (k : ClassEscape) (c : ascii) : bool :=
  match k with
  | ClassD => Chars.isDigit c
  | ClassW => Chars.isWordChar c
  | ClassS => Chars.isSpace c
  end.

Definition charSetMatches (cs : CharSet) (c : ascii) : bool :=
  match cs with
  | CsChar a => Ascii.eqb a c
  | CsDot => negb (Chars.isLineTerminator c)
  | CsClass k invert => xorb invert (classMatches k c)
  end.

(** The capture groups that occur inside a pattern. *)
Fixpoint groupsOf (r : regex) : list nat :=
  match r with
  | Empty | Char _ | InputStart | InputEnd => []
  | Disjunction r1 r2 | Seq r1 r2 => groupsOf r1 ++ groupsOf r2
  | Quantified r1 _ _ _ => groupsOf r1
  | Group i r1 => i :: groupsOf r1
  end.

(** *** Parsing a pattern string

    [new RegExp(pattern, flags)] either returns a regular expression or
    throws a SyntaxError.  The parser reads the pattern left to right
    with a stack of open groups.  A construct outside the modelled
    fragment (character classes in brackets, braces, look-around,
    back-references, [\b], hex and unicode escapes) yields [Unsupported]. *)

Inductive ParseResult :=
| Parsed (r : regex)
| SyntaxError
| Unsupported.

(** A term of the alternative under construction. *)
Inductive Term :=
| TAtom (r : regex)                          (* may take a quantifier *)
| TQuant (r : regex) (min : nat) (max : option nat)
                                             (* greedy; [?] makes it lazy *)
| TFixed (r : regex)                         (* assertion or lazy quantifier *).

Definition termRegex (t : Term) : regex :=
  match t with
  | TAtom r => r
  | TQuant r mn mx => Quantified r mn mx true
  | TFixed r => r
  end.

Record Frame := {
  frameGroup : option nat;     (* capture index of the open group *)
  frameAlts : list regex;      (* finished alternatives, last first *)
  frameTerms : list Term       (* terms of the current one, last first *)
}.

Definition emptyFrame (g : option nat) : Frame :=
  {| frameGroup := g; frameAlts := []; frameTerms := [] |}.

(** Alternative :: Alternative Term *)
Definition alternativeOf (terms : list Term) : regex :=
  fold_right (fun t acc => Seq acc (termRegex t)) Empty terms.

(** Disjunction :: Alternative | Disjunction *)
Definition disjunctionOf (f : Frame) : regex :=
  fold_left (fun acc alt => Disjunction alt acc)
            (frameAlts f) (alternativeOf (frameTerms f)).

Definition closeFrame (f : Frame) : regex :=
  match frameGroup f with
  | Some i => Group i (disjunctionOf f)
  | None => disjunctionOf f
  end.

Definition pushTerm (t : Term) (f : Frame) : Frame :=
  {| frameGroup := frameGroup f; frameAlts := frameAlts f;
     frameTerms := t :: frameTerms f |}.

Definition nextAlternative (f : Frame) : Frame :=
  {| frameGroup := frameGroup f;
     frameAlts := alternativeOf (frameTerms f) :: frameAlts f;
     frameTerms := [] |}.

(** Applying [*], [+] or [?] to the last term. *)
Definition quantify (isQuestion : bool) (mn : nat) (mx : option nat)
           (f : Frame) : option Frame :=
  match frameTerms f with
  | TAtom r :: ts =>
      Some {| frameGroup := frameGroup f; frameAlts := frameAlts f;
              frameTerms := TQuant r mn mx :: ts |}
  | TQuant r mn0 mx0 :: ts =>
      if isQuestion
      then Some {| frameGroup := frameGroup f; frameAlts := frameAlts f;
                   frameTerms := TFixed (Quantified r mn0 mx0 false) :: ts |}
      else None
  | TFixed _ :: _ => None
  | [] => None
  end.

(** [\c] for a character c *)
Definition escape (c : ascii) : option regex :=
  match c with
  | "d"%char => Some (Char (CsClass ClassD false))
  | "D"%char => Some (Char (CsClass ClassD true))
  | "w"%char => Some (Char (CsClass ClassW false))
  | "W"%char => Some (Char (CsClass ClassW true))
  | "s"%char => Some (Char (CsClass ClassS false))
  | "S"%char => Some (Char (CsClass ClassS true))
  | "t"%char => Some (Char (CsChar (ascii_of_nat 9)))
  | "n"%char => Some (Char (CsChar (ascii_of_nat 10)))
  | "v"%char => Some (Char (CsChar (ascii_of_nat 11)))
  | "f"%char => Some (Char (CsChar (ascii_of_nat 12)))
  | "r"%char => Some (Char (CsChar (ascii_of_nat 13)))
  | _ => if Chars.isLetter c || Chars.isDigit c
         then None                            (* outside the fragment *)
         else Some (Char (CsChar c))          (* identity escape *)
  end.

Fixpoint parseFrom (s : list ascii) (stack : list Frame) (top : Frame)
         (ngroups : nat) {struct s} : ParseResult :=
  match s with
  | [] =>
      match stack with
      | [] => Parsed (closeFrame top)
      | _ :: _ => SyntaxError                 (* unterminated group *)
      end
  | c :: rest =>
      match c with
      | "("%char =>
          match rest with
          | "?"%char :: ":"%char :: rest' =>
              parseFrom rest' (top :: stack) (emptyFrame None) ngroups
          | "?"%char :: _ => Unsupported
          | _ =>
              parseFrom rest (top :: stack)
                        (emptyFrame (Some (S ngroups))) (S ngroups)
          end
      | ")"%char =>
          match stack with
          | [] => SyntaxError                 (* unmatched ) *)
          | parent :: stack' =>
              parseFrom rest stack'
                        (pushTerm (TAtom (closeFrame top)) parent) ngroups
          end
      | "|"%char => parseFrom rest stack (nextAlternative top) ngroups
      | "*"%char =>
          match quantify false 0 None top with
          | Some top' => parseFrom rest stack top' ngroups
          | None => SyntaxError               (* nothing to repeat *)
          end
      | "+"%char =>
          match quantify false 1 None top with
          | Some top' => parseFrom rest stack top' ngroups
          | None => SyntaxError
          end
      | "?"%char =>
          match quantify true 0 (Some 1) top with
          | Some top' => parseFrom rest stack top' ngroups
          | None => SyntaxError
          end
      | "^"%char => parseFrom rest stack (pushTerm (TFixed InputStart) top) ngroups
      | "$"%char => parseFrom rest stack (pushTerm (TFixed InputEnd) top) ngroups
      | "."%char => parseFrom rest stack (pushTerm (TAtom (Char CsDot)) top) ngroups
      | "\"%char =>
          match rest with
          | [] => SyntaxError                 (* \ at end of pattern *)
          | e :: rest' =>
              match escape e with
              | Some r => parseFrom rest' stack (pushTerm (TAtom r) top) ngroups
              | None => Unsupported
              end
          end
      | "["%char => Unsupported
      | "{"%char => Unsupported
      | _ => parseFrom rest stack (pushTerm (TAtom (Char (CsChar c))) top) ngroups
      end
  end.

Definition parse (pattern : string) : ParseResult :=
  parseFrom (list_ascii_of_string pattern) [] (emptyFrame None) 0.

(** *** Plain prefixes

    A character that the pattern language reads as itself and that [trim]
    keeps, and the regular expression that the pattern of the source is
    for a prefix made of such characters. *)

Definition plainChar (c : ascii) : bool :=
  match c with
  | "("%char | ")"%char | "|"%char | "*"%char | "+"%char | "?"%char
  | "^"%char | "$"%char | "."%char | "\"%char | "["%char | "{"%char => false
  | _ => negb (Chars.isSpace c)
  end.

Definition plain (word : string) : bool :=
  forallb plainChar (list_ascii_of_string word).

(** The frame after the pattern characters [cs]. *)
Definition pushChars (cs : list ascii) (f : Frame) : Frame :=
  {| frameGroup := frameGroup f; frameAlts := frameAlts f;
     frameTerms := rev (map (fun c => TAtom (Char (CsChar c))) cs)
                   ++ frameTerms f |}.

Definition literal (cs : list ascii) : regex :=
  alternativeOf (rev (map (fun c => TAtom (Char (CsChar c))) cs)).

Definition boundary : regex :=
  Group 1
    (Disjunction (Seq Empty InputStart)
       (Disjunction
          (Seq Empty (Quantified (Char (CsClass ClassS false)) 1 None true))
          (Seq Empty (Char (CsClass ClassW true))))).

Definition wordChars : regex :=
  Quantified (Char (CsClass ClassW false)) 1 None true.

Definition prefixPattern (cs : list ascii) : regex :=
  Seq (Seq Empty boundary) (Group 2 (Seq (literal cs) wordChars)).

End Regex.

(** ** Matching: the backtracking matcher of the language specification

    A matcher takes a match state and a continuation and returns the final
    state of the first successful path, or failure ([None]).  The flags
    are those of the source: [m] (multiline) set, [i], [s] and [u] unset. *)

Module Matcher.
Import Regex.

Record MatchState := {
  endIndex : nat;
  captures : list (nat * (nat * nat))   (* group index, start, end *)
}.

Definition MatchResult := option MatchState.
Definition Continuation := MatchState -> MatchResult.
Definition MatcherFn := MatchState -> Continuation -> MatchResult.

Fixpoint capture (i : nat) (caps : list (nat * (nat * nat)))
  : option (nat * nat) :=
  match caps with
  | [] => None
  | (j, se) :: caps' => if j =? i then Some se else capture i caps'
  end.

Definition setCapture (i s e : nat) (x : MatchState) : MatchState :=
  {| endIndex := endIndex x; captures := (i, (s, e)) :: captures x |}.

Definition resetCaptures (gs : list nat) (x : MatchState) : MatchState :=
  {| endIndex := endIndex x;
     captures := filter (fun c => negb (existsb (Nat.eqb (fst c)) gs))
                        (captures x) |}.

Definition advance (x : MatchState) : MatchState :=
  {| endIndex := S (endIndex x); captures := captures x |}.

Definition orElse (z : MatchResult) (alt : unit -> MatchResult) : MatchResult :=
  match z with
  | Some _ => z
  | None => alt tt
  end.

(** RepeatMatcher(m, min, max, greedy, x, c, parenIndex, parenCount).
    Every pass with [min = 0] must move [endIndex], so the recursion
    depth is bounded by [min] plus the length of the remaining input;
    [fuel] is that bound. *)
Fixpoint repeatMatcher (fuel : nat) (m : MatcherFn) (gs : list nat)
         (min : nat) (max : option nat) (greedy : bool)
         (x : MatchState) (c : Continuation) {struct fuel} : MatchResult :=
  match max with
  | Some 0 => c x
  | _ =>
      match fuel with
      | 0 => None
      | S fuel' =>
          let d : Continuation := fun y =>
            if (min =? 0) && (endIndex y =? endIndex x) then None
            else repeatMatcher fuel' m gs (Nat.pred min)
                               (option_map Nat.pred max) greedy y c in
          let xr := resetCaptures gs x in
          if negb (min =? 0) then m xr d
          else if greedy then orElse (m xr d) (fun _ => c x)
          else orElse (c x) (fun _ => m xr d)
      end
  end.

Section Input.
Variable input : list ascii.

(** [^] with the m flag *)
Definition atLineStart (e : nat) : bool :=
  match e with
  | 0 => true
  | S e' => match nth_error input e' with
            | Some ch => Chars.isLineTerminator ch
            | None => false
            end
  end.

(** [$] with the m flag *)
Definition atLineEnd (e : nat) : bool :=
  match nth_error input e with
  | Some ch => Chars.isLineTerminator ch
  | None => e =? List.length input
  end.

Fixpoint compileSubpattern (r : regex) : MatcherFn :=
  match r with
  | Empty => fun x c => c x
  | Char cs => fun x c =>
      match nth_error input (endIndex x) with
      | Some ch => if charSetMatches cs ch then c (advance x) else None
      | None => None
      end
  | Disjunction r1 r2 => fun x c =>
      orElse (compileSubpattern r1 x c) (fun _ => compileSubpattern r2 x c)
  | Seq r1 r2 => fun x c =>
      compileSubpattern r1 x (fun y => compileSubpattern r2 y c)
  | Quantified r1 mn mx greedy => fun x c =>
      repeatMatcher (S (mn + List.length input)) (compileSubpattern r1)
                    (groupsOf r1) mn mx greedy x c
  | Group i r1 => fun x c =>
      compileSubpattern r1 x
        (fun y => c (setCapture i (endIndex x) (endIndex y) y))
  | InputStart => fun x c => if atLineStart (endIndex x) then c x else None
  | InputEnd => fun x c => if atLineEnd (endIndex x) then c x else None
  end.

(** The pattern matcher applied at index [i]. *)
Definition matchAt (r : regex) (i : nat) : MatchResult :=
  compileSubpattern r {| endIndex := i; captures := [] |} (fun y => Some y).

(** RegExpBuiltinExec: the first index from [lastIndex] on, up to the
    length of the input, at which the matcher succeeds. *)
Fixpoint firstMatch (r : regex) (indices : list nat) : MatchResult :=
  match indices with
  | [] => None
  | i :: indices' =>
      match matchAt r i with
      | Some y => Some y
      | None => firstMatch r indices'
      end
  end.

Definition exec (r : regex) (lastIndex : nat) : MatchResult :=
  firstMatch r (seq lastIndex (S (List.length input) - lastIndex)).

Definition slice (s e : nat) : list ascii :=
  firstn (e - s) (skipn s input).

(** [match[i]]: the text of capture [i]; [None] is [undefined]. *)
Definition captured (i : nat) (y : MatchState) : option (list ascii) :=
  match capture i (captures y) with
  | Some (s, e) => Some (slice s e)
  | None => None
  end.

(** Two properties of a matcher on this input.  It moves forward: a
    success comes from a call of the continuation at a state that is not
    before the one it was given, and not behind the end of the input.  It
    is local: it uses its continuation at such states only. *)
Definition inInput (x : MatchState) : Prop := endIndex x <= List.length input.

(** The characters [l] stand in the input from index [s] on. *)
Definition occursAt (s : nat) (l : list ascii) : Prop :=
  forall j, j < List.length l -> nth_error input (s + j) = nth_error l j.

Definition forward (m : MatcherFn) : Prop :=
  forall x c z,
    m x c = Some z ->
    exists y, endIndex x <= endIndex y
              /\ (inInput x -> inInput y)
              /\ c y = Some z.

Definition local (m : MatcherFn) : Prop :=
  forall x c c',
    inInput x ->
    (forall y, endIndex x <= endIndex y -> inInput y -> c y = c' y) ->
    m x c = m x c'.

End Input.

End Matcher.

(** ** Strings and arrays of the JavaScript runtime *)

Module JS.

Fixpoint dropSpace (s : list ascii) : list ascii :=
  match s with
  | [] => []
  | c :: s' => if Chars.isSpace c then dropSpace s' else s
  end.

(** [String.prototype.trim] *)
Definition trimChars (s : list ascii) : list ascii :=
  rev (dropSpace (rev (dropSpace s))).

Definition trim (s : string) : string :=
  string_of_list_ascii (trimChars (list_ascii_of_string s)).

(** [s.startsWith(p)] *)
Definition startsWith (s p : string) : bool := String.prefix p s.

(** [arr.indexOf(x) !== -1] for an array of strings *)
Definition includes (arr : list string) (x : string) : bool :=
  existsb (String.eqb x) arr.

(** [lodash.uniq]: the first occurrence of every value, in order. *)
Fixpoint uniqFrom (seen : list string) (arr : list string) : list string :=
  match arr with
  | [] => []
  | x :: arr' =>
      if includes seen x then uniqFrom seen arr'
      else x :: uniqFrom (x :: seen) arr'
  end.

Definition uniq (arr : list string) : list string := uniqFrom [] arr.

(** A string in a boolean context: only the empty string is falsy. *)
Definition truthy (s : string) : bool := negb (String.length s =? 0).

End JS.

(** ** The editor API used by the extension

    [Position], [Range], [TextDocument] and [TextEditor] of the host.  A
    document is a live object of the host; its identity is [docId] and the
    record holds its content at the time of the call.  Lines are separated
    by LF.  [getWordRangeAtPosition] depends on the word pattern of the
    document's language and is a field of the document. *)

Module Host.

Record Position := { line : nat; character : nat }.

Record Range := { start : Position; end_ : Position }.

Definition isBefore (a b : Position) : bool :=
  (line a <? line b) || ((line a =? line b) && (character a <? character b)).

(** [new Range(a, b)]: the constructor orders its two positions. *)
Definition newRange (a b : Position) : Range :=
  if isBefore b a then {| start := b; end_ := a |}
  else {| start := a; end_ := b |}.

Record TextDocument := {
  docId : nat;
  docText : string;
  getWordRangeAtPosition : Position -> option Range
}.

Record TextEditor := {
  document : TextDocument;
  selectionActive : Position      (* editor.selection.active *)
}.

Definition LF : ascii := ascii_of_nat 10.

Fixpoint splitLines (s : string) : list string :=
  match s with
  | EmptyString => [EmptyString]
  | String c s' =>
      if Ascii.eqb c LF then EmptyString :: splitLines s'
      else match splitLines s' with
           | l :: ls => String c l :: ls
           | [] => [String c EmptyString]
           end
  end.

Definition lineCount (doc : TextDocument) : nat :=
  List.length (splitLines (docText doc)).

(** [doc.lineAt(n).range.end.character] *)
Definition lineEndCharacter (doc : TextDocument) (n : nat) : nat :=
  String.length (nth n (splitLines (docText doc)) EmptyString).

(** Positions are adjusted to the document before use. *)
Definition validatePosition (doc : TextDocument) (p : Position) : Position :=
  if line p <? lineCount doc
  then {| line := line p;
          character := Nat.min (character p) (lineEndCharacter doc (line p)) |}
  else {| line := lineCount doc - 1;
          character := lineEndCharacter doc (lineCount doc - 1) |}.

Definition offsetAt (doc : TextDocument) (p : Position) : nat :=
  let p' := validatePosition doc p in
  fold_right (fun l acc => S (String.length l) + acc) 0
             (firstn (line p') (splitLines (docText doc)))
  + character p'.

(** [doc.getText(range)]; without a range, the whole text. *)
Definition getText (doc : TextDocument) (range : option Range) : string :=
  match range with
  | None => docText doc
  | Some r =>
      let a := offsetAt doc (start r) in
      let b := offsetAt doc (end_ r) in
      String.substring a (b - a) (docText doc)
  end.

End Host.

(** ** The extension *)

Module Extension.
Import Host.

(** *** [DocumentList extends Map<TextDocument, string>]

    A [Map] iterates in insertion order; [set] on a present key keeps
    the key's place. *)
Module DocumentList.

Definition t := list (nat * string).

Definition has (m : t) (doc : TextDocument) : bool :=
  existsb (fun kv => fst kv =? docId doc) m.

Fixpoint set (m : t) (doc : TextDocument) (text : string) : t :=
  match m with
  | [] => [(docId doc, text)]
  | (k, v) :: m' =>
      if k =? docId doc then (k, text) :: m'
      else (k, v) :: set m' doc text
  end.

Definition delete (m : t) (doc : TextDocument) : t :=
  filter (fun kv => negb (fst kv =? docId doc)) m.

Definition get (m : t) (doc : TextDocument) : option string :=
  option_map snd (find (fun kv => fst kv =? docId doc) m).

Definition values (m : t) : list string := map snd m.

Definition keys (m : t) : list nat := map fst m.

End DocumentList.

Record StatusBarItem := { text : string; visible : bool }.

Record CurrentWord := {
  _statusBarItem : StatusBarItem;
  _activeWord : string;
  _words : list string;
  _pos : option Position;
  _doc : option TextDocument
}.

(** [new CurrentWord()] *)
Definition newCurrentWord : CurrentWord :=
  {| _statusBarItem := {| text := ""; visible := false |};
     _activeWord := "";
     _words := [];
     _pos := None;
     _doc := None |}.

Definition with_statusBarItem (s : StatusBarItem) (this : CurrentWord) :=
  {| _statusBarItem := s; _activeWord := _activeWord this;
     _words := _words this; _pos := _pos this; _doc := _doc this |}.
Definition with_activeWord (w : string) (this : CurrentWord) :=
  {| _statusBarItem := _statusBarItem this; _activeWord := w;
     _words := _words this; _pos := _pos this; _doc := _doc this |}.
Definition with_words (ws : list string) (this : CurrentWord) :=
  {| _statusBarItem := _statusBarItem this; _activeWord := _activeWord this;
     _words := ws; _pos := _pos this; _doc := _doc this |}.
Definition with_pos (p : option Position) (this : CurrentWord) :=
  {| _statusBarItem := _statusBarItem this; _activeWord := _activeWord this;
     _words := _words this; _pos := p; _doc := _doc this |}.
Definition with_doc (d : option TextDocument) (this : CurrentWord) :=
  {| _statusBarItem := _statusBarItem this; _activeWord := _activeWord this;
     _words := _words this; _pos := _pos this; _doc := d |}.

(** *** Effects

    A method call runs on the object's fields, may call other methods
    and the [TextEditorEdit] handle (recorded in a trace), and completes
    normally, by an exception, or not at all.  [Unmodelled] marks a
    pattern outside the fragment of [Regex.parse]. *)

Inductive Event :=
| Call_loadWords (word : string)
| Call_pushWordsFromText (word text : string)
| Edit_delete (range : Range)
| Edit_insert (at_ : Position) (value : string).

Inductive Exception := SyntaxError | TypeError.

Inductive Completion (A : Type) :=
| Normal (a : A)
| Throw (e : Exception)
| Diverge
| Unmodelled.
Arguments Throw {A} e.
Arguments Diverge {A}.
Arguments Unmodelled {A}.

Record Run (A : Type) := {
  final : CurrentWord;
  trace : list Event;
  completion : Completion A
}.

Definition M (A : Type) := CurrentWord -> Run A.

Definition ret {A} (a : A) : M A :=
  fun this => {| final := this; trace := []; completion := Normal a |}.

Definition bind {A B} (m : M A) (f : A -> M B) : M B :=
  fun this =>
    let r := m this in
    match completion r with
    | Normal a =>
        let r' := f a (final r) in
        {| final := final r'; trace := trace r ++ trace r';
           completion := completion r' |}
    | Throw e => {| final := final r; trace := trace r; completion := Throw e |}
    | Diverge => {| final := final r; trace := trace r; completion := Diverge |}
    | Unmodelled =>
        {| final := final r; trace := trace r; completion := Unmodelled |}
    end.

Definition get : M CurrentWord :=
  fun this => {| final := this; trace := []; completion := Normal this |}.

Definition modify (f : CurrentWord -> CurrentWord) : M unit :=
  fun this => {| final := f this; trace := []; completion := Normal tt |}.

Definition emit (e : Event) : M unit :=
  fun this => {| final := this; trace := [e]; completion := Normal tt |}.

Definition stop {A} (k : Completion A) : M A :=
  fun this => {| final := this; trace := []; completion := k |}.

Notation "x <- m ;; k" := (bind m (fun x => k))
  (at level 61, m at next level, right associativity).
Notation "m ;; k" := (bind m (fun _ => k))
  (at level 61, right associativity).

(** *** [pushWordsFromText] *)

(** The pattern string handed to [new RegExp]. *)
Definition pattern (word : string) : string :=
  "(^|\s+|\W)(" ++ word ++ "\w+)".

Inductive Loop :=
| Done (words : list string)       (* [exec] returned null *)
| Forever                          (* [lastIndex] stopped moving *)
| Undefined (words : list string). (* [match[2]] is undefined *)

(** [while ((match = regexp.exec(text)) !== null) words.push(match[2].trim())]
    with the g flag: every [exec] starts at [lastIndex] and stores the end
    of its match there.  A match that leaves [lastIndex] where it was is
    found again by every later [exec].  The words are pushed onto the
    array in place, so a pass that finds [match[2]] undefined leaves the
    array with the words pushed before it.  [fuel] bounds the positions
    left. *)
Fixpoint execLoop (fuel : nat) (re : Regex.regex) (input : list ascii)
         (lastIndex : nat) (words : list string) : Loop :=
  match fuel with
  | 0 => Done words
  | S fuel' =>
      match Matcher.exec input re lastIndex with
      | None => Done words
      | Some y =>
          match Matcher.captured input 2 y with
          | None => Undefined words
          | Some m2 =>
              if Matcher.endIndex y =? lastIndex then Forever
              else execLoop fuel' re input (Matcher.endIndex y)
                     (words ++ [JS.trim (string_of_list_ascii m2)])
          end
      end
  end.

Definition pushWordsFromText (word text : string) : M unit :=
  emit (Call_pushWordsFromText word text) ;;
  match Regex.parse (pattern word) with
  | Regex.SyntaxError => stop (Throw SyntaxError)
  | Regex.Unsupported => stop Unmodelled
  | Regex.Parsed regexp =>
      this <- get ;;
      let input := list_ascii_of_string text in
      match execLoop (S (List.length input)) regexp input 0 (_words this) with
      | Done words => modify (with_words (JS.uniq words))
      | Forever => stop Diverge
      | Undefined words =>
          modify (with_words words) ;; stop (Throw TypeError)
      end
  end.

(** [docList.forEach(f)] on the values, in iteration order *)
Fixpoint forEach (values : list string) (f : string -> M unit) : M unit :=
  match values with
  | [] => ret tt
  | v :: values' => f v ;; forEach values' f
  end.

(** *** [loadWords] *)

(** [this._doc.getText(new Range(new Position(0, 0), this._pos))] *)
Definition textBefore (doc : TextDocument) (pos : Position) : string :=
  getText doc (Some (newRange {| line := 0; character := 0 |} pos)).

(** [this._doc.getText(new Range(this._pos, new Position(lineCount - 1,
    lastLine.range.end.character)))] *)
Definition textAfter (doc : TextDocument) (pos : Position) : string :=
  let lastLine := lineCount doc - 1 in
  getText doc (Some (newRange pos
    {| line := lastLine; character := lineEndCharacter doc lastLine |})).

Definition loadWords (word : string) (docList : DocumentList.t) : M unit :=
  emit (Call_loadWords word) ;;
  this <- get ;;
  match _doc this, _pos this with
  | Some doc, Some pos =>
      modify (with_words []) ;;
      pushWordsFromText word (textBefore doc pos) ;;
      modify (fun this => with_words (rev (_words this)) this) ;;
      pushWordsFromText word (textAfter doc pos) ;;
      forEach (DocumentList.values docList)
              (fun docText => pushWordsFromText word docText) ;;
      modify (fun this => with_words (_words this ++ [word]) this) ;;
      modify (fun this => with_words (JS.uniq (_words this)) this)
  | _, _ => ret tt
  end.

(** *** [getCurrentWord] *)
Definition getCurrentWord (editor : TextEditor) (doc : TextDocument) : string :=
  let activeRange := getWordRangeAtPosition doc (selectionActive editor) in
  getText doc activeRange.

(** *** [updateStatusBar] *)
Definition updateStatusBar (word : string) (p : Position) : M unit :=
  modify (with_statusBarItem {| text := word; visible := true |}).

(** *** [positionHasChanged] *)
Definition positionHasChanged (this : CurrentWord) (w : string)
           (doc : TextDocument) (pos : Position) : bool :=
  match _doc this, _pos this with
  | Some doc0, Some pos0 =>
      if negb (docId doc =? docId doc0)
         || (String.length (_activeWord this) =? 0)
      then true
      else if negb (JS.startsWith w (_activeWord this)) then true
      else if negb (JS.includes (_words this) w) then true
      else
        let char := (Z.of_nat (character pos) - Z.of_nat (String.length w)
                     + Z.of_nat (String.length (_activeWord this)))%Z in
        let newPos := {| line := line pos;
                         character := if (0 <=? char)%Z then Z.to_nat char
                                      else 0 |} in
        negb (line newPos =? line pos0)
        || negb (character newPos =? character pos0)
  | _, _ => true
  end.

(** [this._words.shift()] *)
Definition shift : M (option string) :=
  fun this =>
    match _words this with
    | [] => {| final := this; trace := []; completion := Normal None |}
    | w :: ws => {| final := with_words ws this; trace := [];
                    completion := Normal (Some w) |}
    end.

(** *** [updateCurrentWord]

    The method has two parts, marked by its comments: "load new
    suggestions" when [positionHasChanged], then "enter suggestion". *)
Definition loadNewSuggestions (w : string) (editor : TextEditor)
           (docList : DocumentList.t) : M unit :=
  modify (with_activeWord (if JS.truthy w then w else "")) ;;
  modify (with_doc (Some (document editor))) ;;
  modify (with_pos (Some (selectionActive editor))) ;;
  updateStatusBar w (selectionActive editor) ;;
  loadWords w docList.

Definition enterSuggestion (editor : TextEditor) : M unit :=
  nextWord <- shift ;;
  let activeRange :=
    getWordRangeAtPosition (document editor) (selectionActive editor) in
  match activeRange, nextWord with
  | Some range, Some next =>
      if JS.truthy next then
        emit (Edit_delete range) ;;
        emit (Edit_insert (start range) next) ;;
        modify (fun this => with_words (_words this ++ [next]) this)
      else ret tt
  | _, _ => ret tt
  end.

Definition updateCurrentWord (editor : TextEditor)
           (docList : DocumentList.t) : M unit :=
  let doc := document editor in
  let w := getCurrentWord editor doc in
  this <- get ;;
  (if positionHasChanged this w doc (selectionActive editor)
   then loadNewSuggestions w editor docList
   else ret tt) ;;
  enterSuggestion editor.

(** The fields as "load new suggestions" leaves them for [loadWords]. *)
Definition storedFor (w : string) (editor : TextEditor)
           (this : CurrentWord) : CurrentWord :=
  with_statusBarItem {| text := w; visible := true |}
    (with_pos (Some (selectionActive editor))
       (with_doc (Some (document editor))
          (with_activeWord (if JS.truthy w then w else "") this))).

(** *** [activate]: the listeners that maintain the document list *)
Definition onDidOpenTextDocument (docList : DocumentList.t)
           (document : TextDocument) : DocumentList.t :=
  DocumentList.set docList document (getText document None).

Definition onDidCloseTextDocument (docList : DocumentList.t)
           (document : TextDocument) : DocumentList.t :=
  if DocumentList.has docList document
  then DocumentList.delete docList document
  else docList.

Definition onDidChangeTextDocument (docList : DocumentList.t)
           (document : TextDocument) : DocumentList.t :=
  DocumentList.set docList document (getText document None).

(** *** Sequences of invocations *)

(** One press of the key: the editor at that moment and the document
    list as the listeners have left it. *)
Definition Invocation : Type := TextEditor * DocumentList.t.

Definition invoke (i : Invocation) : M unit :=
  updateCurrentWord (fst i) (snd i).

Fixpoint invokeAll (invs : list Invocation) : M unit :=
  match invs with
  | [] => ret tt
  | i :: invs' => invoke i ;; invokeAll invs'
  end.

(** Control comes back to the host after a normal completion and after
    an exception. *)
Definition returns {A} (k : Completion A) : bool :=
  match k with
  | Normal _ | Throw _ => true
  | Diverge | Unmodelled => false
  end.

(** The states of the object that the command can find.  Where the
    pattern is outside the fragment of [Regex.parse] the run is not
    followed, and the code may return: the fields other than [_words] are
    then as the run has left them at that point (nothing after it writes
    them), and [_words] may be any list. *)
Inductive reachable : CurrentWord -> Prop :=
| reachable_new : reachable newCurrentWord
| reachable_invoke (this : CurrentWord) (i : Invocation) :
    reachable this ->
    returns (completion (invoke i this)) = true ->
    reachable (final (invoke i this))
| reachable_unmodelled (this : CurrentWord) (i : Invocation)
                       (words : list string) :
    reachable this ->
    completion (invoke i this) = Unmodelled ->
    reachable (with_words words (final (invoke i this))).

(** A property of the state found by every invocation of a sequence. *)
Fixpoint eachInvocation (P : CurrentWord -> Invocation -> Prop)
         (invs : list Invocation) (this : CurrentWord) : Prop :=
  match invs with
  | [] => True
  | i :: invs' => P this i /\ eachInvocation P invs' (final (invoke i this))
  end.

Definition currentWord (i : Invocation) : string :=
  getCurrentWord (fst i) (document (fst i)).

Definition wordRange (i : Invocation) : option Range :=
  getWordRangeAtPosition (document (fst i)) (selectionActive (fst i)).

(** The invocation does not reload: [positionHasChanged] is false. *)
Definition stable (this : CurrentWord) (i : Invocation) : Prop :=
  positionHasChanged this (currentWord i) (document (fst i))
                     (selectionActive (fst i)) = false.

(** *** Reading a trace *)

Definition isLoad (e : Event) : bool :=
  match e with Call_loadWords _ => true | _ => false end.

Definition isScan (e : Event) : bool :=
  match e with
  | Call_loadWords _ | Call_pushWordsFromText _ _ => true
  | _ => false
  end.

Definition isEdit (e : Event) : bool :=
  match e with Edit_delete _ | Edit_insert _ _ => true | _ => false end.

(** The replacement texts handed to the edit handle, in order. *)
Fixpoint inserted (tr : list Event) : list string :=
  match tr with
  | [] => []
  | Edit_insert _ v :: tr' => v :: inserted tr'
  | _ :: tr' => inserted tr'
  end.

(** The calls on the edit handle that replace the word of invocation
    [i] by the candidate [c]. *)
Definition replacement (i : Invocation) (c : string) : list Event :=
  match wordRange i with
  | Some range => [Edit_delete range; Edit_insert (start range) c]
  | None => []
  end.

Fixpoint replacements (invs : list Invocation) (cs : list string)
  : list Event :=
  match invs, cs with
  | i :: invs', c :: cs' => replacement i c ++ replacements invs' cs'
  | _, _ => []
  end.

(** The list after [k] candidates have gone from the front to the back. *)
Definition rotated (k : nat) (ws : list string) : list string :=
  skipn k ws ++ firstn k ws.

(** The calls of a [loadWords] that completes: the text before the
    cursor, the text behind it, then every value of the document list. *)
Definition scans (word : string) (doc : TextDocument) (pos : Position)
           (docList : DocumentList.t) : list Event :=
  Call_loadWords word
  :: Call_pushWordsFromText word (textBefore doc pos)
  :: Call_pushWordsFromText word (textAfter doc pos)
  :: map (Call_pushWordsFromText word) (DocumentList.values docList).

(** The state changes in [_words] only. *)
Definition wordsOnly {A} (m : M A) : Prop :=
  forall this, final (m this) = with_words (_words (final (m this))) this.

(** The trace holds calls of [loadWords] and [pushWordsFromText] only. *)
Definition scansOnly {A} (m : M A) : Prop :=
  forall this, forallb isScan (trace (m this)) = true.

(** The words a scan of [text] finds for [prefix], with repetitions, when
    the pattern is well formed and the scan ends. *)
Definition occurrences (prefix text : string) : option (list string) :=
  match Regex.parse (pattern prefix) with
  | Regex.Parsed regexp =>
      let input := list_ascii_of_string text in
      match execLoop (S (List.length input)) regexp input 0 [] with
      | Done words => Some words
      | _ => None
      end
  | _ => None
  end.

Definition occurrencesOrNone (prefix text : string) : list string :=
  match occurrences prefix text with
  | Some words => words
  | None => []
  end.

(** The list a [loadWords] that completes leaves in [_words]: the scan
    of the text before the cursor loses its duplicates before it is
    reversed. *)
Definition loadedWords (word before after : string)
           (others : list string) : list string :=
  JS.uniq (rev (JS.uniq (occurrencesOrNone word before))
           ++ occurrencesOrNone word after
           ++ flat_map (occurrencesOrNone word) others
           ++ [word]).

(** *** The statements of the specification, in its words *)

(** The anchor recomputed from the cursor: the column minus the growth
    of the word since the list was built, not below zero, same line. *)
Definition recomputedAnchor (pos : Position) (w activeWord : string)
  : Position :=
  let growth := (Z.of_nat (String.length w)
                 - Z.of_nat (String.length activeWord))%Z in
  {| line := line pos;
     character := Z.to_nat (Z.max 0 (Z.of_nat (character pos) - growth)) |}.

(** The five conditions for a rebuild. *)
Definition rebuildConditions (this : CurrentWord) (w : string)
           (doc : TextDocument) (pos : Position) : Prop :=
  (_doc this = None \/ _pos this = None \/ _activeWord this = "")
  \/ (exists d, _doc this = Some d /\ docId doc <> docId d)
  \/ ~ (exists rest, w = (_activeWord this ++ rest)%string)
  \/ ~ In w (_words this)
  \/ (exists p, _pos this = Some p
                /\ recomputedAnchor pos w (_activeWord this) <> p).

(** The candidate list as the specification orders it: the occurrences
    before the cursor nearest first, those behind the cursor, those of
    the other sources, the prefix; then the first occurrence of each. *)
Definition buildCandidates (prefix before after : string)
           (others : list string) : list string :=
  JS.uniq (rev (occurrencesOrNone prefix before)
           ++ occurrencesOrNone prefix after
           ++ flat_map (occurrencesOrNone prefix) others
           ++ [prefix]).

(** [candidate] is [prefix] followed by at least one word character and
    nothing else. *)
Definition extendsPrefix (prefix candidate : string) : bool :=
  JS.startsWith candidate prefix
  && (String.length prefix <? String.length candidate)
  && forallb Chars.isWordChar
       (skipn (String.length prefix) (list_ascii_of_string candidate)).

(** *** Examples of documents *)

(** A word pattern for the examples: a word is a maximal run of
    characters of a given kind on the line, found at every position from
    its first character to just behind its last one. *)
Fixpoint runLength (isWord : ascii -> bool) (s : list ascii) : nat :=
  match s with
  | c :: s' => if isWord c then S (runLength isWord s') else 0
  | [] => 0
  end.

Definition wordRangeOfLine (isWord : ascii -> bool) (l : string)
           (p : Position) : option Range :=
  let cs := list_ascii_of_string l in
  let col := Nat.min (character p) (List.length cs) in
  let back := runLength isWord (rev (firstn col cs)) in
  let forth := runLength isWord (skipn col cs) in
  if back + forth =? 0 then None
  else Some {| start := {| line := line p; character := col - back |};
               end_ := {| line := line p; character := col + forth |} |}.

Definition textDocument (isWord : ascii -> bool) (id : nat)
           (content : string) : TextDocument :=
  {| docId := id;
     docText := content;
     getWordRangeAtPosition := fun p =>
       wordRangeOfLine isWord (nth (line p) (splitLines content) "") p |}.

(** Words are runs of word characters. *)
Definition plainText : nat -> string -> TextDocument :=
  textDocument Chars.isWordChar.

(** Words are runs of characters other than white space. *)
Definition shellText : nat -> string -> TextDocument :=
  textDocument (fun c => negb (Chars.isSpace c)).

Definition cursor (doc : TextDocument) (l c : nat) : TextEditor :=
  {| document := doc; selectionActive := {| line := l; character := c |} |}.

(** The object with a document and a position stored, as [loadWords]
    finds it. *)
Definition storing (doc : TextDocument) (l c : nat) : CurrentWord :=
  with_pos (Some {| line := l; character := c |})
           (with_doc (Some doc) newCurrentWord).

End Extension.

(** ** Documents and invocations used in the examples *)

Module Examples.
Import Host Extension.

(** The order scenario, with the cursor between [foo2] and [foo3]. *)
Definition orderDoc : TextDocument :=
  plainText 1 "alpha foo1 foo2  foo3 foo4".

(** The same with the prefix typed at the cursor. *)
Definition typedDoc (typed : string) : TextDocument :=
  plainText 1 ("alpha foo1 foo2 " ++ typed ++ " foo3 foo4").

Definition firstPress : Invocation := (cursor (typedDoc "foo") 0 19, []).

(** After the first press and after each later one, the word at the
    cursor is the candidate just applied. *)
Definition laterPresses : list Invocation :=
  [ (cursor (typedDoc "foo2") 0 20, []);
    (cursor (typedDoc "foo1") 0 20, []);
    (cursor (typedDoc "foo3") 0 20, []);
    (cursor (typedDoc "foo4") 0 20, []);
    (cursor (typedDoc "foo") 0 19, []) ].

(** A word that occurs twice before the cursor. *)
Definition repeatedDoc : TextDocument := plainText 1 "foo1 foo2 foo1 foo".

(** The cursor between a space and a parenthesis: no word there. *)
Definition parenDoc : TextDocument := plainText 1 "a ( b".
Definition parenPress : Invocation := (cursor parenDoc 0 2, []).

(** A document that holds a full stop only, next to another document. *)
Definition dotDoc : TextDocument := plainText 7 ".".
Definition dotPress : Invocation := (cursor dotDoc 0 1, [(3, "hello world")]).

(** The primary document is in the document list, as the change
    listener puts it there. *)
Definition listedDoc : TextDocument := plainText 1 "foo1 foo foo2".
Definition listedList : DocumentList.t := onDidChangeTextDocument [] listedDoc.

(** A language whose words are runs of characters other than white
    space; the key is pressed, the replacement undone, the key pressed
    again. *)
Definition shellDoc : TextDocument := shellText 1 "b ab a|)(".
Definition shellPress : Invocation := (cursor shellDoc 0 9, []).

End Examples.

(** ** The notifications of the host that [activate] listens to *)

Module Activation.
Import Host Extension.

Inductive Notification :=
| DidOpen (document : TextDocument)
| DidClose (document : TextDocument)
| DidChange (document : TextDocument).

(** The listener that [activate] registers for each notification. *)
Definition notify (docList : DocumentList.t) (n : Notification)
  : DocumentList.t :=
  match n with
  | DidOpen d => onDidOpenTextDocument docList d
  | DidClose d => onDidCloseTextDocument docList d
  | DidChange d => onDidChangeTextDocument docList d
  end.

(** The notifications are handled one after the other. *)
Definition notifyAll (ns : list Notification) (docList : DocumentList.t)
  : DocumentList.t :=
  fold_left notify ns docList.

(** What the notifications say about the document [id]: the text of the
    last opening or change that no closing follows, if any. *)
Definition told (n : Notification) (id : nat) (before : option string)
  : option string :=
  match n with
  | DidOpen d | DidChange d =>
      if docId d =? id then Some (docText d) else before
  | DidClose d => if docId d =? id then None else before
  end.

Definition latestText (ns : list Notification) (id : nat)
           (before : option string) : option string :=
  fold_left (fun acc n => told n id acc) ns before.

End Activation.

(** ** The words of a text

    A reference for what a scan finds: the maximal runs of word
    characters, and the parts of the pattern they are matched by. *)

Module Tokens.
Import Regex Matcher.

(** The word characters a text begins with. *)
Fixpoint takeWord (s : list ascii) : list ascii :=
  match s with
  | c :: s' => if Chars.isWordChar c then c :: takeWord s' else []
  | [] => []
  end.

(** The word read so far, if any, goes in front of the words that
    follow. *)
Definition flush (cur : list ascii) (runs : list (list ascii))
  : list (list ascii) :=
  match cur with
  | [] => runs
  | _ => rev cur :: runs
  end.

(** The maximal runs of word characters of a text, in order; [cur] holds
    the characters of the run being read, the last one first. *)
Fixpoint wordRunsFrom (cur : list ascii) (s : list ascii)
  : list (list ascii) :=
  match s with
  | [] => flush cur []
  | c :: s' =>
      if Chars.isWordChar c then wordRunsFrom (c :: cur) s'
      else flush cur (wordRunsFrom [] s')
  end.

Definition wordRuns (s : list ascii) : list (list ascii) :=
  wordRunsFrom [] s.

(** The words of a text. *)
Definition words (text : string) : list string :=
  map string_of_list_ascii (wordRuns (list_ascii_of_string text)).

(** A prefix of word characters only. *)
Definition wordCharsOnly (word : string) : bool :=
  forallb Chars.isWordChar (list_ascii_of_string word).

Definition isWordAt (input : list ascii) (j : nat) : bool :=
  match nth_error input j with
  | Some ch => Chars.isWordChar ch
  | None => false
  end.

(** The run of word characters that begins at index [p]. *)
Definition runAt (input : list ascii) (p : nat) : list ascii :=
  takeWord (skipn p input).

(** The second group of the pattern, [(word\w+)]. *)
Definition secondGroup (cs : list ascii) : regex :=
  Group 2 (Seq (literal cs) wordChars).

(** The second group matched at a state. *)
Definition matchSecond (input : list ascii) (cs : list ascii)
           (x : MatchState) : MatchResult :=
  compileSubpattern input (secondGroup cs) x (fun y => Some y).

(** The state after the second group has matched the run at the state
    [x]. *)
Definition found (input : list ascii) (x : MatchState) : MatchState :=
  let e := endIndex x + List.length (runAt input (endIndex x)) in
  {| endIndex := e; captures := (2, (endIndex x, e)) :: captures x |}.

(** The three alternatives of the first group at index [i], each
    followed by the second group. *)
Definition atStart (input cs : list ascii) (i : nat) : MatchResult :=
  if atLineStart input i
  then matchSecond input cs
         (setCapture 1 i i {| endIndex := i; captures := [] |})
  else None.

Definition afterSpaces (input cs : list ascii) (i : nat) : MatchResult :=
  repeatMatcher (S (1 + List.length input))
    (compileSubpattern input (Char (CsClass ClassS false))) []
    1 None true {| endIndex := i; captures := [] |}
    (fun y => matchSecond input cs (setCapture 1 i (endIndex y) y)).

Definition afterNonWord (input cs : list ascii) (i : nat) : MatchResult :=
  match nth_error input i with
  | Some ch =>
      if negb (Chars.isWordChar ch)
      then matchSecond input cs
             (setCapture 1 i (S i) {| endIndex := S i; captures := [] |})
      else None
  | None => None
  end.

(** [p] stands at the beginning of [s]. *)
Fixpoint prefixChars (p s : list ascii) : bool :=
  match p, s with
  | [], _ => true
  | a :: p', b :: s' => Ascii.eqb a b && prefixChars p' s'
  | _ :: _, [] => false
  end.

(** The run [r] is the prefix [cs] and at least one more character. *)
Definition extendsChars (cs r : list ascii) : bool :=
  prefixChars cs r && (List.length cs <? List.length r).

End Tokens.

Unset Implicit Arguments.

(** * Properties *)

(** ** Strings and arrays *)

Module JSFacts.

Lemma startsWith_iff (s p : string) :
  JS.startsWith s p = true <-> exists rest, s = (p ++ rest)%string.
Proof.
  unfold JS.startsWith. revert s.
  induction p as [|c p IH]; intros s.
  - simpl. split; [intros _; now exists s | now destruct s].
  - destruct s as [|c' s]; simpl.
    + split; [discriminate | intros [rest H]; discriminate].
    + destruct (ascii_dec c c') as [->|Hne].
      * rewrite IH. split; intros [rest H]; exists rest.
        -- now rewrite H.
        -- now inversion H.
      * split; [discriminate|].
        intros [rest H]. inversion H. congruence.
Qed.

Lemma includes_iff (arr : list string) (x : string) :
  JS.includes arr x = true <-> In x arr.
Proof.
  unfold JS.includes. rewrite existsb_exists. split.
  - intros [y [Hin Heq]]. apply String.eqb_eq in Heq. now subst.
  - intros Hin. exists x. split; [assumption | apply String.eqb_refl].
Qed.

Lemma includes_false_iff (arr : list string) (x : string) :
  JS.includes arr x = false <-> ~ In x arr.
Proof.
  rewrite <- includes_iff. destruct (JS.includes arr x); intuition congruence.
Qed.

Lemma truthy_iff (s : string) : JS.truthy s = true <-> s <> "".
Proof.
  unfold JS.truthy. destruct s; simpl; split; congruence.
Qed.

Lemma truthy_or_empty (s : string) :
  (if JS.truthy s then s else "") = s.
Proof. now destruct s. Qed.

Lemma uniqFrom_In (seen arr : list string) (x : string) :
  In x (JS.uniqFrom seen arr) <-> In x arr /\ ~ In x seen.
Proof.
  revert seen. induction arr as [|y arr IH]; intros seen; simpl.
  - tauto.
  - destruct (JS.includes seen y) eqn:Hy.
    + apply includes_iff in Hy. rewrite IH.
      split; [tauto|]. intros [[->|H] Hn]; tauto.
    + apply includes_false_iff in Hy. simpl. rewrite IH. simpl.
      destruct (string_dec y x) as [->|Hne]; tauto.
Qed.

Lemma uniq_In (arr : list string) (x : string) :
  In x (JS.uniq arr) <-> In x arr.
Proof. unfold JS.uniq. rewrite uniqFrom_In. simpl. tauto. Qed.

Lemma uniqFrom_NoDup (seen arr : list string) :
  NoDup (JS.uniqFrom seen arr).
Proof.
  revert seen. induction arr as [|y arr IH]; intros seen; simpl.
  - constructor.
  - destruct (JS.includes seen y); [apply IH|].
    constructor; [|apply IH].
    rewrite uniqFrom_In. simpl. tauto.
Qed.

Lemma uniq_NoDup (arr : list string) : NoDup (JS.uniq arr).
Proof. apply uniqFrom_NoDup. Qed.

Lemma uniq_Forall (P : string -> Prop) (arr : list string) :
  Forall P arr -> Forall P (JS.uniq arr).
Proof.
  rewrite !Forall_forall. intros H x Hx. apply H. now apply uniq_In.
Qed.

(** [uniqFrom] looks at [seen] only as a set. *)
Lemma uniqFrom_ext (arr : list string) :
  forall seen seen',
    (forall x, In x seen <-> In x seen') ->
    JS.uniqFrom seen arr = JS.uniqFrom seen' arr.
Proof.
  induction arr as [|y arr IH]; intros seen seen' Hs; simpl; [reflexivity|].
  assert (Hy : JS.includes seen y = JS.includes seen' y).
  { destruct (JS.includes seen y) eqn:E; symmetry.
    - apply includes_iff. apply Hs. now apply includes_iff.
    - apply includes_false_iff. rewrite <- Hs. now apply includes_false_iff. }
  rewrite Hy. destruct (JS.includes seen' y).
  - now apply IH.
  - f_equal. apply IH. intros x. simpl. rewrite Hs. tauto.
Qed.

Lemma uniqFrom_app (a b : list string) :
  forall seen,
    JS.uniqFrom seen (a ++ b)
    = JS.uniqFrom seen a ++ JS.uniqFrom (a ++ seen) b.
Proof.
  induction a as [|y a IH]; intros seen; simpl; [reflexivity|].
  destruct (JS.includes seen y) eqn:Hy.
  - rewrite IH. f_equal. apply uniqFrom_ext.
    apply includes_iff in Hy.
    intros x. simpl. rewrite !in_app_iff. split; [tauto|].
    intros [->|H]; tauto.
  - simpl. rewrite IH. do 2 f_equal. apply uniqFrom_ext.
    intros x. simpl. rewrite !in_app_iff. simpl. tauto.
Qed.

Lemma uniqFrom_idem (arr : list string) :
  forall seen,
    JS.uniqFrom seen (JS.uniqFrom seen arr) = JS.uniqFrom seen arr.
Proof.
  induction arr as [|y arr IH]; intros seen; simpl; [reflexivity|].
  destruct (JS.includes seen y) eqn:Hy; [apply IH|].
  simpl. rewrite Hy. f_equal. apply IH.
Qed.

Lemma uniq_idem (arr : list string) : JS.uniq (JS.uniq arr) = JS.uniq arr.
Proof. apply uniqFrom_idem. Qed.

(** Removing duplicates early does not change a later [uniq]. *)
Lemma uniq_absorb (a b : list string) :
  JS.uniq (JS.uniq a ++ b) = JS.uniq (a ++ b).
Proof.
  unfold JS.uniq. rewrite !uniqFrom_app, uniqFrom_idem. f_equal.
  apply uniqFrom_ext. intros x. rewrite !in_app_iff.
  fold (JS.uniq a). rewrite uniq_In. tauto.
Qed.


Lemma string_of_list_ascii_app (a b : list ascii) :
  string_of_list_ascii (a ++ b)
  = (string_of_list_ascii a ++ string_of_list_ascii b)%string.
Proof. induction a as [|c a IH]; simpl; [reflexivity | now rewrite IH]. Qed.

Lemma length_list_ascii_of_string (s : string) :
  List.length (list_ascii_of_string s) = String.length s.
Proof. induction s as [|c s IH]; simpl; [reflexivity | now rewrite IH]. Qed.

Lemma length_string_of_list_ascii (l : list ascii) :
  String.length (string_of_list_ascii l) = List.length l.
Proof. induction l as [|c l IH]; simpl; [reflexivity | now rewrite IH]. Qed.

Lemma wordChar_not_space (c : ascii) :
  Chars.isWordChar c = true -> Chars.isSpace c = false.
Proof.
  destruct c as [[|] [|] [|] [|] [|] [|] [|] [|]];
    intros H; try discriminate H; reflexivity.
Qed.

Lemma plainChar_not_space (c : ascii) :
  Regex.plainChar c = true -> Chars.isSpace c = false.
Proof.
  destruct c as [[|] [|] [|] [|] [|] [|] [|] [|]];
    intros H; try discriminate H; reflexivity.
Qed.

Lemma dropSpace_id (l : list ascii) :
  Forall (fun c => Chars.isSpace c = false) l -> JS.dropSpace l = l.
Proof.
  destruct l as [|c l]; [reflexivity|].
  intros H. inversion H as [|? ? Hc _]; subst. simpl. now rewrite Hc.
Qed.

(** [trim] leaves a text without white space as it is. *)
Lemma trim_id (l : list ascii) :
  Forall (fun c => Chars.isSpace c = false) l ->
  JS.trim (string_of_list_ascii l) = string_of_list_ascii l.
Proof.
  intros H. unfold JS.trim, JS.trimChars.
  rewrite list_ascii_of_string_of_list_ascii.
  rewrite (dropSpace_id l H), dropSpace_id, rev_involutive; [reflexivity|].
  now apply Forall_rev.
Qed.

End JSFacts.

(** ** The pattern of a plain prefix *)

Module ParseFacts.
Import Regex.

Lemma list_ascii_of_string_app (a b : string) :
  list_ascii_of_string (a ++ b)
  = list_ascii_of_string a ++ list_ascii_of_string b.
Proof. induction a as [|c a IH]; simpl; [reflexivity | now rewrite IH]. Qed.

(** A plain character is a pattern character. *)
Lemma parseFrom_plainChar c rest stack top n :
  plainChar c = true ->
  parseFrom (c :: rest) stack top n
  = parseFrom rest stack (pushTerm (TAtom (Char (CsChar c))) top) n.
Proof.
  destruct c as [[|] [|] [|] [|] [|] [|] [|] [|]];
    intros H; try discriminate H; reflexivity.
Qed.

Lemma parseFrom_plain cs :
  forall rest stack top n,
    forallb plainChar cs = true ->
    parseFrom (cs ++ rest) stack top n
    = parseFrom rest stack (pushChars cs top) n.
Proof.
  induction cs as [|c cs IH]; intros rest stack top n H.
  - now destruct top.
  - simpl in H. apply andb_prop in H. destruct H as [Hc Hcs].
    change ((c :: cs) ++ rest) with (c :: (cs ++ rest)).
    rewrite (parseFrom_plainChar _ _ _ _ _ Hc), (IH _ _ _ _ Hcs).
    f_equal. unfold pushChars, pushTerm. simpl.
    now rewrite <- app_assoc.
Qed.

(** The group that opens in front of a plain prefix is a capture group. *)
Lemma parseFrom_open cs stack top n :
  forallb plainChar cs = true ->
  parseFrom ("("%char :: cs ++ list_ascii_of_string "\w+)") stack top n
  = parseFrom (cs ++ list_ascii_of_string "\w+)") (top :: stack)
              (emptyFrame (Some (S n))) (S n).
Proof.
  destruct cs as [|c cs]; [reflexivity|].
  simpl forallb. intros H. apply andb_prop in H. destruct H as [Hc _].
  destruct c as [[|] [|] [|] [|] [|] [|] [|] [|]];
    try discriminate Hc; reflexivity.
Qed.

Lemma parseFrom_boundary rest :
  parseFrom (list_ascii_of_string "(^|\s+|\W)" ++ rest) [] (emptyFrame None) 0
  = parseFrom rest [] (pushTerm (TAtom boundary) (emptyFrame None)) 1.
Proof. reflexivity. Qed.

Lemma parseFrom_wordChars parent cs :
  parseFrom (list_ascii_of_string "\w+)") [parent]
            (pushChars cs (emptyFrame (Some 2))) 2
  = Parsed (closeFrame
              (pushTerm (TAtom (Group 2 (Seq (literal cs) wordChars))) parent)).
Proof.
  unfold pushChars, literal. simpl. now rewrite app_nil_r.
Qed.

(** [new RegExp] for a plain prefix: the boundary group, then the group
    of the prefix followed by word characters. *)
Lemma parse_plain (word : string) :
  plain word = true ->
  parse (Extension.pattern word)
  = Parsed (prefixPattern (list_ascii_of_string word)).
Proof.
  intros H. unfold parse, Extension.pattern, plain in *.
  rewrite !list_ascii_of_string_app.
  set (cs := list_ascii_of_string word) in *.
  change (list_ascii_of_string "(^|\s+|\W)(")
    with (list_ascii_of_string "(^|\s+|\W)" ++ ["("%char]).
  rewrite <- app_assoc.
  change (["("%char] ++ cs ++ list_ascii_of_string "\w+)")
    with ("("%char :: cs ++ list_ascii_of_string "\w+)").
  rewrite parseFrom_boundary, (parseFrom_open _ _ _ _ H),
    (parseFrom_plain _ _ _ _ _ H), parseFrom_wordChars.
  reflexivity.
Qed.

End ParseFacts.

(** ** The matcher: fuel is never short *)

Module MatcherFacts.
Import Regex Matcher.

Section Input.
Variable input : list ascii.

Lemma resetCaptures_endIndex gs x :
  endIndex (resetCaptures gs x) = endIndex x.
Proof. reflexivity. Qed.

Lemma orElse_Some z alt r :
  orElse z alt = Some r -> z = Some r \/ (z = None /\ alt tt = Some r).
Proof. destruct z; simpl; intros H; [left | right]; auto. Qed.

Lemma repeatMatcher_forward m gs :
  forward input m ->
  forall fuel mn mx greedy, forward input (repeatMatcher fuel m gs mn mx greedy).
Proof.
  intros Hm. induction fuel as [|fuel IH]; intros mn mx greedy x c z H.
  - simpl in H. destruct mx as [[|k]|]; try discriminate.
    exists x. auto.
  - simpl in H.
    assert (Hc : c x = Some z ->
                 exists y, endIndex x <= endIndex y
                           /\ (inInput input x -> inInput input y)
                           /\ c y = Some z)
      by (intros E; exists x; auto).
    assert (Hd : m (resetCaptures gs x)
                   (fun y =>
                      if (mn =? 0) && (endIndex y =? endIndex x) then None
                      else repeatMatcher fuel m gs (Nat.pred mn)
                             (option_map Nat.pred mx) greedy y c) = Some z ->
                 exists y, endIndex x <= endIndex y
                           /\ (inInput input x -> inInput input y)
                           /\ c y = Some z).
    { intros E. destruct (Hm _ _ _ E) as [y1 [Hle [Hin Hy1]]].
      simpl in Hle.
      destruct ((mn =? 0) && (endIndex y1 =? endIndex x)); [discriminate|].
      destruct (IH _ _ _ _ _ _ Hy1) as [y2 [Hle2 [Hin2 Hy2]]].
      exists y2. split; [lia | split; [auto | assumption]]. }
    destruct mx as [[|k]|]; [now apply Hc | |];
      (destruct (negb (mn =? 0)); [now apply Hd|];
       destruct greedy;
       apply orElse_Some in H; destruct H as [H|[_ H]]; auto).
Qed.

Lemma compileSubpattern_forward r : forward input (compileSubpattern input r).
Proof.
  induction r as [|cs|r1 IH1 r2 IH2|r1 IH1 r2 IH2|r1 IH1 mn mx greedy|i r1 IH1| |];
    intros x c z H; cbn [compileSubpattern] in H.
  - exists x. auto.
  - destruct (nth_error input (endIndex x)) as [ch|] eqn:E; [|discriminate].
    destruct (charSetMatches cs ch); [|discriminate].
    exists (advance x). simpl. split; [lia | split; [| assumption]].
    intros _. unfold inInput. simpl.
    apply Nat.le_succ_l, nth_error_Some. congruence.
  - apply orElse_Some in H. destruct H as [H|[_ H]]; [apply IH1 | apply IH2];
      assumption.
  - destruct (IH1 _ _ _ H) as [y1 [Hle1 [Hin1 H1]]].
    destruct (IH2 _ _ _ H1) as [y2 [Hle2 [Hin2 H2]]].
    exists y2. split; [lia | split; [auto | assumption]].
  - eapply repeatMatcher_forward; eauto.
  - destruct (IH1 _ _ _ H) as [y1 [Hle1 [Hin1 H1]]].
    exists (setCapture i (endIndex x) (endIndex y1) y1).
    split; [exact Hle1 | split; [exact Hin1 | exact H1]].
  - destruct (atLineStart input (endIndex x)); [|discriminate]. exists x. auto.
  - destruct (atLineEnd input (endIndex x)); [|discriminate]. exists x. auto.
Qed.

Lemma orElse_ext z z' alt alt' :
  z = z' -> alt tt = alt' tt -> orElse z alt = orElse z' alt'.
Proof. intros -> H. destruct z'; simpl; auto. Qed.

Lemma repeatMatcher_local m gs :
  local input m ->
  forall fuel mn mx greedy, local input (repeatMatcher fuel m gs mn mx greedy).
Proof.
  intros Hm. induction fuel as [|fuel IH]; intros mn mx greedy x c c' Hx Hcc.
  - simpl. destruct mx as [[|k]|]; try reflexivity.
    apply Hcc; [lia | assumption].
  - simpl.
    assert (Hc : c x = c' x) by (apply Hcc; [lia | assumption]).
    assert (Hd : m (resetCaptures gs x)
                   (fun y =>
                      if (mn =? 0) && (endIndex y =? endIndex x) then None
                      else repeatMatcher fuel m gs (Nat.pred mn)
                             (option_map Nat.pred mx) greedy y c)
                 = m (resetCaptures gs x)
                     (fun y =>
                        if (mn =? 0) && (endIndex y =? endIndex x) then None
                        else repeatMatcher fuel m gs (Nat.pred mn)
                               (option_map Nat.pred mx) greedy y c')).
    { apply Hm; [exact Hx|]. intros y Hle Hy. simpl in Hle.
      destruct ((mn =? 0) && (endIndex y =? endIndex x)); [reflexivity|].
      apply IH; [exact Hy|]. intros y' Hle' Hy'. apply Hcc; [lia | exact Hy']. }
    destruct mx as [[|k]|]; [exact Hc | |];
      (destruct (negb (mn =? 0)); [exact Hd|];
       destruct greedy; apply orElse_ext; assumption).
Qed.

Lemma compileSubpattern_local r : local input (compileSubpattern input r).
Proof.
  induction r as [|cs|r1 IH1 r2 IH2|r1 IH1 r2 IH2|r1 IH1 mn mx greedy|i r1 IH1| |];
    intros x c c' Hx Hcc; cbn [compileSubpattern].
  - apply Hcc; [lia | assumption].
  - destruct (nth_error input (endIndex x)) as [ch|] eqn:E; [|reflexivity].
    destruct (charSetMatches cs ch); [|reflexivity].
    apply Hcc; simpl; [lia|].
    unfold inInput. simpl. apply Nat.le_succ_l, nth_error_Some. congruence.
  - apply orElse_ext; [apply IH1 | apply IH2]; assumption.
  - apply IH1; [exact Hx|]. intros y Hle Hy.
    apply IH2; [exact Hy|]. intros y' Hle' Hy'. apply Hcc; [lia | exact Hy'].
  - apply repeatMatcher_local; assumption.
  - apply IH1; [exact Hx|]. intros y Hle Hy.
    apply Hcc; simpl; assumption.
  - destruct (atLineStart input (endIndex x)); [|reflexivity].
    apply Hcc; [lia | assumption].
  - destruct (atLineEnd input (endIndex x)); [|reflexivity].
    apply Hcc; [lia | assumption].
Qed.

(** More fuel than the bound changes nothing. *)
Lemma repeatMatcher_fuel m gs :
  local input m ->
  forall fuel fuel' mn mx greedy x c,
    inInput input x ->
    mn + (List.length input - endIndex x) < fuel ->
    mn + (List.length input - endIndex x) < fuel' ->
    repeatMatcher fuel m gs mn mx greedy x c
    = repeatMatcher fuel' m gs mn mx greedy x c.
Proof.
  intros Hm. induction fuel as [|fuel IH];
    intros fuel' mn mx greedy x c Hx Hf Hf'; [lia|].
  destruct fuel' as [|fuel']; [lia|].
  simpl.
  assert (Hd : m (resetCaptures gs x)
                 (fun y =>
                    if (mn =? 0) && (endIndex y =? endIndex x) then None
                    else repeatMatcher fuel m gs (Nat.pred mn)
                           (option_map Nat.pred mx) greedy y c)
               = m (resetCaptures gs x)
                   (fun y =>
                      if (mn =? 0) && (endIndex y =? endIndex x) then None
                      else repeatMatcher fuel' m gs (Nat.pred mn)
                             (option_map Nat.pred mx) greedy y c)).
  { apply Hm; [exact Hx|]. intros y Hle Hy. simpl in Hle.
    unfold inInput in *.
    destruct (Nat.eqb_spec mn 0) as [->|Hmn]; simpl.
    - destruct (Nat.eqb_spec (endIndex y) (endIndex x)); [reflexivity|].
      apply IH; [exact Hy | lia | lia].
    - apply IH; [exact Hy | lia | lia]. }
  destruct mx as [[|k]|]; [reflexivity | |];
    (destruct (negb (mn =? 0)); [exact Hd|];
     destruct greedy; apply orElse_ext; auto).
Qed.

(** The fuel that [compileSubpattern] gives to a quantifier is enough. *)
Lemma quantifier_fuel r mn mx greedy fuel x c :
  inInput input x ->
  S (mn + List.length input) <= fuel ->
  repeatMatcher fuel (compileSubpattern input r) (groupsOf r) mn mx greedy x c
  = compileSubpattern input (Quantified r mn mx greedy) x c.
Proof.
  intros Hx Hf. cbn [compileSubpattern].
  apply repeatMatcher_fuel; [apply compileSubpattern_local | exact Hx | |];
    unfold inInput in Hx; lia.
Qed.

Lemma firstMatch_forward r indices y :
  firstMatch input r indices = Some y ->
  exists i, In i indices /\ i <= endIndex y.
Proof.
  induction indices as [|i indices IH]; simpl; [discriminate|].
  destruct (matchAt input r i) as [y'|] eqn:E.
  - intros H. inversion H; subst. exists i. split; [now left|].
    unfold matchAt in E.
    destruct (compileSubpattern_forward r _ _ _ E) as [y0 [Hle [_ Hy0]]].
    inversion Hy0; subst. exact Hle.
  - intros H. destruct (IH H) as [j [Hj Hle]]. exists j. split; [now right|].
    exact Hle.
Qed.

(** A match does not end before [lastIndex]. *)
Lemma exec_forward r lastIndex y :
  exec input r lastIndex = Some y -> lastIndex <= endIndex y.
Proof.
  unfold exec. intros H.
  destruct (firstMatch_forward _ _ _ H) as [i [Hi Hle]].
  apply in_seq in Hi. lia.
Qed.

Lemma exec_beyond r lastIndex :
  List.length input < lastIndex -> exec input r lastIndex = None.
Proof.
  intros H. unfold exec.
  replace (S (List.length input) - lastIndex) with 0 by lia. reflexivity.
Qed.

Lemma skipn_nth_error (l : list ascii) :
  forall n c, nth_error l n = Some c -> skipn n l = c :: skipn (S n) l.
Proof.
  induction l as [|a l IH]; intros [|n] c H; simpl in *; try discriminate.
  - now inversion H.
  - now apply IH.
Qed.

Lemma occursAt_slice l :
  forall s, occursAt input s l ->
            slice input s (s + List.length l) = l.
Proof.
  unfold slice.
  induction l as [|c l IH]; intros s H.
  - now replace (s + List.length (@nil ascii) - s) with 0 by (simpl; lia).
  - assert (Hc : nth_error input s = Some c).
    { specialize (H 0). simpl in H. rewrite Nat.add_0_r in H. apply H. lia. }
    replace (s + List.length (c :: l) - s) with (S (List.length l))
      by (simpl; lia).
    rewrite (skipn_nth_error _ _ _ Hc). simpl. f_equal.
    specialize (IH (S s)).
    replace (S s + List.length l - S s) with (List.length l) in IH by lia.
    apply IH. intros j Hj. specialize (H (S j)).
    replace (S s + j) with (s + S j) by lia. apply H. simpl. lia.
Qed.

Lemma occursAt_nil s : occursAt input s [].
Proof. intros j Hj. simpl in Hj. lia. Qed.

Lemma occursAt_app s l1 l2 :
  occursAt input s l1 ->
  occursAt input (s + List.length l1) l2 ->
  occursAt input s (l1 ++ l2).
Proof.
  intros H1 H2 j Hj. rewrite length_app in Hj.
  destruct (Nat.lt_ge_cases j (List.length l1)) as [Hlt|Hge].
  - rewrite nth_error_app1 by assumption. now apply H1.
  - rewrite nth_error_app2 by assumption.
    replace (s + j) with (s + List.length l1 + (j - List.length l1)) by lia.
    apply H2. lia.
Qed.

Lemma occursAt_single s c :
  nth_error input s = Some c -> occursAt input s [c].
Proof.
  intros H j Hj. simpl in Hj. assert (j = 0) by lia. subst.
  now rewrite Nat.add_0_r.
Qed.

Lemma compile_Char cs x c z :
  compileSubpattern input (Char cs) x c = Some z ->
  exists ch, nth_error input (endIndex x) = Some ch
             /\ charSetMatches cs ch = true
             /\ c (advance x) = Some z.
Proof.
  cbn [compileSubpattern].
  destruct (nth_error input (endIndex x)) as [ch|]; [|discriminate].
  destruct (charSetMatches cs ch) eqn:E; [|discriminate].
  intros H. now exists ch.
Qed.

Lemma literal_snoc cs c :
  literal (cs ++ [c]) = Seq (literal cs) (Char (CsChar c)).
Proof.
  unfold literal, alternativeOf. now rewrite map_app, rev_app_distr.
Qed.

(** The pattern characters of a prefix match themselves. *)
Lemma literal_match cs :
  forall x k z,
    compileSubpattern input (literal cs) x k = Some z ->
    occursAt input (endIndex x) cs
    /\ exists y, endIndex y = endIndex x + List.length cs /\ k y = Some z.
Proof.
  induction cs as [|c cs IH] using rev_ind; intros x k z H.
  - split; [apply occursAt_nil|]. exists x. split; [simpl; lia | exact H].
  - rewrite literal_snoc in H. cbn [compileSubpattern] in H.
    destruct (IH _ _ _ H) as [Hcs [y [Hy Hk]]].
    change (compileSubpattern input (Char (CsChar c)) y k = Some z) in Hk.
    destruct (compile_Char _ _ _ _ Hk) as [ch [Hn [Hm Hz]]].
    simpl in Hm. apply Ascii.eqb_eq in Hm. subst ch.
    split.
    + apply occursAt_app; [exact Hcs|]. rewrite <- Hy.
      now apply occursAt_single.
    + exists (advance y). split; [|exact Hz].
      rewrite length_app. simpl. lia.
Qed.

(** One or more word characters: what [\w+] consumes. *)
Lemma wordChars_repeat fuel :
  forall mn x k z,
    mn <= 1 ->
    repeatMatcher fuel
      (compileSubpattern input (Char (CsClass ClassW false))) []
      mn None true x k = Some z ->
    exists ws y,
      (mn = 1 -> ws <> [])
      /\ forallb Chars.isWordChar ws = true
      /\ occursAt input (endIndex x) ws
      /\ endIndex y = endIndex x + List.length ws
      /\ k y = Some z.
Proof.
  induction fuel as [|fuel IH]; intros mn x k z Hmn H; [discriminate|].
  cbn [repeatMatcher] in H.
  assert (Hstep :
    compileSubpattern input (Char (CsClass ClassW false))
      (resetCaptures [] x)
      (fun y =>
         if (mn =? 0) && (endIndex y =? endIndex x) then None
         else repeatMatcher fuel
                (compileSubpattern input (Char (CsClass ClassW false))) []
                (Nat.pred mn) (option_map Nat.pred None) true y k) = Some z ->
    exists ws y,
      (mn = 1 -> ws <> [])
      /\ forallb Chars.isWordChar ws = true
      /\ occursAt input (endIndex x) ws
      /\ endIndex y = endIndex x + List.length ws
      /\ k y = Some z).
  { intros E. destruct (compile_Char _ _ _ _ E) as [ch [Hn [Hm Hd]]].
    cbv beta in Hd. cbn [option_map] in Hd.
    destruct ((mn =? 0)
              && (endIndex (advance (resetCaptures [] x)) =? endIndex x));
      [discriminate|].
    assert (Hp : Nat.pred mn <= 1) by lia.
    destruct (IH _ _ _ _ Hp Hd) as [ws [y [_ [Hall [Hocc [Hy Hk]]]]]].
    change (endIndex (advance (resetCaptures [] x))) with (S (endIndex x))
      in Hocc, Hy.
    change (endIndex (resetCaptures [] x)) with (endIndex x) in Hn.
    change (charSetMatches (CsClass ClassW false) ch)
      with (Chars.isWordChar ch) in Hm.
    exists (ch :: ws), y. repeat split.
    - discriminate.
    - simpl. now rewrite Hm.
    - apply (occursAt_app (endIndex x) [ch] ws);
        [now apply occursAt_single|].
      simpl. now replace (endIndex x + 1) with (S (endIndex x)) by lia.
    - simpl. lia.
    - exact Hk. }
  destruct (negb (mn =? 0)) eqn:Hz; [now apply Hstep|].
  apply orElse_Some in H. destruct H as [H|[_ H]]; [now apply Hstep|].
  exists [], x. repeat split.
  - intros ->. discriminate.
  - apply occursAt_nil.
  - simpl. lia.
  - exact H.
Qed.

Lemma wordChars_match x k z :
  compileSubpattern input wordChars x k = Some z ->
  exists ws y,
    ws <> []
    /\ forallb Chars.isWordChar ws = true
    /\ occursAt input (endIndex x) ws
    /\ endIndex y = endIndex x + List.length ws
    /\ k y = Some z.
Proof.
  unfold wordChars. cbn [compileSubpattern groupsOf]. intros H.
  destruct (wordChars_repeat _ _ _ _ _ (le_n 1) H)
    as [ws [y [Hne [Hall [Hocc [Hy Hk]]]]]].
  exists ws, y. repeat split; auto.
Qed.

Lemma capture_set i s e y :
  capture i (captures (setCapture i s e y)) = Some (s, e).
Proof. simpl. now rewrite Nat.eqb_refl. Qed.

(** A match of the pattern of a plain prefix: the second group holds the
    prefix followed by one or more word characters, and the match ends
    with it. *)
Lemma prefixPattern_match cs i z :
  matchAt input (prefixPattern cs) i = Some z ->
  exists ws,
    ws <> []
    /\ forallb Chars.isWordChar ws = true
    /\ captured input 2 z = Some (cs ++ ws)
    /\ i + List.length cs + List.length ws <= endIndex z.
Proof.
  unfold matchAt, prefixPattern. cbn [compileSubpattern]. intros H.
  destruct (compileSubpattern_forward boundary _ _ _ H)
    as [y1 [Hle1 [_ H1]]].
  cbn [endIndex] in Hle1.
  destruct (literal_match _ _ _ _ H1) as [Hcs [y2 [Hy2 H2]]].
  destruct (wordChars_match _ _ _ H2) as [ws [y3 [Hne [Hall [Hws [Hy3 H3]]]]]].
  inversion H3; subst z. clear H3.
  exists ws. repeat split; try assumption.
  - unfold captured. rewrite capture_set.
    assert (Hocc : occursAt input (endIndex y1) (cs ++ ws)).
    { apply occursAt_app; [exact Hcs | now rewrite <- Hy2]. }
    apply occursAt_slice in Hocc. rewrite length_app in Hocc.
    rewrite Hy3, Hy2. now rewrite <- Nat.add_assoc, Hocc.
  - simpl. lia.
Qed.

Lemma firstMatch_index r indices y :
  firstMatch input r indices = Some y ->
  exists i, In i indices /\ matchAt input r i = Some y.
Proof.
  induction indices as [|i indices IH]; simpl; [discriminate|].
  destruct (matchAt input r i) as [y'|] eqn:E.
  - intros H. exists i. split; [now left | congruence].
  - intros H. destruct (IH H) as [j [Hj Hm]]. exists j. split; [now right|].
    exact Hm.
Qed.

Lemma exec_index r lastIndex y :
  exec input r lastIndex = Some y ->
  exists i, lastIndex <= i /\ matchAt input r i = Some y.
Proof.
  unfold exec. intros H.
  destruct (firstMatch_index _ _ _ H) as [i [Hi Hm]].
  apply in_seq in Hi. exists i. split; [lia | exact Hm].
Qed.

End Input.

End MatcherFacts.

(** ** The effects *)

Module RunFacts.
Import Extension.

Lemma bind_final {A B} (m : M A) (f : A -> M B) this a :
  completion (m this) = Normal a ->
  final (bind m f this) = final (f a (final (m this))).
Proof. intros H. unfold bind. now rewrite H. Qed.

Lemma bind_trace {A B} (m : M A) (f : A -> M B) this a :
  completion (m this) = Normal a ->
  trace (bind m f this) = trace (m this) ++ trace (f a (final (m this))).
Proof. intros H. unfold bind. now rewrite H. Qed.

Lemma bind_completion {A B} (m : M A) (f : A -> M B) this a :
  completion (m this) = Normal a ->
  completion (bind m f this) = completion (f a (final (m this))).
Proof. intros H. unfold bind. now rewrite H. Qed.

(** A sequence completes normally only if its first part does. *)
Lemma bind_Normal_inv {A B} (m : M A) (f : A -> M B) this b :
  completion (bind m f this) = Normal b ->
  exists a, completion (m this) = Normal a
            /\ completion (f a (final (m this))) = Normal b.
Proof.
  unfold bind. destruct (completion (m this)) as [a| | |] eqn:E;
    simpl; try discriminate.
  intros H. now exists a.
Qed.

(** The trace of the first part is the beginning of the trace. *)
Lemma bind_trace_prefix {A B} (m : M A) (f : A -> M B) this :
  exists rest, trace (bind m f this) = trace (m this) ++ rest.
Proof.
  unfold bind. destruct (completion (m this)); simpl;
    eauto using app_nil_r, eq_sym.
Qed.

End RunFacts.

(** ** The decision to reload *)

Module ReloadFacts.
Import Host Extension.

Lemma position_neq (a b : Position) :
  negb (line a =? line b) || negb (character a =? character b) = true
  <-> a <> b.
Proof.
  destruct a as [la ca], b as [lb cb]; simpl.
  destruct (Nat.eqb_spec la lb), (Nat.eqb_spec ca cb); simpl;
    split; try congruence; intros; exfalso; subst; auto.
Qed.

(** The column computed by the code is the clamped column of the
    specification. *)
Lemma anchor_clamped (pos : Position) (w activeWord : string) :
  let char := (Z.of_nat (character pos) - Z.of_nat (String.length w)
               + Z.of_nat (String.length activeWord))%Z in
  {| line := line pos;
     character := if (0 <=? char)%Z then Z.to_nat char else 0 |}
  = recomputedAnchor pos w activeWord.
Proof.
  unfold recomputedAnchor. cbv zeta. f_equal.
  destruct (Z.leb_spec 0 (Z.of_nat (character pos)
                          - Z.of_nat (String.length w)
                          + Z.of_nat (String.length activeWord))); lia.
Qed.

Lemma length_zero_iff (s : string) : (String.length s =? 0) = true <-> s = "".
Proof. destruct s; simpl; split; congruence. Qed.

Lemma positionHasChanged_iff this w doc pos :
  positionHasChanged this w doc pos = true
  <-> rebuildConditions this w doc pos.
Proof.
  unfold positionHasChanged, rebuildConditions.
  destruct (_doc this) as [doc0|]; [|intuition].
  destruct (_pos this) as [pos0|]; [|intuition].
  destruct (Nat.eqb_spec (docId doc) (docId doc0)) as [Hid|Hid]; simpl.
  2:{ split; [intros _|reflexivity]. right; left. now exists doc0. }
  destruct (String.length (_activeWord this) =? 0) eqn:Hlen.
  { apply length_zero_iff in Hlen. intuition. }
  assert (Hne : _activeWord this <> "").
  { intros E. apply length_zero_iff in E. congruence. }
  destruct (JS.startsWith w (_activeWord this)) eqn:Hpre; simpl.
  2:{ split; [intros _|reflexivity]. right; right; left.
      rewrite <- JSFacts.startsWith_iff. congruence. }
  apply JSFacts.startsWith_iff in Hpre.
  destruct (JS.includes (_words this) w) eqn:Hin; simpl.
  2:{ split; [intros _|reflexivity]. right; right; right; left.
      now apply JSFacts.includes_false_iff. }
  apply JSFacts.includes_iff in Hin.
  change (negb (line pos =? line pos0)) with
    (negb (line {| line := line pos; character :=
        if (0 <=? Z.of_nat (character pos) - Z.of_nat (String.length w)
                  + Z.of_nat (String.length (_activeWord this)))%Z
        then Z.to_nat (Z.of_nat (character pos) - Z.of_nat (String.length w)
                  + Z.of_nat (String.length (_activeWord this)))
        else 0 |} =? line pos0)).
  match goal with
  | |- negb (line ?p =? _) || negb (?c =? _) = true <-> _ =>
      change c with (character p)
  end.
  rewrite position_neq, (anchor_clamped pos w (_activeWord this)).
  split.
  - intros H. right; right; right; right. now exists pos0.
  - intros [[H|[H|H]]|[[d [Hd Hneq]]|[H|[H|[p [Hp Hneq]]]]]];
      try discriminate; try contradiction.
    + inversion Hd; subst. contradiction.
    + now inversion Hp; subst.
Qed.

End ReloadFacts.

(** ** One invocation *)

Module CycleFacts.
Import Host Extension RunFacts.

Arguments loadWords : simpl never.
Arguments pushWordsFromText : simpl never.

Lemma run_eta {A} (r : Run A) :
  {| final := final r; trace := trace r; completion := completion r |} = r.
Proof. now destruct r. Qed.

(** A first part without trace that completes normally only passes its
    result and state on. *)
Lemma bind_pure {A B} (m : M A) (f : A -> M B) this a s :
  m this = {| final := s; trace := []; completion := Normal a |} ->
  bind m f this = f a s.
Proof. intros H. unfold bind. rewrite H. simpl. apply run_eta. Qed.

Lemma loadWords_trace_head word docList this :
  exists rest, trace (loadWords word docList this) = Call_loadWords word :: rest.
Proof.
  unfold loadWords.
  rewrite bind_trace with (a := tt) by reflexivity.
  simpl. eauto.
Qed.

Lemma loadNewSuggestions_eq w editor docList this :
  loadNewSuggestions w editor docList this
  = loadWords w docList (storedFor w editor this).
Proof.
  unfold loadNewSuggestions, updateStatusBar, storedFor.
  do 4 (erewrite bind_pure by (unfold modify; reflexivity)).
  reflexivity.
Qed.

(** "enter suggestion" with no candidate left *)
Lemma enterSuggestion_none editor this :
  _words this = [] ->
  enterSuggestion editor this
  = {| final := this; trace := []; completion := Normal tt |}.
Proof.
  intros Hw. unfold enterSuggestion, bind, shift. rewrite Hw. simpl.
  now destruct (getWordRangeAtPosition _ _).
Qed.

(** "enter suggestion" applies the head and puts it back at the end *)
Lemma enterSuggestion_apply editor this h t range :
  _words this = h :: t ->
  getWordRangeAtPosition (document editor) (selectionActive editor)
    = Some range ->
  JS.truthy h = true ->
  enterSuggestion editor this
  = {| final := with_words (t ++ [h]) this;
       trace := [Edit_delete range; Edit_insert (start range) h];
       completion := Normal tt |}.
Proof.
  intros Hw Hr Ht. unfold enterSuggestion, bind, shift.
  rewrite Hw. simpl. rewrite Hr, Ht. reflexivity.
Qed.

(** "enter suggestion" only removes the head when there is no word range
    or the head is the empty string *)
Lemma enterSuggestion_drop editor this h t :
  _words this = h :: t ->
  getWordRangeAtPosition (document editor) (selectionActive editor) = None
  \/ JS.truthy h = false ->
  enterSuggestion editor this
  = {| final := with_words t this; trace := []; completion := Normal tt |}.
Proof.
  intros Hw Hc. unfold enterSuggestion, bind, shift.
  rewrite Hw. simpl.
  destruct (getWordRangeAtPosition _ _) as [range|]; [|reflexivity].
  destruct Hc as [Hc|Hc]; [discriminate|]. now rewrite Hc.
Qed.

Lemma enterSuggestion_completes editor this :
  completion (enterSuggestion editor this) = Normal tt.
Proof.
  destruct (_words this) as [|h t] eqn:Hw.
  - now rewrite enterSuggestion_none.
  - destruct (getWordRangeAtPosition (document editor)
                (selectionActive editor)) as [range|] eqn:Hr.
    + destruct (JS.truthy h) eqn:Ht.
      * now rewrite (enterSuggestion_apply _ _ _ _ _ Hw Hr Ht).
      * now rewrite (enterSuggestion_drop editor _ _ _ Hw (or_intror Ht)).
    + now rewrite (enterSuggestion_drop editor _ _ _ Hw (or_introl Hr)).
Qed.

Lemma enterSuggestion_no_load editor this :
  existsb isScan (trace (enterSuggestion editor this)) = false.
Proof.
  destruct (_words this) as [|h t] eqn:Hw.
  - now rewrite enterSuggestion_none.
  - destruct (getWordRangeAtPosition (document editor)
                (selectionActive editor)) as [range|] eqn:Hr.
    + destruct (JS.truthy h) eqn:Ht.
      * now rewrite (enterSuggestion_apply _ _ _ _ _ Hw Hr Ht).
      * now rewrite (enterSuggestion_drop editor _ _ _ Hw (or_intror Ht)).
    + now rewrite (enterSuggestion_drop editor _ _ _ Hw (or_introl Hr)).
Qed.

(** An invocation that does not reload is "enter suggestion" alone. *)
Lemma invoke_stable this i :
  stable this i -> invoke i this = enterSuggestion (fst i) this.
Proof.
  unfold stable, invoke, updateCurrentWord, currentWord. intros Hs.
  unfold bind at 1. simpl. rewrite Hs.
  unfold bind. simpl. apply run_eta.
Qed.

(** An invocation that reloads is "load new suggestions" and then, if
    that completes, "enter suggestion". *)
Lemma invoke_reload this i :
  positionHasChanged this (currentWord i) (document (fst i))
                     (selectionActive (fst i)) = true ->
  invoke i this
  = bind (loadNewSuggestions (currentWord i) (fst i) (snd i))
         (fun _ => enterSuggestion (fst i)) this.
Proof.
  unfold invoke, updateCurrentWord, currentWord. intros Hc.
  unfold bind at 1. simpl. rewrite Hc.
  apply run_eta.
Qed.

Lemma isLoad_isScan tr : existsb isScan tr = false -> existsb isLoad tr = false.
Proof.
  induction tr as [|e tr IH]; simpl; [reflexivity|].
  destruct e; simpl; try discriminate; auto.
Qed.

(** [loadWords] is called exactly on the invocations that reload. *)
Lemma load_called_iff this i :
  existsb isLoad (trace (invoke i this))
  = positionHasChanged this (currentWord i) (document (fst i))
                       (selectionActive (fst i)).
Proof.
  destruct (positionHasChanged this (currentWord i) (document (fst i))
              (selectionActive (fst i))) eqn:Hc.
  - rewrite (invoke_reload _ _ Hc).
    destruct (bind_trace_prefix
                (loadNewSuggestions (currentWord i) (fst i) (snd i))
                (fun _ => enterSuggestion (fst i)) this) as [rest ->].
    rewrite loadNewSuggestions_eq.
    destruct (loadWords_trace_head (currentWord i) (snd i)
                (storedFor (currentWord i) (fst i) this)) as [rest' ->].
    reflexivity.
  - rewrite (invoke_stable _ _ Hc).
    apply isLoad_isScan, enterSuggestion_no_load.
Qed.

(** C1. Whatever state earlier invocations have left in the object, an
    invocation of [updateCurrentWord] calls [loadWords] if and only if
    one of the five conditions holds: no document or no position is
    stored or the stored active word is empty; the document differs from
    the stored one; the current word does not start with the stored
    active word; the current word is not in the stored candidate list;
    the recomputed anchor (same line, column minus the growth of the
    word, not below zero) differs from the stored position. *)
Theorem rebuild_iff_conditions (this : CurrentWord) (i : Invocation) :
  existsb isLoad (trace (invoke i this)) = true
  <-> rebuildConditions this (currentWord i) (document (fst i))
                        (selectionActive (fst i)).
Proof.
  rewrite load_called_iff. apply ReloadFacts.positionHasChanged_iff.
Qed.

End CycleFacts.

(** ** Repeated invocations that do not reload *)

Module RoundRobin.
Import Host Extension RunFacts CycleFacts.

Lemma with_words_same this : with_words (_words this) this = this.
Proof. now destruct this. Qed.

Lemma with_words_twice ws ws' this :
  with_words ws (with_words ws' this) = with_words ws this.
Proof. reflexivity. Qed.

Lemma rotated_step (k : nat) (h : string) (t : list string) :
  k <= List.length t ->
  rotated k (t ++ [h]) = rotated (S k) (h :: t).
Proof.
  intros Hk. unfold rotated. simpl.
  rewrite skipn_app, firstn_app.
  replace (k - List.length t) with 0 by lia. simpl.
  rewrite app_nil_r, <- app_assoc. reflexivity.
Qed.

Lemma firstn_snoc (k : nat) (h : string) (t : list string) :
  k <= List.length t -> firstn k (t ++ [h]) = firstn k t.
Proof.
  intros Hk. rewrite firstn_app.
  replace (k - List.length t) with 0 by lia. simpl. apply app_nil_r.
Qed.

Lemma rotated_all (ws : list string) : rotated (List.length ws) ws = ws.
Proof.
  unfold rotated. now rewrite skipn_all, firstn_all.
Qed.

(** One invocation that does not reload, with a word at the cursor and a
    non-empty head. *)
Lemma invoke_rotates this i h t range :
  stable this i ->
  wordRange i = Some range ->
  _words this = h :: t ->
  h <> "" ->
  invoke i this
  = {| final := with_words (t ++ [h]) this;
       trace := [Edit_delete range; Edit_insert (start range) h];
       completion := Normal tt |}.
Proof.
  intros Hs Hr Hw Hh. rewrite (invoke_stable _ _ Hs).
  apply enterSuggestion_apply; try assumption.
  now apply JSFacts.truthy_iff.
Qed.

(** One invocation that does not reload, without a word at the cursor. *)
Lemma invoke_drops this i h t :
  stable this i ->
  wordRange i = None ->
  _words this = h :: t ->
  invoke i this
  = {| final := with_words t this; trace := []; completion := Normal tt |}.
Proof.
  intros Hs Hr Hw. rewrite (invoke_stable _ _ Hs).
  apply enterSuggestion_drop with (h := h); [assumption | now left].
Qed.

Lemma invokeAll_cons i invs this r :
  invoke i this = r ->
  completion r = Normal tt ->
  invokeAll (i :: invs) this
  = {| final := final (invokeAll invs (final r));
       trace := trace r ++ trace (invokeAll invs (final r));
       completion := completion (invokeAll invs (final r)) |}.
Proof.
  intros <- Hc. simpl. unfold bind. now rewrite Hc.
Qed.

Lemma inserted_app tr tr' : inserted (tr ++ tr') = inserted tr ++ inserted tr'.
Proof.
  induction tr as [|e tr IH]; simpl; [reflexivity|].
  destruct e; simpl; now rewrite ?IH.
Qed.

Lemma replacements_snoc invs :
  forall t h, List.length invs <= List.length t ->
              replacements invs (t ++ [h]) = replacements invs t.
Proof.
  induction invs as [|j invs IH]; intros t h Hk; [reflexivity|].
  destruct t as [|c t]; [simpl in Hk; lia|].
  simpl. f_equal. apply IH. simpl in Hk. lia.
Qed.

Lemma rotation_run invs :
  forall this,
    List.length invs <= List.length (_words this) ->
    Forall (fun c => c <> "") (firstn (List.length invs) (_words this)) ->
    eachInvocation (fun s i => stable s i /\ wordRange i <> None) invs this ->
    invokeAll invs this
    = {| final := with_words (rotated (List.length invs) (_words this)) this;
         trace := replacements invs (_words this);
         completion := Normal tt |}.
Proof.
  induction invs as [|i invs IH]; intros this Hlen Hne Hall.
  - simpl. unfold ret, rotated. simpl.
    now rewrite app_nil_r, with_words_same.
  - destruct (_words this) as [|h t] eqn:Hw; [simpl in Hlen; lia|].
    simpl in Hlen, Hne.
    cbn [eachInvocation] in Hall. destruct Hall as [[Hs Hr] Hall].
    destruct (wordRange i) as [range|] eqn:Hri; [|congruence].
    inversion Hne as [|? ? Hh Hne']; subst.
    pose proof (invoke_rotates _ _ _ _ _ Hs Hri Hw Hh) as Hi.
    rewrite Hi in Hall. cbn [final] in Hall.
    assert (Hk : List.length invs <= List.length t) by lia.
    rewrite (invokeAll_cons _ _ _ _ Hi eq_refl). cbn [final trace].
    rewrite IH; cbn [_words with_words].
    + cbn [final trace completion].
      rewrite with_words_twice, rotated_step by assumption.
      cbn [replacements]. unfold replacement at 1. rewrite Hri.
      now rewrite replacements_snoc by assumption.
    + rewrite length_app. simpl. lia.
    + now rewrite firstn_snoc.
    + assumption.
Qed.

Lemma shrinking_run invs :
  forall this,
    eachInvocation
      (fun s i => stable s i /\ _words s <> [] /\ wordRange i = None)
      invs this ->
    invokeAll invs this
    = {| final := with_words (skipn (List.length invs) (_words this)) this;
         trace := [];
         completion := Normal tt |}
    /\ List.length invs <= List.length (_words this).
Proof.
  induction invs as [|i invs IH]; intros this Hall.
  - simpl. unfold ret. rewrite with_words_same. split; [reflexivity | lia].
  - cbn [eachInvocation] in Hall. destruct Hall as [[Hs [Hne Hr]] Hall].
    destruct (_words this) as [|h t] eqn:Hw; [congruence|].
    pose proof (invoke_drops _ _ _ _ Hs Hr Hw) as Hi.
    rewrite Hi in Hall. cbn [final] in Hall.
    destruct (IH _ Hall) as [Hrun Hlen]. cbn [_words with_words] in Hrun, Hlen.
    rewrite (invokeAll_cons _ _ _ _ Hi eq_refl). cbn [final trace].
    rewrite Hrun. cbn [final trace completion].
    rewrite with_words_twice. simpl. split; [reflexivity | lia].
Qed.

Lemma eachInvocation_ranges invs :
  forall this,
    eachInvocation (fun s i => stable s i /\ wordRange i <> None) invs this ->
    Forall (fun i => wordRange i <> None) invs.
Proof.
  induction invs as [|i invs IH]; intros this Hall; constructor.
  - apply Hall.
  - apply (IH (final (invoke i this))), Hall.
Qed.

Lemma inserted_replacements invs :
  forall ws,
    Forall (fun i => wordRange i <> None) invs ->
    List.length invs <= List.length ws ->
    inserted (replacements invs ws) = firstn (List.length invs) ws.
Proof.
  induction invs as [|i invs IH]; intros ws Hr Hlen; [reflexivity|].
  destruct ws as [|c ws]; [simpl in Hlen; lia|].
  inversion Hr as [|? ? Hi Hr']; subst.
  cbn [replacements]. unfold replacement.
  destruct (wordRange i); [|congruence].
  simpl. f_equal. apply IH; [assumption | simpl in Hlen; lia].
Qed.

(** The round robin.  A run of invocations that do not reload, each with
    a word range at the cursor, taking candidates from the head that are
    not the empty string: every invocation removes the head,
    applies it as the replacement text at the word range and appends it
    at the back, so [k] of them rotate the list by [k] and the texts
    applied are the first [k] candidates in order; with [k] the length of
    the list, the object is back in its first state, so the next
    replacement is the first candidate again. *)
Theorem cycle_rotates (this : CurrentWord) (invs : list Invocation) :
  List.length invs <= List.length (_words this) ->
  Forall (fun c => c <> "") (firstn (List.length invs) (_words this)) ->
  eachInvocation (fun s i => stable s i /\ wordRange i <> None) invs this ->
  let r := invokeAll invs this in
  completion r = Normal tt
  /\ trace r = replacements invs (_words this)
  /\ inserted (trace r) = firstn (List.length invs) (_words this)
  /\ _words (final r) = rotated (List.length invs) (_words this)
  /\ (List.length invs = List.length (_words this) -> final r = this).
Proof.
  intros Hlen Hne Hall r. subst r.
  rewrite (rotation_run invs this Hlen Hne Hall). cbn [final trace completion].
  repeat split.
  - apply inserted_replacements; [|assumption].
    eapply eachInvocation_ranges, Hall.
  - intros ->. now rewrite rotated_all, with_words_same.
Qed.

(** C10. A run of invocations that do not reload, each finding a
    non-empty candidate list and no word range at the cursor: every one
    removes the head and does not put it back, nothing is applied, so
    after [k] of them the first [k] candidates are gone; there are at
    most as many as the list is long, and that many leave the list
    empty. *)
Theorem stable_without_range_shrinks (this : CurrentWord)
        (invs : list Invocation) :
  eachInvocation
    (fun s i => stable s i /\ _words s <> [] /\ wordRange i = None)
    invs this ->
  let r := invokeAll invs this in
  completion r = Normal tt
  /\ trace r = []
  /\ final r = with_words (skipn (List.length invs) (_words this)) this
  /\ List.length (_words (final r))
     = List.length (_words this) - List.length invs
  /\ List.length invs <= List.length (_words this)
  /\ (List.length invs = List.length (_words this) -> _words (final r) = []).
Proof.
  intros Hall r. subst r.
  destruct (shrinking_run invs this Hall) as [-> Hlen].
  cbn [final trace completion _words with_words].
  repeat split; try assumption.
  - apply length_skipn.
  - intros ->. apply skipn_all.
Qed.

End RoundRobin.

(** ** Building the candidate list *)

Module LoadFacts.
Import Host Extension RunFacts CycleFacts.

Arguments loadWords : simpl never.
Arguments pushWordsFromText : simpl never.

(** The loop only appends to the array it is given. *)
Lemma execLoop_acc fuel re input :
  forall lastIndex words,
    execLoop fuel re input lastIndex words
    = match execLoop fuel re input lastIndex [] with
      | Done found => Done (words ++ found)
      | Forever => Forever
      | Undefined found => Undefined (words ++ found)
      end.
Proof.
  induction fuel as [|fuel IH]; intros lastIndex words; simpl.
  - now rewrite app_nil_r.
  - destruct (Matcher.exec input re lastIndex) as [y|];
      [|now rewrite app_nil_r].
    destruct (Matcher.captured input 2 y) as [m2|];
      [|now rewrite app_nil_r].
    destruct (Matcher.endIndex y =? lastIndex); [reflexivity|].
    rewrite (IH _ (words ++ _)), (IH _ [_]).
    destruct (execLoop fuel re input (Matcher.endIndex y) []);
      try reflexivity; now rewrite <- app_assoc.
Qed.

(** The fuel of the loop is enough: every pass moves [lastIndex] forward,
    and behind the end of the input [exec] finds nothing. *)
Lemma execLoop_fuel re input :
  forall fuel fuel' lastIndex words,
    S (List.length input) - lastIndex <= fuel ->
    S (List.length input) - lastIndex <= fuel' ->
    execLoop fuel re input lastIndex words
    = execLoop fuel' re input lastIndex words.
Proof.
  induction fuel as [|fuel IH]; intros fuel' lastIndex words Hf Hf'.
  - assert (Hnone : Matcher.exec input re lastIndex = None)
      by (apply MatcherFacts.exec_beyond; lia).
    destruct fuel'; simpl; [reflexivity | now rewrite Hnone].
  - destruct fuel' as [|fuel'].
    + assert (Hnone : Matcher.exec input re lastIndex = None)
        by (apply MatcherFacts.exec_beyond; lia).
      simpl. now rewrite Hnone.
    + simpl.
      destruct (Matcher.exec input re lastIndex) as [y|] eqn:E;
        [|reflexivity].
      apply MatcherFacts.exec_forward in E.
      destruct (Matcher.captured input 2 y); [|reflexivity].
      destruct (Nat.eqb_spec (Matcher.endIndex y) lastIndex); [reflexivity|].
      apply IH; lia.
Qed.

Lemma wordsOnly_bind {A B} (m : M A) (f : A -> M B) :
  wordsOnly m -> (forall a, wordsOnly (f a)) -> wordsOnly (bind m f).
Proof.
  intros Hm Hf this. unfold bind.
  destruct (completion (m this)) as [a| | |]; cbn [final]; try apply Hm.
  pose proof (Hf a (final (m this))) as Hfa.
  remember (final (f a (final (m this)))) as after eqn:E. clear E.
  rewrite Hfa, (Hm this). reflexivity.
Qed.

Lemma scansOnly_bind {A B} (m : M A) (f : A -> M B) :
  scansOnly m -> (forall a, scansOnly (f a)) -> scansOnly (bind m f).
Proof.
  intros Hm Hf this. unfold bind.
  destruct (completion (m this)) as [a| | |]; cbn [trace]; try apply Hm.
  rewrite forallb_app, Hm, Hf. reflexivity.
Qed.

Lemma pushWordsFromText_frame word text :
  wordsOnly (pushWordsFromText word text)
  /\ scansOnly (pushWordsFromText word text).
Proof.
  unfold pushWordsFromText.
  destruct (Regex.parse (pattern word)) as [regexp| |].
  - split.
    + apply wordsOnly_bind; [|intros _; apply wordsOnly_bind].
      * intros this. now destruct this.
      * intros this. now destruct this.
      * intros this0 this.
        destruct (execLoop _ _ _ _ _); now destruct this.
    + apply scansOnly_bind; [|intros _; apply scansOnly_bind].
      * now intros this.
      * now intros this.
      * intros this0 this. now destruct (execLoop _ _ _ _ _).
  - split.
    + apply wordsOnly_bind; [|intros _]; intros this; now destruct this.
    + apply scansOnly_bind; [|intros _]; now intros this.
  - split.
    + apply wordsOnly_bind; [|intros _]; intros this; now destruct this.
    + apply scansOnly_bind; [|intros _]; now intros this.
Qed.

Lemma pushWordsFromText_trace word text this :
  trace (pushWordsFromText word text this)
  = [Call_pushWordsFromText word text].
Proof.
  unfold pushWordsFromText.
  rewrite bind_trace with (a := tt) by reflexivity. cbn [emit trace final].
  destruct (Regex.parse (pattern word)) as [regexp| |]; try reflexivity.
  rewrite bind_trace with (a := this) by reflexivity. cbn [get trace final].
  now destruct (execLoop _ _ _ _ _).
Qed.

(** A scan that completes has appended the occurrences it found and
    removed the duplicates. *)
Lemma pushWordsFromText_normal word text this :
  completion (pushWordsFromText word text this) = Normal tt ->
  exists found,
    occurrences word text = Some found
    /\ _words (final (pushWordsFromText word text this))
       = JS.uniq (_words this ++ found).
Proof.
  unfold pushWordsFromText, occurrences.
  rewrite bind_completion with (a := tt) by reflexivity.
  rewrite bind_final with (a := tt) by reflexivity.
  cbn [emit final].
  destruct (Regex.parse (pattern word)) as [regexp| |];
    try discriminate.
  rewrite bind_completion with (a := this) by reflexivity.
  rewrite bind_final with (a := this) by reflexivity.
  cbn [get final].
  rewrite execLoop_acc.
  destruct (execLoop _ regexp _ 0 []) as [found| |]; try discriminate.
  intros _. now exists found.
Qed.

Lemma pushWordsFromText_completes word text this found :
  occurrences word text = Some found ->
  completion (pushWordsFromText word text this) = Normal tt.
Proof.
  unfold pushWordsFromText, occurrences.
  rewrite bind_completion with (a := tt) by reflexivity.
  cbn [emit final].
  destruct (Regex.parse (pattern word)) as [regexp| |];
    try discriminate.
  rewrite bind_completion with (a := this) by reflexivity.
  cbn [get final].
  rewrite (execLoop_acc _ _ _ 0 (_words this)).
  destruct (execLoop _ regexp _ 0 []) as [found'| |]; try discriminate.
  reflexivity.
Qed.

Lemma bind_Normal_run {A B} (m : M A) (f : A -> M B) this b :
  completion (bind m f this) = Normal b ->
  exists a,
    completion (m this) = Normal a
    /\ completion (f a (final (m this))) = Normal b
    /\ bind m f this
       = {| final := final (f a (final (m this)));
            trace := trace (m this) ++ trace (f a (final (m this)));
            completion := Normal b |}.
Proof.
  intros H. destruct (bind_Normal_inv _ _ _ _ H) as [a [Hm Hf]].
  exists a. repeat split; try assumption.
  unfold bind. rewrite Hm, Hf. reflexivity.
Qed.

Lemma forEach_frame word texts :
  wordsOnly (forEach texts (pushWordsFromText word))
  /\ scansOnly (forEach texts (pushWordsFromText word)).
Proof.
  induction texts as [|t texts [IHw IHs]]; simpl.
  - split; intros this; [now destruct this | reflexivity].
  - destruct (pushWordsFromText_frame word t) as [Hw Hs].
    split; [apply wordsOnly_bind | apply scansOnly_bind]; auto.
Qed.

Lemma occurrencesOrNone_Some word text found :
  occurrences word text = Some found -> occurrencesOrNone word text = found.
Proof. unfold occurrencesOrNone. now intros ->. Qed.

(** The scans of the document list, when all complete. *)
Lemma forEach_normal word texts :
  forall this,
    completion (forEach texts (pushWordsFromText word) this) = Normal tt ->
    JS.uniq (_words this) = _words this ->
    trace (forEach texts (pushWordsFromText word) this)
    = map (Call_pushWordsFromText word) texts
    /\ _words (final (forEach texts (pushWordsFromText word) this))
       = JS.uniq (_words this
                  ++ flat_map (occurrencesOrNone word) texts).
Proof.
  induction texts as [|t texts IH]; intros this HN Hu.
  - simpl. now rewrite app_nil_r, Hu.
  - cbn [forEach] in *.
    destruct (bind_Normal_run _ _ _ _ HN) as [[] [H1 [H2 ->]]].
    cbn [final trace].
    destruct (pushWordsFromText_normal _ _ _ H1) as [found [Hocc Hws]].
    destruct (IH _ H2) as [Htr Hfin].
    { rewrite Hws. apply JSFacts.uniq_idem. }
    rewrite Htr, Hfin, Hws, pushWordsFromText_trace.
    split; [reflexivity|].
    cbn [flat_map]. rewrite (occurrencesOrNone_Some _ _ _ Hocc).
    now rewrite JSFacts.uniq_absorb, <- app_assoc.
Qed.

Lemma loadWords_frame word docList :
  wordsOnly (loadWords word docList) /\ scansOnly (loadWords word docList).
Proof.
  unfold loadWords.
  split.
  - apply wordsOnly_bind; [intros this; now destruct this|intros _].
    apply wordsOnly_bind; [intros this; now destruct this|intros this0].
    destruct (_doc this0) as [doc|]; [|intros this; now destruct this].
    destruct (_pos this0) as [pos|]; [|intros this; now destruct this].
    repeat (apply wordsOnly_bind; [|intros _]);
      try apply pushWordsFromText_frame;
      try apply forEach_frame;
      intros this; now destruct this.
  - apply scansOnly_bind; [now intros this|intros _].
    apply scansOnly_bind; [now intros this|intros this0].
    destruct (_doc this0) as [doc|]; [|now intros this].
    destruct (_pos this0) as [pos|]; [|now intros this].
    repeat (apply scansOnly_bind; [|intros _]);
      try apply pushWordsFromText_frame;
      try apply forEach_frame;
      now intros this.
Qed.

(** [loadWords] with a document and a position stored, when it
    completes: its calls, and the list it leaves. *)
Lemma loadWords_normal word docList this doc pos :
  _doc this = Some doc ->
  _pos this = Some pos ->
  completion (loadWords word docList this) = Normal tt ->
  trace (loadWords word docList this) = scans word doc pos docList
  /\ _words (final (loadWords word docList this))
     = loadedWords word (textBefore doc pos) (textAfter doc pos)
                   (DocumentList.values docList).
Proof.
  intros Hd Hp HN. unfold loadWords in *.
  change (fun docText => pushWordsFromText word docText)
    with (pushWordsFromText word) in *.
  destruct (bind_Normal_run _ _ _ _ HN) as [[] [_ [H0 ->]]].
  cbn [emit final trace] in *. clear HN.
  destruct (bind_Normal_run _ _ _ _ H0) as [this0 [Hg [H1 ->]]].
  cbn [get final trace completion] in *. inversion Hg; subst this0.
  clear H0 Hg. rewrite Hd, Hp in *.
  destruct (bind_Normal_run _ _ _ _ H1) as [[] [_ [H2 ->]]].
  cbn [modify final trace] in *. clear H1.
  destruct (bind_Normal_run _ _ _ _ H2) as [[] [Hb [H3 ->]]].
  cbn [final trace] in *. clear H2.
  destruct (pushWordsFromText_normal _ _ _ Hb) as [before [Hob Hwb]].
  cbn [_words with_words app] in Hwb.
  destruct (bind_Normal_run _ _ _ _ H3) as [[] [_ [H4 ->]]].
  cbn [modify final trace] in *. clear H3.
  destruct (bind_Normal_run _ _ _ _ H4) as [[] [Ha [H5 ->]]].
  cbn [final trace] in *. clear H4.
  destruct (pushWordsFromText_normal _ _ _ Ha) as [after [Hoa Hwa]].
  cbn [_words with_words] in Hwa.
  destruct (bind_Normal_run _ _ _ _ H5) as [[] [Hf [H6 ->]]].
  cbn [final trace] in *. clear H5.
  destruct (forEach_normal _ _ _ Hf) as [Htr Hwf].
  { rewrite Hwa. apply JSFacts.uniq_idem. }
  destruct (bind_Normal_run _ _ _ _ H6) as [[] [_ [_ ->]]].
  cbn [modify final trace _words with_words].
  rewrite !pushWordsFromText_trace, Htr, Hwf, Hwa, Hwb.
  split.
  - unfold scans. simpl. now rewrite app_nil_r.
  - unfold loadedWords.
    rewrite (occurrencesOrNone_Some _ _ _ Hob),
            (occurrencesOrNone_Some _ _ _ Hoa).
    rewrite JSFacts.uniq_absorb, <- app_assoc.
    rewrite JSFacts.uniq_absorb, <- app_assoc. reflexivity.
Qed.

End LoadFacts.

(** ** The candidate list *)

Module Candidates.
Import Host Extension RunFacts CycleFacts LoadFacts Examples.

Lemma loadedWords_NoDup word before after others :
  NoDup (loadedWords word before after others).
Proof. apply JSFacts.uniq_NoDup. Qed.

Lemma loadedWords_fallback word before after others :
  In word (loadedWords word before after others).
Proof.
  unfold loadedWords. apply JSFacts.uniq_In.
  rewrite !in_app_iff. simpl. tauto.
Qed.

(** A [loadWords] that completes leaves a list without duplicates that
    holds the word it was called with. *)
Lemma loadWords_normal_fallback word docList this doc pos :
  _doc this = Some doc ->
  _pos this = Some pos ->
  completion (loadWords word docList this) = Normal tt ->
  In word (_words (final (loadWords word docList this)))
  /\ NoDup (_words (final (loadWords word docList this))).
Proof.
  intros Hd Hp HN.
  destruct (loadWords_normal _ _ _ _ _ Hd Hp HN) as [_ ->].
  split; [apply loadedWords_fallback | apply loadedWords_NoDup].
Qed.

(** C2. The order scenario: for the text [alpha foo1 foo2 | foo3 foo4]
    with the cursor at the bar, the prefix [foo] and no other source,
    [loadWords] completes and leaves [foo2; foo1; foo3; foo4; foo], the
    same whether or not the prefix itself stands at the cursor: the
    occurrences before the cursor ([foo1; foo2]) reversed, those behind
    the cursor in order, then the prefix.  The list of the
    specification's [buildCandidates] is the same.  Every candidate
    starts with the prefix, and every one but the prefix itself continues
    it by word characters only, at least one. *)
Theorem order_scenario :
  let pos := {| line := 0; character := 16 |} in
  let r := loadWords "foo" [] (storing orderDoc 0 16) in
  let r' := loadWords "foo" [] (storing (typedDoc "foo") 0 19) in
  textBefore orderDoc pos = "alpha foo1 foo2 "
  /\ textAfter orderDoc pos = " foo3 foo4"
  /\ occurrences "foo" "alpha foo1 foo2 " = Some ["foo1"; "foo2"]
  /\ occurrences "foo" " foo3 foo4" = Some ["foo3"; "foo4"]
  /\ completion r = Normal tt
  /\ _words (final r) = ["foo2"; "foo1"; "foo3"; "foo4"; "foo"]
  /\ completion r' = Normal tt
  /\ _words (final r') = ["foo2"; "foo1"; "foo3"; "foo4"; "foo"]
  /\ buildCandidates "foo" "alpha foo1 foo2 " " foo3 foo4" []
     = ["foo2"; "foo1"; "foo3"; "foo4"; "foo"]
  /\ Forall (fun c => JS.startsWith c "foo" = true
                      /\ (c = "foo" \/ extendsPrefix "foo" c = true))
            (_words (final r)).
Proof.
  cbv zeta. repeat split; try (vm_compute; reflexivity).
  assert (E : _words (final (loadWords "foo" [] (storing orderDoc 0 16)))
              = ["foo2"; "foo1"; "foo3"; "foo4"; "foo"])
    by (vm_compute; reflexivity).
  rewrite E.
  repeat constructor; try (left; reflexivity); right; reflexivity.
Qed.

(** C4 (the code differs). With [foo1 foo2 foo1 foo|] and the prefix
    [foo], the occurrences before the cursor are [foo1; foo2; foo1]; the
    one nearest the cursor is [foo1], and the list in the order of the
    specification starts with it.  [loadWords] removes the duplicates of
    the scan before it reverses it, so [foo1] keeps the place of its
    occurrence farthest from the cursor and the list starts with
    [foo2]. *)
Theorem nearest_occurrence_not_first :
  let pos := {| line := 0; character := 18 |} in
  let r := loadWords "foo" [] (storing repeatedDoc 0 18) in
  occurrences "foo" (textBefore repeatedDoc pos)
    = Some ["foo1"; "foo2"; "foo1"]
  /\ occurrences "foo" (textAfter repeatedDoc pos) = Some []
  /\ buildCandidates "foo" (textBefore repeatedDoc pos)
                     (textAfter repeatedDoc pos) []
     = ["foo1"; "foo2"; "foo"]
  /\ completion r = Normal tt
  /\ _words (final r) = ["foo2"; "foo1"; "foo"].
Proof. cbv zeta. repeat split; vm_compute; reflexivity. Qed.

(** C5 (the code differs). The prefix goes into the pattern as it is.
    With the prefix [(] the construction of the regular expression
    throws; so does a press of the key between a space and a
    parenthesis, where no word is found and the whole text becomes the
    prefix.  With the prefix [|] the pattern matches the empty string at
    the start of the text and the loop over the matches does not end.
    With the prefix [1.5] the dot stands for any character and the scan
    finds [1x5ab], which does not start with the prefix.  The empty prefix
    does not throw: it finds every word. *)
Theorem prefix_is_a_pattern :
  completion (pushWordsFromText "(" "f(x) f(xy)" newCurrentWord)
    = Throw SyntaxError
  /\ wordRange parenPress = None
  /\ currentWord parenPress = "a ( b"
  /\ completion (invoke parenPress newCurrentWord) = Throw SyntaxError
  /\ completion (pushWordsFromText "|" "a|b" newCurrentWord) = Diverge
  /\ completion (pushWordsFromText "1.5" "1.5 1x5ab" newCurrentWord)
     = Normal tt
  /\ _words (final (pushWordsFromText "1.5" "1.5 1x5ab" newCurrentWord))
     = ["1x5ab"]
  /\ JS.startsWith "1x5ab" "1.5" = false
  /\ completion (pushWordsFromText "" "ab cd" newCurrentWord) = Normal tt
  /\ _words (final (pushWordsFromText "" "ab cd" newCurrentWord))
     = ["ab"; "cd"].
Proof. repeat split; vm_compute; reflexivity. Qed.

(** C9 (the code differs). A press of the key between a space and a
    parenthesis makes the whole text the prefix; [loadWords] has emptied
    the list when the construction of the pattern throws, so the list it
    leaves is empty and does not hold the prefix. *)
Theorem fallback_lost_on_throw :
  let r := loadWords "a ( b" [] (storing parenDoc 0 2) in
  let r' := invoke parenPress newCurrentWord in
  completion r = Throw SyntaxError
  /\ _words (final r) = []
  /\ ~ In "a ( b" (_words (final r))
  /\ completion r' = Throw SyntaxError
  /\ _activeWord (final r') = "a ( b"
  /\ _words (final r') = [].
Proof.
  cbv zeta. repeat split; try (vm_compute; reflexivity).
  vm_compute. tauto.
Qed.

End Candidates.

(** ** Reloading *)

Module Reload.
Import Host Extension RunFacts CycleFacts LoadFacts Examples.

Lemma scan_not_edit tr : forallb isScan tr = true -> existsb isEdit tr = false.
Proof.
  induction tr as [|e tr IH]; simpl; [reflexivity|].
  destruct e; simpl; try discriminate; auto.
Qed.

Lemma enterSuggestion_wordsOnly editor : wordsOnly (enterSuggestion editor).
Proof.
  intros this.
  destruct (_words this) as [|h t] eqn:Hw.
  - rewrite (enterSuggestion_none _ _ Hw). now destruct this.
  - destruct (getWordRangeAtPosition (document editor)
                (selectionActive editor)) as [range|] eqn:Hr.
    + destruct (JS.truthy h) eqn:Ht.
      * now rewrite (enterSuggestion_apply _ _ _ _ _ Hw Hr Ht).
      * now rewrite (enterSuggestion_drop editor _ _ _ Hw (or_intror Ht)).
    + now rewrite (enterSuggestion_drop editor _ _ _ Hw (or_introl Hr)).
Qed.


(** The fields other than [_words] after an invocation that reloads,
    however it ends. *)
Lemma reload_stores this i :
  positionHasChanged this (currentWord i) (document (fst i))
                     (selectionActive (fst i)) = true ->
  final (invoke i this)
  = with_words (_words (final (invoke i this)))
               (storedFor (currentWord i) (fst i) this).
Proof.
  intros Hc. rewrite (invoke_reload _ _ Hc).
  unfold bind. rewrite loadNewSuggestions_eq.
  pose proof (proj1 (loadWords_frame (currentWord i) (snd i))
                (storedFor (currentWord i) (fst i) this)) as Hl.
  destruct (completion (loadWords _ _ _)) as [[]| | |];
    cbn [final]; try exact Hl.
  rewrite (enterSuggestion_wordsOnly (fst i) _) at 1.
  rewrite Hl at 2. reflexivity.
Qed.









End Reload.

(** ** The document list *)

Module Registry.
Import Host Extension RunFacts CycleFacts LoadFacts Examples.

(** [set] keeps the place of a key that is present and appends a new
    one. *)
Lemma set_keys (m : DocumentList.t) doc text :
  DocumentList.keys (DocumentList.set m doc text)
  = if DocumentList.has m doc then DocumentList.keys m
    else DocumentList.keys m ++ [docId doc].
Proof.
  unfold DocumentList.keys, DocumentList.has.
  induction m as [|[k v] m IH]; simpl; [reflexivity|].
  destruct (k =? docId doc) eqn:E; simpl; [reflexivity|].
  rewrite IH. now destruct (existsb _ m).
Qed.

Lemma get_values (m : DocumentList.t) doc text :
  DocumentList.get m doc = Some text -> In text (DocumentList.values m).
Proof.
  unfold DocumentList.get, DocumentList.values.
  destruct (find _ m) as [[k v]|] eqn:E; simpl; [|discriminate].
  intros H. inversion H; subst. apply find_some in E.
  destruct E as [E _]. apply (in_map snd) in E. exact E.
Qed.

(** C8.  The code scans the primary document a second time in the part
    that is to find the words of the other editors: with the primary
    document in the document list (the change listener has put it
    there), [loadWords] scans the text before the cursor, the text behind
    it, and then the entry of the primary document itself; without the
    entry that third scan is not made. *)
Lemma primary_entry_is_scanned :
  let this := storing listedDoc 0 8 in
  DocumentList.get listedList listedDoc = Some "foo1 foo foo2"
  /\ trace (loadWords "foo" listedList this)
     = [Call_loadWords "foo";
        Call_pushWordsFromText "foo" "foo1 foo";
        Call_pushWordsFromText "foo" " foo2";
        Call_pushWordsFromText "foo" "foo1 foo foo2"]
  /\ trace (loadWords "foo" (DocumentList.delete listedList listedDoc) this)
     = [Call_loadWords "foo";
        Call_pushWordsFromText "foo" "foo1 foo";
        Call_pushWordsFromText "foo" " foo2"]
  /\ ~ (forall word docList this doc pos text,
           _doc this = Some doc ->
           _pos this = Some pos ->
           DocumentList.get docList doc = Some text ->
           trace (loadWords word docList this)
           = trace (loadWords word (DocumentList.delete docList doc) this)).
Proof.
  cbv zeta. repeat (split; [vm_compute; reflexivity|]).
  intros H.
  assert (Hg : DocumentList.get listedList listedDoc = Some "foo1 foo foo2")
    by (vm_compute; reflexivity).
  specialize (H "foo" listedList (storing listedDoc 0 8) listedDoc
                {| line := 0; character := 8 |} "foo1 foo foo2"
                eq_refl eq_refl Hg).
  vm_compute in H. discriminate.
Qed.

(** What [docList.forEach] visits.  A [loadWords] that completes scans,
    after the two parts of the primary document, every entry of the
    document list in the list's order; it does not compare the key with
    the stored document.  The order is the order of registration: [set]
    keeps the place of a key that is present and puts a new key last. *)
Theorem phase3_scans_every_entry (word : string) (docList : DocumentList.t)
        (this : CurrentWord) (doc : TextDocument) (pos : Position) :
  _doc this = Some doc ->
  _pos this = Some pos ->
  completion (loadWords word docList this) = Normal tt ->
  skipn 3 (trace (loadWords word docList this))
  = map (Call_pushWordsFromText word) (DocumentList.values docList)
  /\ (forall text,
         DocumentList.get docList doc = Some text ->
         In (Call_pushWordsFromText word text)
            (skipn 3 (trace (loadWords word docList this))))
  /\ (forall d text,
         DocumentList.keys (DocumentList.set docList d text)
         = if DocumentList.has docList d then DocumentList.keys docList
           else DocumentList.keys docList ++ [docId d]).
Proof.
  intros Hd Hp HN.
  destruct (loadWords_normal _ _ _ _ _ Hd Hp HN) as [-> _].
  unfold scans. cbn [skipn].
  repeat split.
  - intros text Hg. apply in_map. eapply get_values, Hg.
  - intros d text. apply set_keys.
Qed.

(** The scenario above is such a [loadWords]. *)
Lemma phase3_scans_every_entry_witness :
  skipn 3 (trace (loadWords "foo" listedList (storing listedDoc 0 8)))
  = [Call_pushWordsFromText "foo" "foo1 foo foo2"].
Proof.
  assert (Hd : _doc (storing listedDoc 0 8) = Some listedDoc) by reflexivity.
  assert (Hp : _pos (storing listedDoc 0 8)
               = Some {| line := 0; character := 8 |}) by reflexivity.
  assert (HN : completion (loadWords "foo" listedList (storing listedDoc 0 8))
               = Normal tt) by (vm_compute; reflexivity).
  exact (proj1 (phase3_scans_every_entry "foo" listedList _ _ _ Hd Hp HN)).
Defined.

End Registry.

(** ** The round robin on examples *)

Module RoundRobinExamples.
Import Host Extension RunFacts CycleFacts RoundRobin Examples.

(** Five more presses bring the list and the replacement back. *)
Lemma cycle_rotates_witness :
  let this := final (invoke firstPress newCurrentWord) in
  inserted (trace (invokeAll laterPresses this))
  = ["foo1"; "foo3"; "foo4"; "foo"; "foo2"]
  /\ final (invokeAll laterPresses this) = this.
Proof.
  cbv zeta.
  assert (Hlen : List.length laterPresses
                 <= List.length
                      (_words (final (invoke firstPress newCurrentWord))))
    by (vm_compute; lia).
  assert (Hne : Forall (fun c => c <> "")
                  (firstn (List.length laterPresses)
                     (_words (final (invoke firstPress newCurrentWord))))).
  { vm_compute. repeat constructor; discriminate. }
  assert (Hall : eachInvocation
                   (fun s i => stable s i /\ wordRange i <> None)
                   laterPresses (final (invoke firstPress newCurrentWord))).
  { vm_compute. repeat split; discriminate. }
  destruct (cycle_rotates _ _ Hlen Hne Hall) as [_ [_ [Hi [_ Hback]]]].
  split.
  - rewrite Hi. vm_compute. reflexivity.
  - apply Hback. vm_compute. reflexivity.
Defined.

(** C3.  The code breaks the round robin where the scan has put the
    empty string among the candidates.  In a language whose words are
    runs of characters other than white space, the key is pressed behind
    the word [a|)(] of the text [b ab a|)(]: the prefix goes into the
    pattern as it is, so the pattern has the groups [(a|)] and [(\w+)],
    and the scan, which is to find the word followed by word characters,
    finds the empty string and [a]; the first candidate [a] is applied.
    The replacement is undone and the key pressed again: the invocation
    does not reload, a word range exists, the head of the list is the
    empty string; it is removed, nothing is applied and nothing is
    appended, so the list is not rotated and has lost a candidate. *)
Lemma empty_head_is_dropped :
  let this := final (invoke shellPress newCurrentWord) in
  let r := invoke shellPress this in
  reachable this
  /\ stable this shellPress
  /\ wordRange shellPress
     = Some {| start := {| line := 0; character := 5 |};
               end_ := {| line := 0; character := 9 |} |}
  /\ _words this = [""; "a|)("; "a"]
  /\ trace r = []
  /\ _words (final r) = ["a|)("; "a"]
  /\ ~ (forall this i range,
           reachable this ->
           stable this i ->
           wordRange i = Some range ->
           exists h t,
             _words this = h :: t
             /\ _words (final (invoke i this)) = t ++ [h]
             /\ inserted (trace (invoke i this)) = [h]).
Proof.
  cbv zeta.
  assert (Hreach : reachable (final (invoke shellPress newCurrentWord))).
  { apply reachable_invoke; [apply reachable_new | vm_compute; reflexivity]. }
  assert (Hstable : stable (final (invoke shellPress newCurrentWord))
                           shellPress) by (vm_compute; reflexivity).
  assert (Hrange : wordRange shellPress
                   = Some {| start := {| line := 0; character := 5 |};
                             end_ := {| line := 0; character := 9 |} |})
    by (vm_compute; reflexivity).
  split; [exact Hreach|]. split; [exact Hstable|].
  repeat (split; [vm_compute; reflexivity|]).
  intros H.
  destruct (H _ shellPress _ Hreach Hstable Hrange) as [h [t [Hw [Hfin _]]]].
  vm_compute in Hw, Hfin. inversion Hw; subst. discriminate.
Qed.

(** After the first press in a document that holds a full stop only, two
    more presses there empty the list. *)
Lemma stable_without_range_shrinks_witness :
  let this := final (invoke dotPress newCurrentWord) in
  _words this = ["world"; "."]
  /\ _words (final (invokeAll [dotPress; dotPress] this)) = [].
Proof.
  cbv zeta.
  assert (Hall : eachInvocation
                   (fun s i => stable s i /\ _words s <> []
                               /\ wordRange i = None)
                   [dotPress; dotPress]
                   (final (invoke dotPress newCurrentWord))).
  { vm_compute. repeat split; discriminate. }
  destruct (stable_without_range_shrinks _ _ Hall)
    as [_ [_ [_ [_ [_ Hempty]]]]].
  split; [vm_compute; reflexivity|].
  apply Hempty. vm_compute. reflexivity.
Defined.

End RoundRobinExamples.

(** ** Plain prefixes: the contract of the scan *)

Module PlainPrefix.
Import Regex Host Extension RunFacts CycleFacts LoadFacts.

Lemma forallb_Forall_false (f : ascii -> bool) (l : list ascii) :
  forallb f l = true ->
  (forall c, f c = true -> Chars.isSpace c = false) ->
  Forall (fun c => Chars.isSpace c = false) l.
Proof.
  intros H Hf. apply Forall_forall. intros c Hc. apply Hf.
  rewrite forallb_forall in H. now apply H.
Qed.

(** A candidate made of the prefix and word characters behind it. *)
Lemma extendsPrefix_intro (word : string) (ws : list ascii) :
  ws <> [] ->
  forallb Chars.isWordChar ws = true ->
  extendsPrefix word
    (string_of_list_ascii (list_ascii_of_string word ++ ws)) = true.
Proof.
  intros Hne Hall. unfold extendsPrefix.
  rewrite JSFacts.string_of_list_ascii_app, string_of_list_ascii_of_string.
  apply andb_true_intro. split; [apply andb_true_intro; split|].
  - apply JSFacts.startsWith_iff. now exists (string_of_list_ascii ws).
  - apply Nat.ltb_lt.
    rewrite <- (string_of_list_ascii_of_string word) at 2.
    rewrite <- JSFacts.string_of_list_ascii_app.
    rewrite JSFacts.length_string_of_list_ascii, length_app,
      JSFacts.length_list_ascii_of_string.
    destruct ws; [congruence | simpl; lia].
  - rewrite <- (string_of_list_ascii_of_string word) at 2.
    rewrite <- JSFacts.string_of_list_ascii_app,
      list_ascii_of_string_of_list_ascii.
    rewrite <- JSFacts.length_list_ascii_of_string.
    rewrite skipn_app, skipn_all, Nat.sub_diag. exact Hall.
Qed.

Lemma extendsPrefix_nonempty (word cand : string) :
  extendsPrefix word cand = true -> cand <> "".
Proof.
  unfold extendsPrefix. intros H ->.
  apply andb_prop in H. destruct H as [H _].
  apply andb_prop in H. destruct H as [_ H].
  apply Nat.ltb_lt in H. simpl in H. lia.
Qed.

(** The loop over the matches of a plain prefix ends, and every word it
    pushes is the prefix followed by word characters. *)
Lemma execLoop_plain (word : string) (input : list ascii) :
  plain word = true ->
  forall fuel lastIndex words,
  exists found,
    execLoop fuel (prefixPattern (list_ascii_of_string word)) input
             lastIndex words = Done (words ++ found)
    /\ Forall (fun c => extendsPrefix word c = true) found.
Proof.
  intros Hplain.
  induction fuel as [|fuel IH]; intros lastIndex words.
  - exists []. simpl. now rewrite app_nil_r.
  - cbn [execLoop].
    destruct (Matcher.exec input _ lastIndex) as [y|] eqn:E.
    2:{ exists []. now rewrite app_nil_r. }
    destruct (MatcherFacts.exec_index _ _ _ _ E) as [i [Hi Hm]].
    destruct (MatcherFacts.prefixPattern_match _ _ _ _ Hm)
      as [ws [Hne [Hall [Hcap Hend]]]].
    rewrite Hcap.
    assert (Hlen : 0 < List.length ws) by (destruct ws; [congruence | simpl; lia]).
    replace (Matcher.endIndex y =? lastIndex) with false
      by (symmetry; apply Nat.eqb_neq; lia).
    rewrite JSFacts.trim_id.
    2:{ apply Forall_app. split.
        - apply (forallb_Forall_false plainChar); [exact Hplain|].
          apply JSFacts.plainChar_not_space.
        - apply (forallb_Forall_false Chars.isWordChar); [exact Hall|].
          apply JSFacts.wordChar_not_space. }
    destruct (IH (Matcher.endIndex y)
                 (words ++ [string_of_list_ascii
                              (list_ascii_of_string word ++ ws)]))
      as [found [-> Hfound]].
    exists (string_of_list_ascii (list_ascii_of_string word ++ ws) :: found).
    split; [now rewrite <- app_assoc|].
    constructor; [now apply extendsPrefix_intro | exact Hfound].
Qed.

(** The scan for a plain prefix finds words that continue the prefix. *)
Lemma occurrences_plain (word text : string) :
  plain word = true ->
  exists found,
    occurrences word text = Some found
    /\ Forall (fun c => extendsPrefix word c = true) found.
Proof.
  intros Hplain. unfold occurrences.
  rewrite (ParseFacts.parse_plain _ Hplain).
  destruct (execLoop_plain word (list_ascii_of_string text) Hplain
              (S (List.length (list_ascii_of_string text))) 0 [])
    as [found [-> Hfound]].
  now exists found.
Qed.

Lemma occurrencesOrNone_plain (word text : string) :
  plain word = true ->
  Forall (fun c => extendsPrefix word c = true) (occurrencesOrNone word text).
Proof.
  intros Hplain.
  destruct (occurrences_plain word text Hplain) as [found [Hocc Hfound]].
  now rewrite (occurrencesOrNone_Some _ _ _ Hocc).
Qed.

(** For a plain prefix [pushWordsFromText] completes. *)
Lemma pushWordsFromText_plain (word text : string) this :
  plain word = true ->
  completion (pushWordsFromText word text this) = Normal tt.
Proof.
  intros Hplain.
  destruct (occurrences_plain word text Hplain) as [found [Hocc _]].
  eapply pushWordsFromText_completes, Hocc.
Qed.

Lemma forEach_plain (word : string) (texts : list string) :
  plain word = true ->
  forall this,
    completion (forEach texts (pushWordsFromText word) this) = Normal tt.
Proof.
  intros Hplain. induction texts as [|t texts IH]; intros this;
    [reflexivity|].
  cbn [forEach].
  rewrite bind_completion with (a := tt)
    by now apply pushWordsFromText_plain.
  apply IH.
Qed.

(** For a plain prefix [loadWords] completes. *)
Lemma loadWords_plain_completes word docList this :
  plain word = true ->
  completion (loadWords word docList this) = Normal tt.
Proof.
  intros Hplain. unfold loadWords.
  change (fun docText => pushWordsFromText word docText)
    with (pushWordsFromText word).
  rewrite bind_completion with (a := tt) by reflexivity.
  rewrite bind_completion with (a := this) by reflexivity.
  cbn [emit get final].
  destruct (_doc this) as [doc|]; [|reflexivity].
  destruct (_pos this) as [pos|]; [|reflexivity].
  rewrite bind_completion with (a := tt) by reflexivity.
  rewrite bind_completion with (a := tt)
    by now apply pushWordsFromText_plain.
  rewrite bind_completion with (a := tt) by reflexivity.
  rewrite bind_completion with (a := tt)
    by now apply pushWordsFromText_plain.
  rewrite bind_completion with (a := tt) by now apply forEach_plain.
  rewrite bind_completion with (a := tt) by reflexivity.
  reflexivity.
Qed.

(** The contract of the candidate list for a plain prefix: [loadWords]
    completes; the list has no duplicates and holds the prefix; every
    other candidate is the prefix followed by one or more word characters. *)
Lemma loadWords_plain word docList this doc pos :
  plain word = true ->
  _doc this = Some doc ->
  _pos this = Some pos ->
  completion (loadWords word docList this) = Normal tt
  /\ NoDup (_words (final (loadWords word docList this)))
  /\ In word (_words (final (loadWords word docList this)))
  /\ Forall (fun c => c = word \/ extendsPrefix word c = true)
            (_words (final (loadWords word docList this))).
Proof.
  intros Hplain Hd Hp.
  pose proof (loadWords_plain_completes word docList this Hplain) as HN.
  destruct (loadWords_normal _ _ _ _ _ Hd Hp HN) as [_ ->].
  split; [exact HN|].
  split; [apply Candidates.loadedWords_NoDup|].
  split; [apply Candidates.loadedWords_fallback|].
  unfold loadedWords. apply JSFacts.uniq_Forall.
  repeat (apply Forall_app; split).
  - apply Forall_rev, JSFacts.uniq_Forall.
    eapply Forall_impl; [|apply occurrencesOrNone_plain, Hplain].
    intros c Hc. now right.
  - eapply Forall_impl; [|apply occurrencesOrNone_plain, Hplain].
    intros c Hc. now right.
  - apply Forall_flat_map, Forall_forall. intros t _.
    eapply Forall_impl; [|apply occurrencesOrNone_plain, Hplain].
    intros c Hc. now right.
  - constructor; [now left | constructor].
Qed.

(** After a reload for a plain prefix that is not empty no candidate is
    the empty string, so every later press takes a candidate that can be
    applied. *)
Lemma loadWords_plain_nonempty word docList this doc pos :
  plain word = true ->
  word <> "" ->
  _doc this = Some doc ->
  _pos this = Some pos ->
  Forall (fun c => c <> "") (_words (final (loadWords word docList this))).
Proof.
  intros Hplain Hne Hd Hp.
  destruct (loadWords_plain word docList this doc pos Hplain Hd Hp)
    as [_ [_ [_ Hall]]].
  eapply Forall_impl; [|exact Hall].
  intros c [->|Hc]; [exact Hne | eapply extendsPrefix_nonempty, Hc].
Qed.

Lemma enterSuggestion_keeps (P : string -> Prop) editor this :
  Forall P (_words this) ->
  Forall P (_words (final (enterSuggestion editor this))).
Proof.
  intros H.
  destruct (_words this) as [|h t] eqn:Hw.
  - rewrite (enterSuggestion_none _ _ Hw). simpl. now rewrite Hw.
  - inversion H as [|? ? Hh Ht]; subst.
    destruct (getWordRangeAtPosition (document editor)
                (selectionActive editor)) as [range|] eqn:Hr.
    + destruct (JS.truthy h) eqn:Htr.
      * rewrite (enterSuggestion_apply _ _ _ _ _ Hw Hr Htr). simpl.
        apply Forall_app. split; [exact Ht | now constructor].
      * now rewrite (enterSuggestion_drop editor _ _ _ Hw (or_intror Htr)).
    + now rewrite (enterSuggestion_drop editor _ _ _ Hw (or_introl Hr)).
Qed.

Lemma enterSuggestion_activeWord editor this :
  _activeWord (final (enterSuggestion editor this)) = _activeWord this.
Proof. now rewrite (Reload.enterSuggestion_wordsOnly editor this). Qed.

(** A run for a plain word is followed to its end. *)
Lemma plain_followed this i :
  completion (invoke i this) = Unmodelled ->
  plain (_activeWord (final (invoke i this))) = true ->
  False.
Proof.
  destruct (positionHasChanged this (currentWord i) (document (fst i))
              (selectionActive (fst i))) eqn:Hc.
  - rewrite (invoke_reload _ _ Hc).
    unfold bind. rewrite loadNewSuggestions_eq.
    pose proof (proj1 (loadWords_frame (currentWord i) (snd i))
                  (storedFor (currentWord i) (fst i) this)) as Hl.
    pose proof (loadWords_plain_completes (currentWord i) (snd i)
                  (storedFor (currentWord i) (fst i) this)) as HN.
    set (loaded := loadWords (currentWord i) (snd i)
                     (storedFor (currentWord i) (fst i) this)) in *.
    assert (Hact : _activeWord (final loaded) = currentWord i).
    { rewrite Hl. simpl. apply JSFacts.truthy_or_empty. }
    destruct (completion loaded) as [[]| | |] eqn:E;
      cbn [final completion]; intros Hu; try discriminate Hu.
    + now rewrite enterSuggestion_completes in Hu.
    + rewrite Hact. intros Hp. specialize (HN Hp). discriminate.
  - rewrite (invoke_stable _ _ Hc), enterSuggestion_completes.
    discriminate.
Qed.

(** In every state the command can find, a plain active word that is not
    empty comes with candidates that are not empty: for such words every
    invocation that does not reload and finds a word range rotates the
    list. *)
Lemma reachable_plain_nonempty this :
  reachable this ->
  plain (_activeWord this) = true ->
  _activeWord this <> "" ->
  Forall (fun c => c <> "") (_words this).
Proof.
  induction 1 as [|this i Hreach IH Hret|this i words Hreach IH Hun];
    intros Hplain Hne.
  - constructor.
  - destruct (positionHasChanged this (currentWord i) (document (fst i))
                (selectionActive (fst i))) eqn:Hc.
    + revert Hplain Hne. rewrite (invoke_reload _ _ Hc).
      unfold bind. rewrite loadNewSuggestions_eq.
      pose proof (proj1 (loadWords_frame (currentWord i) (snd i))
                    (storedFor (currentWord i) (fst i) this)) as Hl.
      set (loaded := loadWords (currentWord i) (snd i)
                       (storedFor (currentWord i) (fst i) this)) in *.
      assert (Hact : _activeWord (final loaded) = currentWord i).
      { rewrite Hl. simpl. apply JSFacts.truthy_or_empty. }
      assert (Hloaded : plain (currentWord i) = true ->
                        currentWord i <> "" ->
                        Forall (fun c => c <> "") (_words (final loaded))).
      { intros Hp Hn.
        eapply loadWords_plain_nonempty; try eassumption; reflexivity. }
      destruct (completion loaded) as [[]| | |]; cbn [final];
        try (rewrite Hact; exact Hloaded).
      rewrite enterSuggestion_activeWord, Hact. intros Hp Hn.
      apply enterSuggestion_keeps. now apply Hloaded.
    + revert Hplain Hne. rewrite (invoke_stable _ _ Hc).
      rewrite enterSuggestion_activeWord. intros Hp Hn.
      apply enterSuggestion_keeps. now apply IH.
  - exfalso. exact (plain_followed this i Hun Hplain).
Qed.

Lemma stable_activeWord this i :
  stable this i -> _activeWord this <> "".
Proof.
  unfold stable, positionHasChanged. intros H E.
  destruct (_doc this); [|discriminate].
  destruct (_pos this); [|discriminate].
  rewrite E in H. simpl in H. rewrite orb_true_r in H. discriminate.
Qed.

Lemma stable_words this i :
  stable this i -> exists h t, _words this = h :: t.
Proof.
  intros H.
  assert (Hin : In (currentWord i) (_words this)).
  { apply JSFacts.includes_iff.
    unfold stable, positionHasChanged in H.
    destruct (_doc this); [|discriminate].
    destruct (_pos this); [|discriminate].
    destruct (negb _ || _); [discriminate|].
    destruct (negb (JS.startsWith _ _)); [discriminate|].
    destruct (JS.includes (_words this) (currentWord i)); [reflexivity|].
    discriminate. }
  destruct (_words this) as [|h t]; [contradiction|]. eauto.
Qed.

(** With a plain active word, an invocation that does not reload and
    finds a word range rotates the list by one. *)
Lemma stable_plain_rotates this i range :
  reachable this ->
  plain (_activeWord this) = true ->
  stable this i ->
  wordRange i = Some range ->
  exists h t,
    _words this = h :: t
    /\ invoke i this
       = {| final := with_words (t ++ [h]) this;
            trace := [Edit_delete range; Edit_insert (start range) h];
            completion := Normal tt |}.
Proof.
  intros Hreach Hplain Hs Hr.
  destruct (stable_words _ _ Hs) as [h [t Hw]].
  exists h, t. split; [exact Hw|].
  apply RoundRobin.invoke_rotates; try assumption.
  pose proof (reachable_plain_nonempty _ Hreach Hplain
                (stable_activeWord _ _ Hs)) as Hall.
  rewrite Hw in Hall. now inversion Hall.
Qed.

End PlainPrefix.

(** ** The document list under the notifications of the host *)

Module Listeners.
Import Host Extension Activation RunFacts CycleFacts LoadFacts.

Lemma get_set (m : DocumentList.t) d text d' :
  DocumentList.get (DocumentList.set m d text) d'
  = if docId d =? docId d' then Some text else DocumentList.get m d'.
Proof.
  unfold DocumentList.get.
  induction m as [|[k v] m IH]; simpl.
  - rewrite (Nat.eqb_sym (docId d)). now destruct (docId d' =? docId d).
  - destruct (Nat.eqb_spec k (docId d)) as [->|Hk]; simpl.
    + rewrite (Nat.eqb_sym (docId d)). now destruct (docId d' =? docId d).
    + destruct (Nat.eqb_spec k (docId d')) as [->|Hk'].
      * destruct (Nat.eqb_spec (docId d) (docId d')); [congruence|reflexivity].
      * exact IH.
Qed.

Lemma get_delete (m : DocumentList.t) d d' :
  DocumentList.get (DocumentList.delete m d) d'
  = if docId d =? docId d' then None else DocumentList.get m d'.
Proof.
  unfold DocumentList.get, DocumentList.delete.
  induction m as [|[k v] m IH]; simpl.
  - now destruct (docId d =? docId d').
  - destruct (Nat.eqb_spec k (docId d)) as [->|Hk]; simpl.
    + rewrite IH. now destruct (Nat.eqb_spec (docId d) (docId d')).
    + destruct (Nat.eqb_spec k (docId d')) as [->|Hk'].
      * destruct (Nat.eqb_spec (docId d) (docId d')); [congruence|reflexivity].
      * exact IH.
Qed.

Lemma has_get (m : DocumentList.t) d :
  DocumentList.has m d = false -> DocumentList.get m d = None.
Proof.
  unfold DocumentList.has, DocumentList.get.
  induction m as [|[k v] m IH]; simpl; [reflexivity|].
  destruct (k =? docId d); simpl; [discriminate | exact IH].
Qed.

Lemma notify_get docList n d :
  DocumentList.get (notify docList n) d
  = told n (docId d) (DocumentList.get docList d).
Proof.
  destruct n as [d0|d0|d0]; simpl.
  - apply get_set.
  - unfold onDidCloseTextDocument.
    destruct (DocumentList.has docList d0) eqn:Hh; [apply get_delete|].
    destruct (Nat.eqb_spec (docId d0) (docId d)) as [E|_]; [|reflexivity].
    unfold DocumentList.get in *. rewrite <- E.
    apply (has_get docList d0 Hh).
  - apply get_set.
Qed.

Lemma notifyAll_get (ns : list Notification) :
  forall docList d,
    DocumentList.get (notifyAll ns docList) d
    = latestText ns (docId d) (DocumentList.get docList d).
Proof.
  unfold notifyAll, latestText.
  induction ns as [|n ns IH]; intros docList d; [reflexivity|].
  simpl. rewrite IH. now rewrite notify_get.
Qed.

(** X1. The listeners keep, for every document, the text of its latest
    opening or change, and nothing once it is closed: after any sequence of
    notifications the lookup of a document gives what the notifications say
    last about it (opening twice or changing before opening both set the
    text; closing a document that is not registered changes nothing). *)
Theorem registry_lookup (ns : list Notification) (docList : DocumentList.t)
        (d : TextDocument) :
  DocumentList.get (notifyAll ns docList) d
  = latestText ns (docId d) (DocumentList.get docList d).
Proof. apply notifyAll_get. Qed.

Lemma delete_keys (m : DocumentList.t) d :
  DocumentList.keys (DocumentList.delete m d)
  = filter (fun k => negb (k =? docId d)) (DocumentList.keys m).
Proof.
  unfold DocumentList.keys, DocumentList.delete.
  induction m as [|[k v] m IH]; simpl; [reflexivity|].
  destruct (k =? docId d); simpl; now rewrite IH.
Qed.

Lemma has_keys (m : DocumentList.t) d :
  DocumentList.has m d = true <-> In (docId d) (DocumentList.keys m).
Proof.
  unfold DocumentList.has, DocumentList.keys.
  rewrite existsb_exists, in_map_iff. split.
  - intros [[k v] [Hin Hk]]. simpl in Hk. apply Nat.eqb_eq in Hk.
    now exists (k, v).
  - intros [[k v] [Hk Hin]]. simpl in Hk. exists (k, v).
    split; [exact Hin | now apply Nat.eqb_eq].
Qed.

Lemma filter_same_keys (m : DocumentList.t) d :
  DocumentList.has m d = false ->
  filter (fun k => negb (k =? docId d)) (DocumentList.keys m)
  = DocumentList.keys m.
Proof.
  unfold DocumentList.has, DocumentList.keys.
  induction m as [|[k v] m IH]; simpl; [reflexivity|].
  destruct (k =? docId d); simpl; [discriminate|].
  intros H. now rewrite IH.
Qed.

Lemma notify_keys (docList : DocumentList.t) (n : Notification) :
  DocumentList.keys (notify docList n)
  = match n with
    | DidOpen d | DidChange d =>
        if DocumentList.has docList d then DocumentList.keys docList
        else DocumentList.keys docList ++ [docId d]
    | DidClose d =>
        filter (fun k => negb (k =? docId d)) (DocumentList.keys docList)
    end.
Proof.
  destruct n as [d|d|d]; simpl.
  - apply Registry.set_keys.
  - unfold onDidCloseTextDocument.
    destruct (DocumentList.has docList d) eqn:Hh; [apply delete_keys|].
    symmetry. now apply filter_same_keys.
  - apply Registry.set_keys.
Qed.

Lemma notify_NoDup (docList : DocumentList.t) (n : Notification) :
  NoDup (DocumentList.keys docList) ->
  NoDup (DocumentList.keys (notify docList n)).
Proof.
  intros Hnd. rewrite notify_keys.
  assert (Hset : forall d,
             NoDup (if DocumentList.has docList d then DocumentList.keys docList
                    else DocumentList.keys docList ++ [docId d])).
  { intros d. destruct (DocumentList.has docList d) eqn:Hh; [exact Hnd|].
    apply NoDup_app; [exact Hnd | repeat constructor; auto |].
    intros k Hk [<-|[]].
    apply has_keys in Hk. congruence. }
  destruct n as [d|d|d]; [apply Hset | | apply Hset].
  now apply NoDup_filter.
Qed.

Lemma notifyAll_NoDup (ns : list Notification) :
  forall docList,
    NoDup (DocumentList.keys docList) ->
    NoDup (DocumentList.keys (notifyAll ns docList)).
Proof.
  unfold notifyAll.
  induction ns as [|n ns IH]; intros docList Hnd; [exact Hnd|].
  simpl. apply IH. now apply notify_NoDup.
Qed.

(** X2. The order of the document list is the order of first
    registration: an opening or change of a registered document leaves the
    keys as they are, a new document goes last, a closing removes that key
    only and keeps the others in order; and no key ever occurs twice. *)
Theorem registry_keys (docList : DocumentList.t) (n : Notification) :
  DocumentList.keys (notify docList n)
  = match n with
    | DidOpen d | DidChange d =>
        if DocumentList.has docList d then DocumentList.keys docList
        else DocumentList.keys docList ++ [docId d]
    | DidClose d =>
        filter (fun k => negb (k =? docId d)) (DocumentList.keys docList)
    end
  /\ (NoDup (DocumentList.keys docList) ->
      NoDup (DocumentList.keys (notify docList n)))
  /\ (forall ns, NoDup (DocumentList.keys (notifyAll ns []))).
Proof.
  split; [apply notify_keys|]. split; [apply notify_NoDup|].
  intros ns. apply notifyAll_NoDup. constructor.
Qed.

(** With a duplicate-free list every value is the text of its key. *)
Lemma values_get (m : DocumentList.t) (text : string) :
  NoDup (DocumentList.keys m) ->
  (In text (DocumentList.values m)
   <-> exists d, DocumentList.get m d = Some text).
Proof.
  unfold DocumentList.keys, DocumentList.values, DocumentList.get.
  induction m as [|[k v] m IH]; simpl; intros Hnd.
  - split; [contradiction | intros [d H]; discriminate].
  - inversion Hnd as [|? ? Hk Hnd']; subst. specialize (IH Hnd').
    split.
    + intros [<-|Hin].
      * exists (plainText k ""). simpl. now rewrite Nat.eqb_refl.
      * apply IH in Hin. destruct Hin as [d Hd]. exists d.
        destruct (Nat.eqb_spec k (docId d)) as [->|_]; [|exact Hd].
        exfalso. apply Hk.
        destruct (find _ m) as [[k' v']|] eqn:E; [|discriminate].
        apply find_some in E. destruct E as [Hin Heq].
        simpl in Heq. apply Nat.eqb_eq in Heq. subst k'.
        apply (in_map fst) in Hin. exact Hin.
    + intros [d Hd].
      destruct (k =? docId d); simpl in Hd.
      * left. congruence.
      * right. apply IH. now exists d.
Qed.

(** X3. When [loadWords] completes, the texts it scans after the two
    parts of the primary document are exactly the latest texts of the
    documents that the notifications have left registered: a changed
    document is scanned with its new text, a closed one not at all. *)
Theorem phase3_scans_latest_texts (ns : list Notification) (word : string)
        (this : CurrentWord) (doc : TextDocument) (pos : Position) :
  _doc this = Some doc ->
  _pos this = Some pos ->
  completion (loadWords word (notifyAll ns []) this) = Normal tt ->
  forall text,
    In (Call_pushWordsFromText word text)
       (skipn 3 (trace (loadWords word (notifyAll ns []) this)))
    <-> exists d, latestText ns (docId d) None = Some text.
Proof.
  intros Hd Hp HN text.
  destruct (loadWords_normal _ _ _ _ _ Hd Hp HN) as [-> _].
  unfold scans. cbn [skipn].
  rewrite in_map_iff.
  assert (Hv : In text (DocumentList.values (notifyAll ns []))
               <-> exists d, latestText ns (docId d) None = Some text).
  { rewrite values_get by (apply notifyAll_NoDup; constructor).
    split; intros [d H]; exists d.
    - now rewrite notifyAll_get in H.
    - now rewrite notifyAll_get. }
  rewrite <- Hv. split.
  - intros [t [E Hin]]. now inversion E; subst.
  - intros Hin. now exists text.
Qed.

End Listeners.

(** ** More on the scan and on the candidate list *)

Module Scanning.
Import Regex Host Extension RunFacts CycleFacts LoadFacts.

Lemma uniqFrom_fresh (l : list string) :
  forall seen,
    NoDup l -> (forall x, In x l -> ~ In x seen) -> JS.uniqFrom seen l = l.
Proof.
  induction l as [|x l IH]; intros seen Hnd Hfresh; [reflexivity|].
  inversion Hnd as [|? ? Hx Hnd']; subst. simpl.
  replace (JS.includes seen x) with false.
  - f_equal. apply IH; [exact Hnd'|].
    intros y Hy [<-|Hs]; [contradiction|].
    apply (Hfresh y); [now right | exact Hs].
  - symmetry. apply JSFacts.includes_false_iff. apply Hfresh. now left.
Qed.

Lemma uniq_NoDup_id (l : list string) : NoDup l -> JS.uniq l = l.
Proof. intros H. apply uniqFrom_fresh; [exact H | intros x _ []]. Qed.

(** X4. A scan, however it ends, makes the one call recorded in the
    trace and changes no field but [_words]; when it completes, the list
    has no duplicates and has lost no candidate, and if it had no
    duplicates before, the old list is the beginning of the new one and
    what follows it is new. *)
Theorem scan_keeps_candidates (word text : string) (this : CurrentWord) :
  let r := pushWordsFromText word text this in
  trace r = [Call_pushWordsFromText word text]
  /\ final r = with_words (_words (final r)) this
  /\ (completion r = Normal tt ->
      NoDup (_words (final r))
      /\ (forall x, In x (_words this) -> In x (_words (final r)))
      /\ (NoDup (_words this) ->
          exists added,
            _words (final r) = _words this ++ added
            /\ forall x, In x added -> ~ In x (_words this))).
Proof.
  cbv zeta.
  split; [apply pushWordsFromText_trace|].
  split; [apply (proj1 (pushWordsFromText_frame word text))|].
  intros HN.
  destruct (pushWordsFromText_normal _ _ _ HN) as [found [_ ->]].
  split; [apply JSFacts.uniq_NoDup|].
  split.
  - intros x Hx. apply JSFacts.uniq_In, in_or_app. now left.
  - intros Hnd. unfold JS.uniq. rewrite JSFacts.uniqFrom_app.
    fold (JS.uniq (_words this)). rewrite (uniq_NoDup_id _ Hnd).
    eexists. split; [reflexivity|].
    intros x Hx. apply JSFacts.uniqFrom_In in Hx.
    destruct Hx as [_ Hx]. intros Hin. apply Hx, in_or_app. now left.
Qed.

(** X5. For a prefix without pattern operators and white space the scan
    always completes, and every word it finds is the prefix followed by
    one or more word characters. *)
Theorem plain_scan_sound (word text : string) (this : CurrentWord) :
  plain word = true ->
  completion (pushWordsFromText word text this) = Normal tt
  /\ exists found,
       occurrences word text = Some found
       /\ Forall (fun c => extendsPrefix word c = true) found
       /\ _words (final (pushWordsFromText word text this))
          = JS.uniq (_words this ++ found).
Proof.
  intros Hplain.
  pose proof (PlainPrefix.pushWordsFromText_plain word text this Hplain) as HN.
  split; [exact HN|].
  destruct (PlainPrefix.occurrences_plain word text Hplain)
    as [found [Hocc Hall]].
  destruct (pushWordsFromText_normal _ _ _ HN) as [found' [Hocc' Hw]].
  exists found. repeat split; try assumption. congruence.
Qed.

Lemma scansOnly_no_edit tr : forallb isScan tr = true -> inserted tr = [].
Proof.
  induction tr as [|e tr IH]; simpl; [reflexivity|].
  destruct e; simpl; try discriminate; auto.
Qed.

(** X6. [loadWords], however it ends, changes no field but [_words] and
    calls nothing but itself and the scans: it applies no edit.  With no
    document or no position stored it returns at once and changes
    nothing. *)
Theorem loadWords_changes_words_only (word : string)
        (docList : DocumentList.t) (this : CurrentWord) :
  let r := loadWords word docList this in
  final r = with_words (_words (final r)) this
  /\ forallb isScan (trace r) = true
  /\ existsb isEdit (trace r) = false
  /\ (_doc this = None \/ _pos this = None ->
      r = {| final := this; trace := [Call_loadWords word];
             completion := Normal tt |}).
Proof.
  cbv zeta.
  destruct (loadWords_frame word docList) as [Hw Hs].
  split; [apply Hw|]. split; [apply Hs|].
  split; [apply Reload.scan_not_edit, Hs|].
  intros Hnone. unfold loadWords, bind. simpl.
  destruct (_doc this) as [doc|]; [|reflexivity].
  destruct (_pos this) as [pos|]; [|reflexivity].
  destruct Hnone; discriminate.
Qed.

(** X7. What [loadWords] builds when it completes: the occurrences before
    the cursor without their duplicates and then reversed, the occurrences
    behind the cursor, those of every text of the document list in its
    order, the word itself, and of all that the first occurrence of each.
    The list has no duplicates and holds the word. *)
Theorem loadWords_builds (word : string) (docList : DocumentList.t)
        (this : CurrentWord) (doc : TextDocument) (pos : Position) :
  _doc this = Some doc ->
  _pos this = Some pos ->
  completion (loadWords word docList this) = Normal tt ->
  _words (final (loadWords word docList this))
  = JS.uniq (rev (JS.uniq (occurrencesOrNone word (textBefore doc pos)))
             ++ occurrencesOrNone word (textAfter doc pos)
             ++ flat_map (occurrencesOrNone word) (DocumentList.values docList)
             ++ [word])
  /\ NoDup (_words (final (loadWords word docList this)))
  /\ In word (_words (final (loadWords word docList this))).
Proof.
  intros Hd Hp HN.
  destruct (loadWords_normal _ _ _ _ _ Hd Hp HN) as [_ ->].
  split; [reflexivity|].
  split; [apply Candidates.loadedWords_NoDup
         | apply Candidates.loadedWords_fallback].
Qed.

Lemma extendsPrefix_longer (word cand : string) :
  extendsPrefix word cand = true -> cand <> word.
Proof.
  unfold extendsPrefix. intros H ->.
  apply andb_prop in H. destruct H as [H _].
  apply andb_prop in H. destruct H as [_ H].
  apply Nat.ltb_lt in H. lia.
Qed.

(** For a plain prefix the list ends with the prefix. *)
Lemma loadedWords_plain_last word before after others :
  plain word = true ->
  exists found,
    loadedWords word before after others = found ++ [word]
    /\ Forall (fun c => extendsPrefix word c = true) found
    /\ NoDup found.
Proof.
  intros Hplain. unfold loadedWords.
  set (all := rev (JS.uniq (occurrencesOrNone word before))
              ++ occurrencesOrNone word after
              ++ flat_map (occurrencesOrNone word) others).
  assert (Hall : Forall (fun c => extendsPrefix word c = true) all).
  { unfold all. repeat (apply Forall_app; split).
    - apply Forall_rev, JSFacts.uniq_Forall.
      now apply PlainPrefix.occurrencesOrNone_plain.
    - now apply PlainPrefix.occurrencesOrNone_plain.
    - apply Forall_flat_map, Forall_forall. intros t _.
      now apply PlainPrefix.occurrencesOrNone_plain. }
  replace (rev (JS.uniq (occurrencesOrNone word before))
           ++ occurrencesOrNone word after
           ++ flat_map (occurrencesOrNone word) others ++ [word])
    with (all ++ [word]) by (unfold all; now rewrite <- !app_assoc).
  exists (JS.uniq all). split; [|split].
  - unfold JS.uniq at 1. rewrite JSFacts.uniqFrom_app. f_equal.
    simpl. replace (JS.includes (all ++ []) word) with false; [reflexivity|].
    symmetry. apply JSFacts.includes_false_iff. rewrite app_nil_r.
    intros Hin. rewrite Forall_forall in Hall.
    now apply (extendsPrefix_longer word word (Hall _ Hin)).
  - now apply JSFacts.uniq_Forall.
  - apply JSFacts.uniq_NoDup.
Qed.

(** X8. For a prefix without pattern operators and white space
    [loadWords] always completes, and the suggestions end with the prefix
    itself: the list is a duplicate-free list of words that each continue
    the prefix by one or more word characters, followed by the prefix. *)
Theorem plain_prefix_last (word : string) (docList : DocumentList.t)
        (this : CurrentWord) (doc : TextDocument) (pos : Position) :
  plain word = true ->
  _doc this = Some doc ->
  _pos this = Some pos ->
  completion (loadWords word docList this) = Normal tt
  /\ exists found,
       _words (final (loadWords word docList this)) = found ++ [word]
       /\ Forall (fun c => extendsPrefix word c = true) found
       /\ NoDup found.
Proof.
  intros Hplain Hd Hp.
  pose proof (PlainPrefix.loadWords_plain_completes word docList this Hplain)
    as HN.
  split; [exact HN|].
  destruct (loadWords_normal _ _ _ _ _ Hd Hp HN) as [_ ->].
  now apply loadedWords_plain_last.
Qed.

End Scanning.

(** ** More on an invocation *)

Module Pressing.
Import Regex Host Extension RunFacts CycleFacts LoadFacts.




Lemma filter_isEdit_scans tr :
  forallb isScan tr = true -> filter isEdit tr = [].
Proof.
  induction tr as [|e tr IH]; simpl; [reflexivity|].
  destruct e; simpl; try discriminate; auto.
Qed.

Lemma inserted_filter tr : inserted (filter isEdit tr) = inserted tr.
Proof.
  induction tr as [|e tr IH]; simpl; [reflexivity|].
  destruct e; simpl; now rewrite ?IH.
Qed.

(** The edits of "enter suggestion". *)
Lemma enterSuggestion_edits editor this :
  (trace (enterSuggestion editor this) = []
   /\ (_words (final (enterSuggestion editor this)) = tl (_words this)))
  \/ exists range c t,
       getWordRangeAtPosition (document editor) (selectionActive editor)
       = Some range
       /\ c <> ""
       /\ _words this = c :: t
       /\ trace (enterSuggestion editor this)
          = [Edit_delete range; Edit_insert (start range) c]
       /\ _words (final (enterSuggestion editor this)) = t ++ [c].
Proof.
  destruct (_words this) as [|h t] eqn:Hw.
  - left. rewrite (enterSuggestion_none _ _ Hw). simpl. now rewrite Hw.
  - destruct (getWordRangeAtPosition (document editor)
                (selectionActive editor)) as [range|] eqn:Hr.
    + destruct (JS.truthy h) eqn:Ht.
      * right. exists range, h, t.
        rewrite (enterSuggestion_apply _ _ _ _ _ Hw Hr Ht).
        repeat split. now apply JSFacts.truthy_iff.
      * left. now rewrite (enterSuggestion_drop editor _ _ _ Hw (or_intror Ht)).
    + left. now rewrite (enterSuggestion_drop editor _ _ _ Hw (or_introl Hr)).
Qed.

Lemma invoke_edits this i :
  filter isEdit (trace (invoke i this)) = []
  \/ exists range c l,
       wordRange i = Some range
       /\ c <> ""
       /\ filter isEdit (trace (invoke i this))
          = [Edit_delete range; Edit_insert (start range) c]
       /\ completion (invoke i this) = Normal tt
       /\ _words (final (invoke i this)) = l ++ [c].
Proof.
  destruct (positionHasChanged this (currentWord i) (document (fst i))
              (selectionActive (fst i))) eqn:Hc.
  - rewrite (invoke_reload _ _ Hc). unfold bind.
    rewrite loadNewSuggestions_eq.
    pose proof (proj2 (loadWords_frame (currentWord i) (snd i))
                  (storedFor (currentWord i) (fst i) this)) as Hs.
    destruct (completion (loadWords _ _ _)) as [[]| | |]; cbn [trace final completion];
      try (left; now apply filter_isEdit_scans).
    rewrite filter_app, (filter_isEdit_scans _ Hs). cbn [app].
    destruct (enterSuggestion_edits (fst i)
                (final (loadWords (currentWord i) (snd i)
                          (storedFor (currentWord i) (fst i) this))))
      as [[-> _]|[range [c [t [Hr [Hne [_ [-> ->]]]]]]]].
    + now left.
    + right. exists range, c, t. repeat split; try assumption.
      apply enterSuggestion_completes.
  - rewrite (invoke_stable _ _ Hc).
    destruct (enterSuggestion_edits (fst i) this)
      as [[-> _]|[range [c [t [Hr [Hne [_ [-> ->]]]]]]]].
    + now left.
    + right. exists range, c, t. repeat split; try assumption.
      apply enterSuggestion_completes.
Qed.

(** X10. An invocation, however it ends, applies at most one
    replacement: either it calls the edit handle not at all, or it deletes
    the word range at the cursor and inserts one candidate at the start of
    that range; that candidate is not the empty string and is then the
    last of the list. *)
Theorem one_replacement (this : CurrentWord) (i : Invocation) :
  let r := invoke i this in
  (filter isEdit (trace r) = [] /\ inserted (trace r) = [])
  \/ exists range c l,
       wordRange i = Some range
       /\ c <> ""
       /\ filter isEdit (trace r)
          = [Edit_delete range; Edit_insert (start range) c]
       /\ inserted (trace r) = [c]
       /\ completion r = Normal tt
       /\ _words (final r) = l ++ [c].
Proof.
  cbv zeta.
  destruct (invoke_edits this i)
    as [H|[range [c [l [Hr [Hne [Hf [HN Hw]]]]]]]].
  - left. split; [exact H|]. now rewrite <- inserted_filter, H.
  - right. exists range, c, l. repeat split; try assumption.
    now rewrite <- inserted_filter, Hf.
Qed.

(** X11. The fields other than [_words] after an invocation, however it
    ends: one that reloads has stored the current word, the document and
    the cursor and shows the word in the status bar; one that does not
    reload has left them all as they were. *)
Theorem fields_after_press (this : CurrentWord) (i : Invocation) :
  final (invoke i this)
  = with_words (_words (final (invoke i this)))
      (if positionHasChanged this (currentWord i) (document (fst i))
                             (selectionActive (fst i))
       then storedFor (currentWord i) (fst i) this
       else this).
Proof.
  destruct (positionHasChanged this (currentWord i) (document (fst i))
              (selectionActive (fst i))) eqn:Hc.
  - now apply Reload.reload_stores.
  - rewrite (invoke_stable _ _ Hc).
    apply Reload.enterSuggestion_wordsOnly.
Qed.

Lemma length_sub_prefix (c a : string) :
  JS.startsWith c a = true -> String.length a <= String.length c.
Proof.
  intros H. apply JSFacts.startsWith_iff in H. destruct H as [rest ->].
  rewrite <- !JSFacts.length_list_ascii_of_string,
    ParseFacts.list_ascii_of_string_app, length_app. lia.
Qed.

(** X12. The cycle goes on: when an invocation has applied the candidate
    [c], the stored active word is not empty and [c] starts with it, the next
    invocation in the same document, with [c] as the word at the cursor
    and the cursor moved by the difference of the lengths, does not
    reload. *)
Theorem next_press_cycles (this : CurrentWord) (i i' : Invocation)
        (c : string) :
  inserted (trace (invoke i this)) = [c] ->
  _activeWord (final (invoke i this)) <> "" ->
  JS.startsWith c (_activeWord (final (invoke i this))) = true ->
  currentWord i' = c ->
  (exists d p,
      _doc (final (invoke i this)) = Some d
      /\ _pos (final (invoke i this)) = Some p
      /\ docId (document (fst i')) = docId d
      /\ selectionActive (fst i')
         = {| line := line p;
              character :=
                character p
                + (String.length c
                   - String.length (_activeWord (final (invoke i this)))) |}) ->
  stable (final (invoke i this)) i'.
Proof.
  intros Hins Hact Hpre Hcur [d [p [Hd [Hp [Hid Hsel]]]]].
  assert (Hin : In c (_words (final (invoke i this)))).
  { destruct (invoke_edits this i)
      as [H|[range [c' [l [_ [_ [Hf [_ Hw]]]]]]]].
    - rewrite <- inserted_filter, H in Hins. discriminate.
    - rewrite <- inserted_filter, Hf in Hins. simpl in Hins.
      inversion Hins; subst. rewrite Hw. apply in_or_app. right. now left. }
  pose proof (length_sub_prefix _ _ Hpre) as Hlen.
  unfold stable, positionHasChanged. rewrite Hd, Hp, Hcur, Hid, Hsel.
  rewrite Nat.eqb_refl. cbn [negb orb line character].
  destruct (String.length (_activeWord (final (invoke i this))) =? 0) eqn:Hz.
  { apply ReloadFacts.length_zero_iff in Hz. contradiction. }
  rewrite Hpre. cbn [negb].
  apply JSFacts.includes_iff in Hin. rewrite Hin. cbn [negb].
  rewrite Nat.eqb_refl. cbn [negb orb].
  destruct (Z.leb_spec 0
              (Z.of_nat (character p
                         + (String.length c
                            - String.length
                                (_activeWord (final (invoke i this)))))
               - Z.of_nat (String.length c)
               + Z.of_nat (String.length
                             (_activeWord (final (invoke i this))))))
    as [Hge|Hlt]; [|lia].
  apply negb_false_iff, Nat.eqb_eq. lia.
Qed.

End Pressing.

(** ** A prefix that is not a pattern *)

Module Failing.
Import Regex Host Extension RunFacts CycleFacts LoadFacts.

Lemma bind_Throw_inv {A B} (m : M A) (f : A -> M B) this e :
  completion (bind m f this) = Throw e ->
  completion (m this) = Throw e
  \/ exists a, completion (m this) = Normal a
               /\ completion (f a (final (m this))) = Throw e.
Proof.
  unfold bind. destruct (completion (m this)) as [a| | |] eqn:E;
    simpl; intros H; try discriminate.
  - right. exists a. now split.
  - left. now inversion H.
Qed.

Lemma bind_Throw {A B} (m : M A) (f : A -> M B) this e :
  completion (m this) = Throw e ->
  bind m f this
  = {| final := final (m this); trace := trace (m this);
       completion := Throw e |}.
Proof. intros H. unfold bind. now rewrite H. Qed.

Lemma pushWordsFromText_syntax word text this :
  completion (pushWordsFromText word text this) = Throw SyntaxError
  <-> Regex.parse (pattern word) = Regex.SyntaxError.
Proof.
  unfold pushWordsFromText.
  rewrite bind_completion with (a := tt) by reflexivity.
  cbn [emit final].
  destruct (Regex.parse (pattern word)) as [regexp| |].
  - rewrite bind_completion with (a := this) by reflexivity.
    cbn [get final].
    destruct (execLoop _ regexp _ 0 (_words this)); cbn;
      split; discriminate.
  - cbn. split; reflexivity.
  - cbn. split; discriminate.
Qed.

Lemma pushWordsFromText_throws word text this :
  Regex.parse (pattern word) = Regex.SyntaxError ->
  pushWordsFromText word text this
  = {| final := this; trace := [Call_pushWordsFromText word text];
       completion := Throw SyntaxError |}.
Proof.
  intros H. unfold pushWordsFromText. rewrite H. reflexivity.
Qed.

Lemma forEach_no_syntax word texts :
  Regex.parse (pattern word) <> Regex.SyntaxError ->
  forall this,
    completion (forEach texts (pushWordsFromText word) this)
    <> Throw SyntaxError.
Proof.
  intros Hp. induction texts as [|t texts IH]; intros this H.
  - discriminate.
  - cbn [forEach] in H. apply bind_Throw_inv in H.
    destruct H as [H|[[] [_ H]]].
    + now apply pushWordsFromText_syntax in H.
    + now apply IH in H.
Qed.

Lemma loadWords_syntax word docList this doc pos :
  _doc this = Some doc ->
  _pos this = Some pos ->
  completion (loadWords word docList this) = Throw SyntaxError ->
  Regex.parse (pattern word) = Regex.SyntaxError.
Proof.
  intros Hd Hp H.
  destruct (Regex.parse (pattern word)) as [regexp| |] eqn:Hparse;
    [exfalso|reflexivity|exfalso].
  all: assert (Hne : Regex.parse (pattern word) <> Regex.SyntaxError)
    by (rewrite Hparse; discriminate).
  all: unfold loadWords in H;
    change (fun docText => pushWordsFromText word docText)
      with (pushWordsFromText word) in H.
  all: apply bind_Throw_inv in H; destruct H as [H|[[] [_ H]]];
    [discriminate|].
  all: apply bind_Throw_inv in H; destruct H as [H|[this0 [Heq H]]];
    [discriminate|].
  all: cbn [emit get final completion] in Heq, H;
    injection Heq as <-; rewrite Hd, Hp in H.
  all: apply bind_Throw_inv in H; destruct H as [H|[[] [_ H]]];
    [discriminate|].
  all: apply bind_Throw_inv in H; destruct H as [H|[[] [_ H]]];
    [now apply pushWordsFromText_syntax in H|].
  all: apply bind_Throw_inv in H; destruct H as [H|[[] [_ H]]];
    [discriminate|].
  all: apply bind_Throw_inv in H; destruct H as [H|[[] [_ H]]];
    [now apply pushWordsFromText_syntax in H|].
  all: apply bind_Throw_inv in H; destruct H as [H|[[] [_ H]]];
    [now apply forEach_no_syntax in H|].
  all: apply bind_Throw_inv in H; destruct H as [H|[[] [_ H]]];
    discriminate.
Qed.

Lemma loadWords_throws word docList this doc pos :
  _doc this = Some doc ->
  _pos this = Some pos ->
  Regex.parse (pattern word) = Regex.SyntaxError ->
  loadWords word docList this
  = {| final := with_words [] this;
       trace := [Call_loadWords word;
                 Call_pushWordsFromText word (textBefore doc pos)];
       completion := Throw SyntaxError |}.
Proof.
  intros Hd Hp H. unfold loadWords.
  unfold bind at 1. cbn [emit completion final trace].
  erewrite bind_pure by (unfold get; reflexivity).
  rewrite Hd, Hp.
  erewrite bind_pure by (unfold modify; reflexivity).
  rewrite (bind_Throw _ _ _ SyntaxError)
    by now rewrite (pushWordsFromText_throws _ _ _ H).
  now rewrite (pushWordsFromText_throws _ _ _ H).
Qed.

Lemma empty_list_reloads this w doc pos :
  _words this = [] -> positionHasChanged this w doc pos = true.
Proof.
  intros Hw. unfold positionHasChanged. rewrite Hw.
  destruct (_doc this); [|reflexivity].
  destruct (_pos this); [|reflexivity].
  destruct (negb _ || _); [reflexivity|].
  destruct (negb (JS.startsWith _ _)); reflexivity.
Qed.

Lemma invoke_syntax this i :
  completion (invoke i this) = Throw SyntaxError ->
  positionHasChanged this (currentWord i) (document (fst i))
                     (selectionActive (fst i)) = true
  /\ Regex.parse (pattern (currentWord i)) = Regex.SyntaxError.
Proof.
  intros H.
  destruct (positionHasChanged this (currentWord i) (document (fst i))
              (selectionActive (fst i))) eqn:Hc.
  - split; [reflexivity|].
    rewrite (invoke_reload _ _ Hc) in H.
    apply bind_Throw_inv in H. destruct H as [H|[[] [_ H]]].
    + rewrite loadNewSuggestions_eq in H.
      now apply (loadWords_syntax _ _ _ (document (fst i))
                   (selectionActive (fst i))) in H.
    + now rewrite enterSuggestion_completes in H.
  - rewrite (invoke_stable _ _ Hc), enterSuggestion_completes in H.
    discriminate.
Qed.

Lemma reload_throws this i :
  positionHasChanged this (currentWord i) (document (fst i))
                     (selectionActive (fst i)) = true ->
  Regex.parse (pattern (currentWord i)) = Regex.SyntaxError ->
  invoke i this
  = {| final := with_words [] (storedFor (currentWord i) (fst i) this);
       trace := [Call_loadWords (currentWord i);
                 Call_pushWordsFromText (currentWord i)
                   (textBefore (document (fst i)) (selectionActive (fst i)))];
       completion := Throw SyntaxError |}.
Proof.
  intros Hc Hp. rewrite (invoke_reload _ _ Hc).
  unfold bind. rewrite loadNewSuggestions_eq.
  now rewrite (loadWords_throws (currentWord i) (snd i)
                 (storedFor (currentWord i) (fst i) this)
                 (document (fst i)) (selectionActive (fst i))
                 eq_refl eq_refl Hp).
Qed.

(** X13. An invocation that ends with the SyntaxError of [new RegExp]
    was a reload that stopped in its first scan: the current word, the
    document and the cursor are stored, the list is empty and the edit
    handle was not called.  Every later invocation reloads, and one with
    the same word at the cursor ends with the SyntaxError again. *)
Theorem syntax_error_retries (this : CurrentWord) (i : Invocation) :
  completion (invoke i this) = Throw SyntaxError ->
  let after := final (invoke i this) in
  after = with_words [] (storedFor (currentWord i) (fst i) this)
  /\ trace (invoke i this)
     = [Call_loadWords (currentWord i);
        Call_pushWordsFromText (currentWord i)
          (textBefore (document (fst i)) (selectionActive (fst i)))]
  /\ (forall i', stable after i' -> False)
  /\ (forall i', currentWord i' = currentWord i ->
                 completion (invoke i' after) = Throw SyntaxError).
Proof.
  intros H. cbv zeta.
  destruct (invoke_syntax _ _ H) as [Hc Hp].
  rewrite (reload_throws _ _ Hc Hp). cbn [final trace].
  split; [reflexivity|]. split; [reflexivity|]. split.
  - intros i' Hs. unfold stable in Hs.
    rewrite empty_list_reloads in Hs by reflexivity. discriminate.
  - intros i' Hw.
    rewrite reload_throws; [reflexivity| |now rewrite Hw].
    now apply empty_list_reloads.
Qed.

Lemma NoDup_rotate {A} (h : A) (t : list A) :
  NoDup (h :: t) -> NoDup (t ++ [h]).
Proof.
  intros H. inversion H as [|? ? Hn Ht]; subst.
  apply NoDup_app; [assumption|repeat constructor; intros []|].
  intros x Hx [<-|[]]. contradiction.
Qed.

Lemma enterSuggestion_NoDup editor this :
  NoDup (_words this) ->
  NoDup (_words (final (enterSuggestion editor this))).
Proof.
  intros Hn.
  destruct (Pressing.enterSuggestion_edits editor this)
    as [[_ ->]|[range [c [t [_ [_ [Hw [_ ->]]]]]]]].
  - destruct (_words this) as [|h t]; [constructor|].
    now inversion Hn.
  - rewrite Hw in Hn. now apply NoDup_rotate.
Qed.

(** X14. The candidates stay distinct: an invocation started on a list
    without duplicates that completes, or ends with the SyntaxError of
    [new RegExp], leaves a list without duplicates; after a reload this
    holds whatever the list was before. *)
Theorem candidates_stay_distinct (this : CurrentWord) (i : Invocation) :
  (completion (invoke i this) = Normal tt
   \/ completion (invoke i this) = Throw SyntaxError) ->
  (stable this i -> NoDup (_words this)) ->
  NoDup (_words (final (invoke i this))).
Proof.
  intros Hcomp Hn.
  destruct Hcomp as [HN|HS].
  - destruct (positionHasChanged this (currentWord i) (document (fst i))
                (selectionActive (fst i))) eqn:Hc.
    + rewrite (invoke_reload _ _ Hc) in *.
      destruct (bind_Normal_run _ _ _ _ HN) as [[] [Hl [_ ->]]].
      cbn [final]. apply enterSuggestion_NoDup.
      rewrite loadNewSuggestions_eq in *.
      destruct (loadWords_normal (currentWord i) (snd i)
                  (storedFor (currentWord i) (fst i) this)
                  (document (fst i)) (selectionActive (fst i))
                  eq_refl eq_refl Hl) as [_ ->].
      apply JSFacts.uniq_NoDup.
    + rewrite (invoke_stable _ _ Hc).
      apply enterSuggestion_NoDup. now apply Hn.
  - destruct (invoke_syntax _ _ HS) as [Hc Hp].
    rewrite (reload_throws _ _ Hc Hp). cbn. constructor.
Qed.

End Failing.

(** ** A whole cycle *)

Module Cycle.
Import Regex Host Extension RunFacts CycleFacts LoadFacts.

Lemma Forall_firstn {A} (P : A -> Prop) (k : nat) (l : list A) :
  Forall P l -> Forall P (firstn k l).
Proof.
  intros H. revert k.
  induction H as [|x l Hx Hl IH]; intros [|k]; simpl; constructor; auto.
Qed.

(** An invocation that reloads for a plain prefix, with a word range at
    the cursor. *)
Lemma reload_plain this i range :
  positionHasChanged this (currentWord i) (document (fst i))
                     (selectionActive (fst i)) = true ->
  plain (currentWord i) = true ->
  currentWord i <> "" ->
  wordRange i = Some range ->
  exists h t,
    loadedWords (currentWord i)
                (textBefore (document (fst i)) (selectionActive (fst i)))
                (textAfter (document (fst i)) (selectionActive (fst i)))
                (DocumentList.values (snd i)) = h :: t
    /\ Forall (fun c => c <> "") (h :: t)
    /\ invoke i this
       = {| final := with_words (t ++ [h])
                       (storedFor (currentWord i) (fst i) this);
            trace := scans (currentWord i) (document (fst i))
                       (selectionActive (fst i)) (snd i)
                     ++ [Edit_delete range; Edit_insert (start range) h];
            completion := Normal tt |}.
Proof.
  intros Hc Hplain Hne Hr.
  set (w := currentWord i) in *.
  set (stored := storedFor w (fst i) this).
  pose proof (PlainPrefix.loadWords_plain_completes w (snd i) stored Hplain)
    as HN.
  destruct (loadWords_normal w (snd i) stored (document (fst i))
              (selectionActive (fst i)) eq_refl eq_refl HN) as [Htr Hws].
  pose proof (PlainPrefix.loadWords_plain_nonempty w (snd i) stored
                (document (fst i)) (selectionActive (fst i))
                Hplain Hne eq_refl eq_refl) as Hall.
  pose proof (proj1 (loadWords_frame w (snd i)) stored) as Hfr.
  rewrite Hws in Hall.
  destruct (loadedWords w _ _ _) as [|h t] eqn:Hl.
  { exfalso.
    pose proof (Candidates.loadedWords_fallback w
                  (textBefore (document (fst i)) (selectionActive (fst i)))
                  (textAfter (document (fst i)) (selectionActive (fst i)))
                  (DocumentList.values (snd i))) as Hin.
    rewrite Hl in Hin. contradiction. }
  exists h, t. split; [reflexivity|]. split; [exact Hall|].
  rewrite (invoke_reload _ _ Hc). unfold bind.
  rewrite loadNewSuggestions_eq. fold w stored. rewrite HN.
  assert (Hh : JS.truthy h = true).
  { apply JSFacts.truthy_iff. now inversion Hall. }
  rewrite (enterSuggestion_apply (fst i) _ h t range Hws Hr Hh).
  cbn [final trace completion]. rewrite Htr, Hfr, Hws.
  reflexivity.
Qed.

(** X15. A whole cycle for a plain prefix.  An invocation that reloads
    for a non-empty prefix without pattern characters, followed by
    invocations that do not reload, each with a word range at the cursor,
    no more in all than the list is long: all of them complete, the texts
    applied are the first candidates of the list that [loadWords] builds,
    in order, and the list is that one rotated.  When they are as many as
    the list is long, the last text applied is the prefix that was typed,
    all the others extend it, and the list is again as [loadWords] built
    it. *)
Theorem cycle_restores_typed_word (this : CurrentWord) (i : Invocation)
        (invs : list Invocation) :
  let w := currentWord i in
  let loaded :=
    loadedWords w (textBefore (document (fst i)) (selectionActive (fst i)))
                (textAfter (document (fst i)) (selectionActive (fst i)))
                (DocumentList.values (snd i)) in
  let r := invokeAll (i :: invs) this in
  positionHasChanged this w (document (fst i)) (selectionActive (fst i))
    = true ->
  plain w = true ->
  w <> "" ->
  wordRange i <> None ->
  eachInvocation (fun s i' => stable s i' /\ wordRange i' <> None)
                 invs (final (invoke i this)) ->
  S (List.length invs) <= List.length loaded ->
  completion r = Normal tt
  /\ inserted (trace r) = firstn (S (List.length invs)) loaded
  /\ _words (final r) = rotated (S (List.length invs)) loaded
  /\ (S (List.length invs) = List.length loaded ->
      _words (final r) = loaded
      /\ exists found,
           inserted (trace r) = found ++ [w]
           /\ Forall (fun c => extendsPrefix w c = true) found).
Proof.
  intros w loaded r Hc Hplain Hne Hr Hall Hlen.
  destruct (wordRange i) as [range|] eqn:Hri; [clear Hr|congruence].
  destruct (reload_plain this i range Hc Hplain Hne Hri)
    as [h [t [Hl [Hnon Hi]]]].
  fold w in Hl, Hi. fold loaded in Hl.
  rewrite Hl in Hlen. simpl in Hlen.
  assert (Hk : List.length invs <= List.length t) by lia.
  rewrite Hi in Hall. cbn [final] in Hall.
  assert (Hrun : r
    = {| final := with_words (rotated (S (List.length invs)) loaded)
                    (storedFor w (fst i) this);
         trace := scans w (document (fst i)) (selectionActive (fst i)) (snd i)
                  ++ [Edit_delete range; Edit_insert (start range) h]
                  ++ replacements invs t;
         completion := Normal tt |}).
  { unfold r. rewrite (RoundRobin.invokeAll_cons _ _ _ _ Hi eq_refl).
    cbn [final trace].
    rewrite (RoundRobin.rotation_run invs).
    - cbn [final trace completion _words with_words].
      rewrite RoundRobin.with_words_twice,
        (RoundRobin.rotated_step _ _ _ Hk),
        (RoundRobin.replacements_snoc _ _ _ Hk), Hl, <- app_assoc.
      reflexivity.
    - cbn [_words with_words]. rewrite length_app. simpl. lia.
    - cbn [_words with_words]. rewrite (RoundRobin.firstn_snoc _ _ _ Hk).
      inversion Hnon as [|? ? _ Ht]; subst.
      now apply Forall_firstn.
    - exact Hall. }
  assert (Hins : inserted (trace r) = firstn (S (List.length invs)) loaded).
  { rewrite Hrun. cbn [trace].
    rewrite !RoundRobin.inserted_app.
    assert (Hsc : inserted (scans w (document (fst i))
                              (selectionActive (fst i)) (snd i)) = []).
    { apply Scanning.scansOnly_no_edit. unfold scans. simpl.
      apply forallb_forall. intros e He. apply in_map_iff in He.
      now destruct He as [x [<- _]]. }
    rewrite Hsc, Hl. simpl. f_equal.
    apply RoundRobin.inserted_replacements; [|exact Hk].
    eapply RoundRobin.eachInvocation_ranges, Hall. }
  split; [now rewrite Hrun|]. split; [exact Hins|].
  split; [now rewrite Hrun|].
  intros Hfull. split.
  - rewrite Hrun. cbn [final _words with_words].
    rewrite Hfull. apply RoundRobin.rotated_all.
  - rewrite Hins, Hfull, firstn_all.
    destruct (Scanning.loadedWords_plain_last w
                (textBefore (document (fst i)) (selectionActive (fst i)))
                (textAfter (document (fst i)) (selectionActive (fst i)))
                (DocumentList.values (snd i)) Hplain)
      as [found [Hf [Hext _]]].
    exists found. split; [exact Hf|exact Hext].
Qed.

End Cycle.

(** ** The scan as a tokenizer *)

Module TokenFacts.
Import Regex Matcher Tokens.

Lemma takeWord_app cs t :
  forallb Chars.isWordChar cs = true ->
  takeWord (cs ++ t) = cs ++ takeWord t.
Proof.
  induction cs as [|c cs IH]; simpl; [reflexivity|].
  intros H. apply andb_prop in H. destruct H as [Hc Hcs].
  now rewrite Hc, IH.
Qed.

Lemma takeWord_word s : forallb Chars.isWordChar (takeWord s) = true.
Proof.
  induction s as [|c s IH]; simpl; [reflexivity|].
  destruct (Chars.isWordChar c) eqn:E; simpl; [now rewrite E|reflexivity].
Qed.

Lemma takeWord_prefix s : s = takeWord s ++ skipn (List.length (takeWord s)) s.
Proof.
  induction s as [|c s IH]; simpl; [reflexivity|].
  destruct (Chars.isWordChar c); simpl; [now rewrite <- IH|reflexivity].
Qed.

Lemma takeWord_max s : takeWord (skipn (List.length (takeWord s)) s) = [].
Proof.
  induction s as [|c s IH]; simpl; [reflexivity|].
  destruct (Chars.isWordChar c) eqn:E; simpl; [exact IH|now rewrite E].
Qed.

Lemma takeWord_length s : List.length (takeWord s) <= List.length s.
Proof.
  induction s as [|c s IH]; simpl; [lia|].
  destruct (Chars.isWordChar c); simpl; lia.
Qed.

Lemma wordRunsFrom_word r :
  forall cur t,
    forallb Chars.isWordChar r = true ->
    wordRunsFrom cur (r ++ t) = wordRunsFrom (rev r ++ cur) t.
Proof.
  induction r as [|c r IH]; intros cur t H; [reflexivity|].
  simpl in H. apply andb_prop in H. destruct H as [Hc Hr].
  simpl. rewrite Hc, IH by assumption. now rewrite <- app_assoc.
Qed.

Lemma wordRunsFrom_stop cur t :
  takeWord t = [] -> wordRunsFrom cur t = flush cur (wordRuns t).
Proof.
  destruct t as [|c t]; simpl; [reflexivity|].
  destruct (Chars.isWordChar c) eqn:E; [discriminate|].
  intros _. unfold wordRuns. simpl. now rewrite E.
Qed.

(** A text that begins with a word: the word, then the words of the
    rest. *)
Lemma wordRuns_run s :
  takeWord s <> [] ->
  wordRuns s
  = takeWord s :: wordRuns (skipn (List.length (takeWord s)) s).
Proof.
  intros Hne. unfold wordRuns at 1.
  rewrite (takeWord_prefix s) at 1.
  rewrite wordRunsFrom_word by apply takeWord_word.
  rewrite wordRunsFrom_stop by apply takeWord_max.
  rewrite app_nil_r. unfold flush.
  destruct (rev (takeWord s)) as [|c r] eqn:E.
  - apply (f_equal (@rev ascii)) in E. rewrite rev_involutive in E.
    contradiction.
  - now rewrite <- E, rev_involutive.
Qed.

Lemma wordRuns_skip c s :
  Chars.isWordChar c = false -> wordRuns (c :: s) = wordRuns s.
Proof. intros H. unfold wordRuns. simpl. now rewrite H. Qed.

Lemma wordRuns_word s : Forall (fun r => forallb Chars.isWordChar r = true /\ r <> []) (wordRuns s).
Proof.
  remember (List.length s) as n eqn:Hn.
  revert s Hn. induction n as [n IH] using lt_wf_ind. intros s Hn.
  destruct s as [|c s]; [constructor|].
  destruct (Chars.isWordChar c) eqn:E.
  - assert (Hne : takeWord (c :: s) <> []) by (simpl; now rewrite E).
    rewrite (wordRuns_run _ Hne). constructor.
    + split; [apply takeWord_word|exact Hne].
    + eapply IH; [|reflexivity]. subst n.
      rewrite length_skipn. simpl. rewrite E. simpl. lia.
  - rewrite (wordRuns_skip _ _ E). eapply IH; [|reflexivity]. subst n. simpl. lia.
Qed.

Lemma prefixChars_iff cs r :
  prefixChars cs r = true <-> exists ws, r = cs ++ ws.
Proof.
  revert r. induction cs as [|c cs IH]; intros r.
  - simpl. split; [intros _; now exists r|reflexivity].
  - destruct r as [|b r]; simpl.
    + split; [discriminate|intros [ws H]; discriminate].
    + rewrite andb_true_iff, IH, Ascii.eqb_eq. split.
      * intros [-> [ws ->]]. now exists ws.
      * intros [ws H]. inversion H; subst. split; [reflexivity|now exists ws].
Qed.

Lemma extendsChars_iff cs r :
  extendsChars cs r = true <-> exists ws, ws <> [] /\ r = cs ++ ws.
Proof.
  unfold extendsChars. rewrite andb_true_iff, prefixChars_iff, Nat.ltb_lt.
  split.
  - intros [[ws ->] Hlen]. exists ws. split; [|reflexivity].
    intros ->. rewrite app_nil_r in Hlen. lia.
  - intros [ws [Hne ->]]. split; [now exists ws|].
    rewrite length_app. destruct ws; [contradiction|simpl; lia].
Qed.

Section Input.
Variable input : list ascii.

Lemma isWordAt_run p : isWordAt input p = true <-> runAt input p <> [].
Proof.
  unfold isWordAt, runAt.
  destruct (nth_error input p) as [ch|] eqn:E.
  - rewrite (MatcherFacts.skipn_nth_error _ _ _ E). simpl.
    destruct (Chars.isWordChar ch); split; congruence.
  - apply nth_error_None in E. rewrite skipn_all2 by exact E. simpl.
    split; congruence.
Qed.

Lemma isWordAt_false p : isWordAt input p = false <-> runAt input p = [].
Proof.
  destruct (isWordAt input p) eqn:E.
  - apply isWordAt_run in E. split; [discriminate|contradiction].
  - split; [intros _|reflexivity].
    destruct (runAt input p) eqn:R; [reflexivity|].
    assert (H : isWordAt input p = true) by (apply isWordAt_run; congruence).
    congruence.
Qed.

Lemma runAt_step p ch :
  nth_error input p = Some ch ->
  Chars.isWordChar ch = true ->
  runAt input p = ch :: runAt input (S p).
Proof.
  intros E W. unfold runAt.
  rewrite (MatcherFacts.skipn_nth_error _ _ _ E). simpl. now rewrite W.
Qed.

Lemma runAt_end p :
  isWordAt input (p + List.length (runAt input p)) = false.
Proof.
  apply isWordAt_false. unfold runAt.
  rewrite Nat.add_comm, <- skipn_skipn. apply takeWord_max.
Qed.

Lemma runAt_length p : p + List.length (runAt input p) <= Nat.max p (List.length input).
Proof.
  unfold runAt.
  pose proof (takeWord_length (skipn p input)) as H.
  rewrite length_skipn in H. lia.
Qed.

(** The run at [p] is what stands in the input from [p] on. *)
Lemma runAt_slice p :
  slice input p (p + List.length (runAt input p)) = runAt input p.
Proof.
  unfold slice, runAt.
  replace (p + List.length (takeWord (skipn p input)) - p)
    with (List.length (takeWord (skipn p input))) by lia.
  rewrite (takeWord_prefix (skipn p input)) at 2.
  rewrite firstn_app, firstn_all, Nat.sub_diag. simpl. apply app_nil_r.
Qed.

(** The words from [p] on, when a word begins there. *)
Lemma wordRuns_at p :
  runAt input p <> [] ->
  wordRuns (skipn p input)
  = runAt input p
    :: wordRuns (skipn (p + List.length (runAt input p)) input).
Proof.
  intros H. unfold runAt in *.
  rewrite (wordRuns_run _ H), skipn_skipn.
  now rewrite (Nat.add_comm p).
Qed.

(** No word begins between [l] and [p]. *)
Lemma wordRuns_gap p :
  forall l,
    l <= p ->
    (forall j, l <= j < p -> isWordAt input j = false) ->
    p <= List.length input ->
    wordRuns (skipn l input) = wordRuns (skipn p input).
Proof.
  intros l Hle Hgap Hp.
  remember (p - l) as n eqn:Hn. revert l Hle Hgap Hn.
  induction n as [|n IH]; intros l Hle Hgap Hn.
  - now replace l with p by lia.
  - assert (Hl : l < List.length input) by lia.
    destruct (nth_error input l) as [ch|] eqn:E;
      [|apply nth_error_None in E; lia].
    assert (Hw : isWordAt input l = false) by (apply Hgap; lia).
    unfold isWordAt in Hw. rewrite E in Hw.
    rewrite (MatcherFacts.skipn_nth_error _ _ _ E), (wordRuns_skip _ _ Hw).
    apply IH; [lia| |lia].
    intros j Hj. apply Hgap. lia.
Qed.

(** *** The parts of the pattern *)

Lemma resetCaptures_nil x : resetCaptures [] x = x.
Proof.
  destruct x as [e caps]. unfold resetCaptures. simpl. f_equal.
  induction caps as [|c caps IH]; simpl; [reflexivity | now rewrite IH].
Qed.

Lemma orElse_hit z alt : z <> None -> orElse z alt = z.
Proof. now destruct z. Qed.

(** The characters of the prefix, when they stand at the state. *)
Lemma literal_some cs :
  forall x k,
    occursAt input (endIndex x) cs ->
    compileSubpattern input (literal cs) x k
    = k {| endIndex := endIndex x + List.length cs;
           captures := captures x |}.
Proof.
  induction cs as [|c cs IH] using rev_ind; intros x k Hocc.
  - simpl. rewrite Nat.add_0_r. now destruct x.
  - rewrite MatcherFacts.literal_snoc. cbn [compileSubpattern].
    rewrite IH.
    + cbn [endIndex captures].
      assert (Hc : nth_error input (endIndex x + List.length cs) = Some c).
      { rewrite (Hocc (List.length cs)) by (rewrite length_app; simpl; lia).
        now rewrite nth_error_app2, Nat.sub_diag by lia. }
      rewrite Hc. simpl. rewrite Ascii.eqb_refl.
      unfold advance. cbn [endIndex captures].
      rewrite length_app. simpl. do 2 f_equal. lia.
    + intros j Hj. rewrite (Hocc j) by (rewrite length_app; lia).
      now rewrite nth_error_app1.
Qed.

(** A run that begins with the prefix. *)
Lemma runAt_occurs p cs ws :
  runAt input p = cs ++ ws -> occursAt input p cs.
Proof.
  intros H j Hj. rewrite <- nth_error_skipn.
  rewrite (takeWord_prefix (skipn p input)).
  fold (runAt input p). rewrite H, <- app_assoc.
  now rewrite nth_error_app1.
Qed.

Lemma runAt_app cs :
  forall p,
    forallb Chars.isWordChar cs = true ->
    occursAt input p cs ->
    runAt input p = cs ++ runAt input (p + List.length cs).
Proof.
  induction cs as [|c cs IH]; intros p Hw Hocc.
  - simpl. now rewrite Nat.add_0_r.
  - simpl in Hw. apply andb_prop in Hw. destruct Hw as [Hc Hcs].
    assert (E : nth_error input p = Some c).
    { specialize (Hocc 0). simpl in Hocc. rewrite Nat.add_0_r in Hocc.
      apply Hocc. lia. }
    rewrite (runAt_step _ _ E Hc), (IH (S p) Hcs).
    + simpl. do 3 f_equal. lia.
    + intros j Hj. specialize (Hocc (S j)). simpl in Hocc.
      rewrite <- Hocc by lia. f_equal. lia.
Qed.

(** [\w+] and [\w*] take the whole run when what follows cannot fail. *)
Lemma wordChars_greedy fuel :
  forall x mn k,
    (forall y, k y <> None) ->
    List.length (runAt input (endIndex x)) < fuel ->
    mn <= 1 ->
    repeatMatcher fuel
      (compileSubpattern input (Char (CsClass ClassW false))) []
      mn None true x k
    = if (mn =? 0) || negb (List.length (runAt input (endIndex x)) =? 0)
      then k {| endIndex := endIndex x
                            + List.length (runAt input (endIndex x));
                captures := captures x |}
      else None.
Proof.
  induction fuel as [|fuel IH]; intros x mn k Hk Hf Hmn; [lia|].
  cbn [repeatMatcher]. rewrite resetCaptures_nil.
  cbn [compileSubpattern].
  destruct (nth_error input (endIndex x)) as [ch|] eqn:E.
  - cbn [charSetMatches classMatches xorb].
    destruct (Chars.isWordChar ch) eqn:W.
    + rewrite (runAt_step _ _ E W) in *. cbn [List.length] in *.
      assert (Hd : (mn =? 0) && (endIndex (advance x) =? endIndex x) = false).
      { unfold advance. cbn [endIndex]. rewrite andb_false_iff. right.
        apply Nat.eqb_neq. lia. }
      rewrite Hd.
      rewrite IH; [|assumption|simpl; lia|lia].
      replace (Nat.pred mn =? 0) with true
        by (symmetry; apply Nat.eqb_eq; lia).
      cbn [orb negb Nat.eqb endIndex captures advance].
      replace (S (endIndex x) + List.length (runAt input (S (endIndex x))))
        with (endIndex x + S (List.length (runAt input (S (endIndex x)))))
        by lia.
      rewrite orb_true_r.
      destruct (mn =? 0); cbn [negb]; [|reflexivity].
      now apply orElse_hit.
    + assert (R : runAt input (endIndex x) = []).
      { apply isWordAt_false. unfold isWordAt. now rewrite E. }
      rewrite R. cbn [List.length Nat.eqb negb]. rewrite Nat.add_0_r, orb_false_r.
      destruct (mn =? 0); cbn [negb orElse]; [now destruct x|reflexivity].
  - assert (R : runAt input (endIndex x) = []).
    { apply isWordAt_false. unfold isWordAt. now rewrite E. }
    rewrite R. cbn [List.length Nat.eqb negb]. rewrite Nat.add_0_r, orb_false_r.
    destruct (mn =? 0); cbn [negb orElse]; [now destruct x|reflexivity].
Qed.

Lemma wordChars_some x k :
  (forall y, k y <> None) ->
  compileSubpattern input wordChars x k
  = if List.length (runAt input (endIndex x)) =? 0 then None
    else k {| endIndex := endIndex x
                          + List.length (runAt input (endIndex x));
              captures := captures x |}.
Proof.
  intros Hk. unfold wordChars. cbn [compileSubpattern groupsOf].
  rewrite wordChars_greedy; [|assumption| |lia].
  - cbn [Nat.eqb orb]. now destruct (_ =? 0).
  - pose proof (takeWord_length (skipn (endIndex x) input)) as H.
    rewrite length_skipn in H. unfold runAt. lia.
Qed.

(** *** The second group *)

Section Prefix.
Variable cs : list ascii.
Hypothesis cs_word : forallb Chars.isWordChar cs = true.

Lemma matchSecond_eq x :
  occursAt input (endIndex x) cs ->
  matchSecond input cs x
  = if List.length (runAt input (endIndex x + List.length cs)) =? 0
    then None else Some (found input x).
Proof.
  intros Hocc. unfold matchSecond, secondGroup.
  cbn [compileSubpattern].
  rewrite (literal_some cs _ _ Hocc).
  rewrite wordChars_some by discriminate.
  cbn [endIndex captures].
  destruct (_ =? 0); [reflexivity|].
  unfold found, setCapture. cbn [endIndex captures].
  rewrite (runAt_app cs _ cs_word Hocc), length_app.
  now rewrite Nat.add_assoc.
Qed.

(** The second group matches at [p] exactly when the run at [p] is the
    prefix and at least one more word character, and then it takes the
    whole run. *)
Lemma matchSecond_some x ws :
  runAt input (endIndex x) = cs ++ ws ->
  ws <> [] ->
  matchSecond input cs x = Some (found input x).
Proof.
  intros Hrun Hne.
  pose proof (runAt_occurs _ _ _ Hrun) as Hocc.
  rewrite (matchSecond_eq _ Hocc).
  rewrite (runAt_app cs _ cs_word Hocc) in Hrun.
  apply app_inv_head in Hrun. rewrite Hrun.
  destruct ws; [contradiction|reflexivity].
Qed.

Lemma matchSecond_sound x z :
  matchSecond input cs x = Some z ->
  z = found input x
  /\ exists ws, ws <> [] /\ runAt input (endIndex x) = cs ++ ws.
Proof.
  intros H.
  assert (Hocc : occursAt input (endIndex x) cs).
  { unfold matchSecond, secondGroup in H. cbn [compileSubpattern] in H.
    now apply MatcherFacts.literal_match in H. }
  rewrite (matchSecond_eq _ Hocc) in H.
  destruct (runAt input (endIndex x + List.length cs)) as [|c ws] eqn:R;
    [discriminate|].
  simpl in H. inversion H; subst z. split; [reflexivity|].
  exists (c :: ws). split; [discriminate|].
  now rewrite (runAt_app cs _ cs_word Hocc), R.
Qed.

(** *** The first group *)

Lemma spaces_repeat fuel :
  forall mn x k z,
    mn <= 1 ->
    repeatMatcher fuel
      (compileSubpattern input (Char (CsClass ClassS false))) []
      mn None true x k = Some z ->
    exists y,
      (mn = 1 -> endIndex x < endIndex y)
      /\ endIndex x <= endIndex y
      /\ (forall j, endIndex x <= j < endIndex y ->
                    isWordAt input j = false)
      /\ k y = Some z.
Proof.
  induction fuel as [|fuel IH]; intros mn x k z Hmn H; [discriminate|].
  cbn [repeatMatcher] in H. rewrite resetCaptures_nil in H.
  assert (Hstep : forall mn',
            compileSubpattern input (Char (CsClass ClassS false)) x
              (fun y => if (mn' =? 0) && (endIndex y =? endIndex x) then None
                        else repeatMatcher fuel
                               (compileSubpattern input
                                  (Char (CsClass ClassS false))) []
                               (Nat.pred mn') (option_map Nat.pred None)
                               true y k) = Some z ->
            mn' <= 1 ->
            exists y,
              endIndex x < endIndex y
              /\ (forall j, endIndex x <= j < endIndex y ->
                            isWordAt input j = false)
              /\ k y = Some z).
  { intros mn' Hm Hmn'.
    apply MatcherFacts.compile_Char in Hm.
    destruct Hm as [ch [E [Hs Hd]]].
    replace ((mn' =? 0) && (endIndex (advance x) =? endIndex x)) with false
      in Hd.
    2:{ symmetry. apply andb_false_iff. right. unfold advance.
        cbn [endIndex]. apply Nat.eqb_neq. lia. }
    apply IH in Hd; [|lia].
    destruct Hd as [y [_ [Hle [Hgap Hk]]]].
    unfold advance in *. cbn [endIndex] in *.
    exists y. split; [lia|]. split; [|exact Hk].
    intros j Hj. destruct (Nat.eq_dec j (endIndex x)) as [->|Hne].
    - unfold isWordAt. rewrite E. simpl in Hs.
      destruct (Chars.isWordChar ch) eqn:W; [|reflexivity].
      apply JSFacts.wordChar_not_space in W. congruence.
    - apply Hgap. lia. }
  destruct (mn =? 0) eqn:M; cbn [negb] in H.
  - apply MatcherFacts.orElse_Some in H. destruct H as [H|[_ H]].
    + destruct (Hstep mn) as [y [Hlt [Hgap Hk]]]; [now rewrite M|lia|].
      exists y. repeat split; try assumption; lia.
    + exists x. apply Nat.eqb_eq in M. subst mn.
      repeat split; try lia; try assumption.
  - destruct (Hstep mn) as [y [Hlt [Hgap Hk]]]; [now rewrite M|lia|].
    exists y. repeat split; try assumption; lia.
Qed.

Lemma matchAt_eq i :
  matchAt input (prefixPattern cs) i
  = orElse (atStart input cs i)
      (fun _ => orElse (afterSpaces input cs i)
                       (fun _ => afterNonWord input cs i)).
Proof. reflexivity. Qed.

Lemma wordChar_not_terminator (c : ascii) :
  Chars.isWordChar c = true -> Chars.isLineTerminator c = false.
Proof.
  destruct c as [[|] [|] [|] [|] [|] [|] [|] [|]];
    intros H; try discriminate H; reflexivity.
Qed.

Lemma runAt_inside p :
  forall j,
    p <= j < p + List.length (runAt input p) -> isWordAt input j = true.
Proof.
  remember (List.length (runAt input p)) as n eqn:Hn.
  revert p Hn. induction n as [|n IH]; intros p Hn j Hj; [lia|].
  assert (Hw : isWordAt input p = true).
  { apply isWordAt_run. intros R. rewrite R in Hn. discriminate. }
  destruct (Nat.eq_dec j p) as [->|Hne]; [exact Hw|].
  unfold isWordAt in Hw.
  destruct (nth_error input p) as [ch|] eqn:E; [|discriminate].
  rewrite (runAt_step _ _ E Hw) in Hn. simpl in Hn.
  apply (IH (S p)); [congruence|lia].
Qed.

Lemma atLineStart_after_word i :
  isWordAt input i = true -> atLineStart input (S i) = false.
Proof.
  unfold isWordAt, atLineStart.
  destruct (nth_error input i) as [ch|]; [|discriminate].
  apply wordChar_not_terminator.
Qed.

Lemma isWordAt_lt i : isWordAt input i = true -> i < List.length input.
Proof.
  unfold isWordAt. intros H. apply nth_error_Some.
  destruct (nth_error input i); [discriminate|discriminate].
Qed.

(** *** A match of the whole pattern at an index *)

(** A match at [i] takes no word character before the run it
    captures, and the run begins at [i] only at the start of a line. *)
Lemma matchAt_sound i z :
  matchAt input (prefixPattern cs) i = Some z ->
  exists x ws,
    z = found input x
    /\ ws <> []
    /\ runAt input (endIndex x) = cs ++ ws
    /\ ((endIndex x = i /\ atLineStart input i = true)
        \/ (i < endIndex x
            /\ forall j, i <= j < endIndex x -> isWordAt input j = false)).
Proof.
  rewrite matchAt_eq. intros H.
  apply MatcherFacts.orElse_Some in H. destruct H as [H|[_ H]].
  - unfold atStart in H.
    destruct (atLineStart input i) eqn:A; [|discriminate].
    apply matchSecond_sound in H. destruct H as [-> [ws [Hne Hrun]]].
    eexists _, ws. split; [reflexivity|]. split; [exact Hne|].
    split; [exact Hrun|]. left. now split.
  - apply MatcherFacts.orElse_Some in H. destruct H as [H|[_ H]].
    + unfold afterSpaces in H. apply spaces_repeat in H; [|lia].
      destruct H as [y [Hlt [_ [Hgap H]]]].
      apply matchSecond_sound in H. destruct H as [-> [ws [Hne Hrun]]].
      eexists _, ws. split; [reflexivity|]. split; [exact Hne|].
      split; [exact Hrun|]. right. cbn [setCapture endIndex] in *.
      split; [now apply Hlt|exact Hgap].
    + unfold afterNonWord in H.
      destruct (nth_error input i) as [ch|] eqn:E; [|discriminate].
      destruct (Chars.isWordChar ch) eqn:W; [discriminate|].
      cbn [negb] in H.
      apply matchSecond_sound in H. destruct H as [-> [ws [Hne Hrun]]].
      eexists _, ws. split; [reflexivity|]. split; [exact Hne|].
      split; [exact Hrun|]. right. cbn [setCapture endIndex].
      split; [lia|]. intros j Hj. replace j with i by lia.
      unfold isWordAt. now rewrite E.
Qed.

(** At the start of a line the run that begins there is found. *)
Lemma matchAt_start i ws :
  atLineStart input i = true ->
  runAt input i = cs ++ ws ->
  ws <> [] ->
  matchAt input (prefixPattern cs) i <> None.
Proof.
  intros A Hrun Hne. rewrite matchAt_eq. unfold atStart. rewrite A.
  rewrite (matchSecond_some _ ws) by assumption. discriminate.
Qed.

(** Behind a character that is not a word character the run is found. *)
Lemma matchAt_nonword i ws :
  i < List.length input ->
  isWordAt input i = false ->
  runAt input (S i) = cs ++ ws ->
  ws <> [] ->
  matchAt input (prefixPattern cs) i <> None.
Proof.
  intros Hi Hw Hrun Hne. rewrite matchAt_eq.
  destruct (atStart input cs i); [discriminate|].
  destruct (afterSpaces input cs i); [discriminate|].
  cbn [orElse]. unfold afterNonWord.
  unfold isWordAt in Hw.
  destruct (nth_error input i) as [ch|] eqn:E;
    [|apply nth_error_None in E; lia].
  rewrite Hw. cbn [negb].
  rewrite (matchSecond_some _ ws) by assumption. discriminate.
Qed.

(** No match begins inside a word. *)
Lemma matchAt_inside i z :
  isWordAt input i = true ->
  matchAt input (prefixPattern cs) i = Some z ->
  atLineStart input i = true
  /\ exists ws, ws <> [] /\ runAt input i = cs ++ ws.
Proof.
  intros Hw H. apply matchAt_sound in H.
  destruct H as [x [ws [_ [Hne [Hrun [[<- A]|[Hlt Hgap]]]]]]].
  - split; [exact A|]. now exists ws.
  - rewrite Hgap in Hw by lia. discriminate.
Qed.

(** *** [exec] from an index *)

Lemma firstMatch_none r indices :
  (forall i, In i indices -> matchAt input r i = None) ->
  firstMatch input r indices = None.
Proof.
  induction indices as [|i indices IH]; intros H; [reflexivity|].
  simpl. rewrite (H i) by now left. apply IH. intros j Hj. apply H. now right.
Qed.

Lemma firstMatch_app r l1 l2 :
  firstMatch input r l1 = None ->
  firstMatch input r (l1 ++ l2) = firstMatch input r l2.
Proof.
  induction l1 as [|i l1 IH]; [reflexivity|]. simpl.
  destruct (matchAt input r i); [discriminate|exact IH].
Qed.

Lemma exec_skip r l l' :
  l <= l' ->
  l' <= S (List.length input) ->
  (forall i, l <= i < l' -> matchAt input r i = None) ->
  exec input r l = exec input r l'.
Proof.
  intros Hle Hl' Hnone. unfold exec.
  replace (S (List.length input) - l)
    with ((l' - l) + (S (List.length input) - l')) by lia.
  rewrite seq_app. replace (l + (l' - l)) with l' by lia.
  apply firstMatch_app, firstMatch_none.
  intros i Hi. apply in_seq in Hi. apply Hnone. lia.
Qed.

Lemma exec_hit r l y :
  l <= List.length input ->
  matchAt input r l = Some y ->
  exec input r l = Some y.
Proof.
  intros Hl H. unfold exec.
  replace (S (List.length input) - l) with (S (List.length input - l)) by lia.
  simpl. now rewrite H.
Qed.

(** *** The scan from an index *)

(** From an index where no word is cut (the beginning of the text, or a
    character that is not a word character, or the end), [exec] finds
    the first word from there on that is the prefix and at least one
    more word character, takes the whole of it, and stops behind it. *)
Lemma exec_spec :
  forall n l,
    List.length input - l <= n ->
    l <= List.length input ->
    l = 0 \/ isWordAt input l = false ->
    match filter (extendsChars cs) (wordRuns (skipn l input)) with
    | [] => exec input (prefixPattern cs) l = None
    | r :: rest =>
        exists y,
          exec input (prefixPattern cs) l = Some y
          /\ captured input 2 y = Some r
          /\ l < endIndex y
          /\ endIndex y <= List.length input
          /\ isWordAt input (endIndex y) = false
          /\ filter (extendsChars cs) (wordRuns (skipn (endIndex y) input))
             = rest
    end.
Proof.
  induction n as [|n IH]; intros l Hn Hl Hinv.
  - (* at the end of the text *)
    assert (l = List.length input) by lia. subst l.
    rewrite skipn_all. simpl.
    destruct (matchAt input (prefixPattern cs) (List.length input))
      as [z|] eqn:M.
    + apply matchAt_sound in M.
      destruct M as [x [ws [_ [Hne [Hrun Hrel]]]]].
      assert (Hw : isWordAt input (endIndex x) = true).
      { apply isWordAt_run. rewrite Hrun. now destruct cs, ws. }
      apply isWordAt_lt in Hw. destruct Hrel as [[E _]|[Hlt _]]; lia.
    + unfold exec. replace (S (List.length input) - List.length input)
        with 1 by lia.
      simpl. now rewrite M.
  - destruct (matchAt input (prefixPattern cs) l) as [z|] eqn:M.
    + (* a match at [l] *)
      pose proof (exec_hit _ _ _ Hl M) as Hexec.
      apply matchAt_sound in M.
      destruct M as [x [ws [-> [Hne [Hrun Hrel]]]]].
      set (p := endIndex x) in *.
      assert (Hrne : runAt input p <> []).
      { rewrite Hrun. now destruct cs, ws. }
      assert (Hp : p < List.length input).
      { now apply isWordAt_lt, isWordAt_run. }
      assert (Hgap : wordRuns (skipn l input) = wordRuns (skipn p input)).
      { destruct Hrel as [[E _]|[Hlt Hg]].
        - now rewrite E.
        - apply wordRuns_gap; [lia|exact Hg|lia]. }
      rewrite Hgap, (wordRuns_at _ Hrne). cbn [filter].
      assert (Hq : extendsChars cs (runAt input p) = true).
      { apply extendsChars_iff. now exists ws. }
      rewrite Hq.
      exists (found input x). unfold found. fold p.
      cbn [endIndex captures].
      split; [exact Hexec|].
      split; [unfold captured; cbn [captures capture Nat.eqb];
              now rewrite runAt_slice|].
      pose proof (runAt_length p) as Hlen.
      assert (0 < List.length (runAt input p))
        by (destruct (runAt input p); [contradiction|simpl; lia]).
      split; [destruct Hrel as [[E _]|[Hlt _]]; lia|].
      split; [lia|].
      split; [apply runAt_end|reflexivity].
    + (* no match at [l] *)
      destruct (Nat.eq_dec l (List.length input)) as [->|Hlt].
      { rewrite skipn_all. simpl. unfold exec.
        replace (S (List.length input) - List.length input) with 1 by lia.
        simpl. now rewrite M. }
      assert (Hl' : l < List.length input) by lia.
      set (p := if isWordAt input l then l else S l).
      set (e := p + List.length (runAt input p)).
      assert (Hpl : l <= p <= S l) by (unfold p; destruct (isWordAt input l); lia).
      assert (Hp0 : isWordAt input l = true -> p = l /\ l = 0).
      { intros Hw. unfold p. rewrite Hw. destruct Hinv; [now split|congruence]. }
      assert (Hp1 : isWordAt input l = false -> p = S l).
      { intros Hw. unfold p. now rewrite Hw. }
      (* the run at [p] is not one that is looked for *)
      assert (Hunq : extendsChars cs (runAt input p) = false).
      { destruct (extendsChars cs (runAt input p)) eqn:Q; [|reflexivity].
        exfalso. apply extendsChars_iff in Q. destruct Q as [ws [Hne Hrun]].
        destruct (isWordAt input l) eqn:Hw.
        - destruct (Hp0 eq_refl) as [Hp Hz]. rewrite Hp, Hz in Hrun.
          apply (matchAt_start 0 ws) in Hrun; [|reflexivity|exact Hne].
          rewrite Hz in M. contradiction.
        - rewrite (Hp1 eq_refl) in Hrun.
          apply (matchAt_nonword l ws) in Hrun; try assumption.
          contradiction. }
      assert (Hel : l < e).
      { unfold e. destruct (isWordAt input l) eqn:Hw.
        - destruct (Hp0 eq_refl) as [Hp _]. rewrite Hp.
          apply isWordAt_run in Hw.
          destruct (runAt input l); [contradiction|simpl; lia].
        - rewrite (Hp1 eq_refl). lia. }
      assert (Hee : e <= List.length input).
      { unfold e. pose proof (runAt_length p). lia. }
      assert (Hnone : forall i, l <= i < e ->
                                matchAt input (prefixPattern cs) i = None).
      { intros i Hi. destruct (Nat.eq_dec i l) as [->|Hne]; [exact M|].
        destruct (matchAt input (prefixPattern cs) i) as [z|] eqn:Mi;
          [exfalso|reflexivity].
        assert (Hwi : isWordAt input i = true)
          by (apply (runAt_inside p); unfold e in Hi; lia).
        destruct (matchAt_inside _ _ Hwi Mi) as [A [ws [Hws Hrun]]].
        destruct (Nat.eq_dec i p) as [->|Hip].
        - assert (Q : extendsChars cs (runAt input p) = true)
            by (apply extendsChars_iff; now exists ws).
          congruence.
        - destruct i as [|i]; [lia|].
          rewrite atLineStart_after_word in A; [discriminate|].
          apply (runAt_inside p). unfold e in Hi. lia. }
      assert (Htok : filter (extendsChars cs) (wordRuns (skipn l input))
                     = filter (extendsChars cs) (wordRuns (skipn e input))).
      { assert (Hlp : wordRuns (skipn l input) = wordRuns (skipn p input)).
        { destruct (isWordAt input l) eqn:Hw.
          - now destruct (Hp0 eq_refl) as [-> _].
          - rewrite (Hp1 eq_refl).
            apply wordRuns_gap; [lia| |lia].
            intros j Hj. now replace j with l by lia. }
        rewrite Hlp. unfold e.
        destruct (runAt input p) as [|c r] eqn:R.
        - now rewrite Nat.add_0_r.
        - rewrite wordRuns_at by congruence. rewrite R. cbn [filter].
          now rewrite Hunq. }
      rewrite Htok, (exec_skip _ l e) by (try assumption; lia).
      assert (He : isWordAt input e = false) by apply runAt_end.
      specialize (IH e ltac:(lia) Hee (or_intror He)).
      destruct (filter (extendsChars cs) (wordRuns (skipn e input)));
        [exact IH|].
      destruct IH as [y [H1 [H2 [H3 [H4 [H5 H6]]]]]].
      exists y. repeat split; try assumption. lia.
Qed.

End Prefix.

End Input.

(** *** The loop of [pushWordsFromText] *)

Lemma wordChar_plain (c : ascii) :
  Chars.isWordChar c = true -> plainChar c = true.
Proof.
  destruct c as [[|] [|] [|] [|] [|] [|] [|] [|]];
    intros H; try discriminate H; reflexivity.
Qed.

Lemma wordCharsOnly_plain (word : string) :
  wordCharsOnly word = true -> plain word = true.
Proof.
  unfold wordCharsOnly, plain. intros H.
  apply forallb_forall. intros c Hc. apply wordChar_plain.
  now apply (proj1 (forallb_forall _ _) H).
Qed.

Lemma execLoop_words (input cs : list ascii) :
  forallb Chars.isWordChar cs = true ->
  forall fuel l words,
    List.length input - l < fuel ->
    l <= List.length input ->
    l = 0 \/ isWordAt input l = false ->
    Extension.execLoop fuel (prefixPattern cs) input l words
    = Extension.Done
        (words ++ map string_of_list_ascii
                      (filter (extendsChars cs) (wordRuns (skipn l input)))).
Proof.
  intros Hcs. induction fuel as [|fuel IH]; intros l words Hf Hl Hinv; [lia|].
  cbn [Extension.execLoop].
  pose proof (exec_spec input cs Hcs (List.length input - l) l
                (le_n _) Hl Hinv) as Hspec.
  pose proof (wordRuns_word (skipn l input)) as Hall.
  assert (Hsub : Forall (fun r => forallb Chars.isWordChar r = true)
                   (filter (extendsChars cs) (wordRuns (skipn l input)))).
  { apply Forall_forall. intros r Hr. apply filter_In in Hr.
    now apply (proj1 (Forall_forall _ _) Hall). }
  destruct (filter (extendsChars cs) (wordRuns (skipn l input)))
    as [|r rest].
  - rewrite Hspec. simpl. now rewrite app_nil_r.
  - destruct Hspec as [y [-> [-> [Hlt [Hle [Hw <-]]]]]].
    replace (endIndex y =? l) with false
      by (symmetry; apply Nat.eqb_neq; lia).
    rewrite IH by (try lia; now right).
    rewrite JSFacts.trim_id.
    + simpl. now rewrite <- app_assoc.
    + inversion Hsub as [|? ? Hr _]; subst.
      apply (PlainPrefix.forallb_Forall_false _ _ Hr).
      apply JSFacts.wordChar_not_space.
Qed.

(** A run of word characters extends the prefix as a string exactly
    when it does as a list of characters. *)
Lemma extendsPrefix_chars (word : string) (r : list ascii) :
  forallb Chars.isWordChar r = true ->
  Extension.extendsPrefix word (string_of_list_ascii r)
  = extendsChars (list_ascii_of_string word) r.
Proof.
  intros Hr. apply eq_true_iff_eq. rewrite extendsChars_iff. split.
  - unfold Extension.extendsPrefix. rewrite !andb_true_iff.
    intros [[Hpre Hlen] _].
    apply JSFacts.startsWith_iff in Hpre. destruct Hpre as [rest Hrest].
    apply (f_equal list_ascii_of_string) in Hrest.
    rewrite list_ascii_of_string_of_list_ascii,
      ParseFacts.list_ascii_of_string_app in Hrest.
    exists (list_ascii_of_string rest). split; [|exact Hrest].
    intros E. rewrite E, app_nil_r in Hrest. subst r.
    rewrite string_of_list_ascii_of_string in Hlen.
    apply Nat.ltb_lt in Hlen. lia.
  - intros [ws [Hne ->]].
    apply PlainPrefix.extendsPrefix_intro; [exact Hne|].
    rewrite forallb_app in Hr. now apply andb_prop in Hr.
Qed.

Lemma filter_words (word : string) (runs : list (list ascii)) :
  Forall (fun r => forallb Chars.isWordChar r = true /\ r <> []) runs ->
  filter (Extension.extendsPrefix word) (map string_of_list_ascii runs)
  = map string_of_list_ascii
        (filter (extendsChars (list_ascii_of_string word)) runs).
Proof.
  induction 1 as [|r runs [Hr _] _ IH]; [reflexivity|].
  simpl. rewrite (extendsPrefix_chars _ _ Hr), IH.
  now destruct (extendsChars _ r).
Qed.

(** The words that a scan finds. *)
Lemma occurrences_words (word text : string) :
  wordCharsOnly word = true ->
  Extension.occurrences word text
  = Some (filter (Extension.extendsPrefix word) (words text)).
Proof.
  intros Hw. unfold Extension.occurrences.
  rewrite (ParseFacts.parse_plain _ (wordCharsOnly_plain _ Hw)).
  cbv zeta.
  rewrite (execLoop_words _ _ Hw) by (try lia; now left).
  unfold words. rewrite filter_words by apply wordRuns_word.
  reflexivity.
Qed.

End TokenFacts.

(** ** What a scan finds for a prefix of word characters *)

Module Words.
Import Regex Host Extension Tokens RunFacts LoadFacts.

(** X16. For a prefix made of word characters only, a scan is a
    tokenizer: it always completes, and it finds the words of the text
    (its maximal runs of word characters) that begin with the prefix and
    are longer than it, each as often as it occurs and in the order of
    the text; [_words] becomes the old list followed by these words, each
    kept at its first occurrence. *)
Theorem scan_finds_words (word text : string) (this : CurrentWord) :
  wordCharsOnly word = true ->
  completion (pushWordsFromText word text this) = Normal tt
  /\ occurrences word text = Some (filter (extendsPrefix word) (words text))
  /\ _words (final (pushWordsFromText word text this))
     = JS.uniq (_words this ++ filter (extendsPrefix word) (words text)).
Proof.
  intros Hw.
  pose proof (TokenFacts.occurrences_words word text Hw) as Hocc.
  pose proof (pushWordsFromText_completes word text this _ Hocc) as HN.
  split; [exact HN|]. split; [exact Hocc|].
  destruct (pushWordsFromText_normal word text this HN) as [found [Hf ->]].
  rewrite Hocc in Hf. now inversion Hf.
Qed.

(** X17. For a prefix made of word characters only, with a document and
    a position stored, [loadWords] always completes and the candidates
    are, in this order and each at its first occurrence: the words before
    the cursor that extend the prefix, without their duplicates and then
    reversed, those behind the cursor, those of every text of the
    document list, and the prefix itself. *)
Theorem loadWords_finds_words (word : string) (docList : DocumentList.t)
        (this : CurrentWord) (doc : TextDocument) (pos : Position) :
  wordCharsOnly word = true ->
  _doc this = Some doc ->
  _pos this = Some pos ->
  let candidates text := filter (extendsPrefix word) (words text) in
  completion (loadWords word docList this) = Normal tt
  /\ _words (final (loadWords word docList this))
     = JS.uniq (rev (JS.uniq (candidates (textBefore doc pos)))
                ++ candidates (textAfter doc pos)
                ++ flat_map candidates (DocumentList.values docList)
                ++ [word]).
Proof.
  intros Hw Hd Hp candidates.
  pose proof (PlainPrefix.loadWords_plain_completes word docList this
                (TokenFacts.wordCharsOnly_plain word Hw)) as HN.
  split; [exact HN|].
  destruct (loadWords_normal word docList this doc pos Hd Hp HN) as [_ ->].
  unfold loadedWords.
  assert (Hocc : forall text, occurrencesOrNone word text = candidates text).
  { intros text. unfold occurrencesOrNone.
    now rewrite (TokenFacts.occurrences_words word text Hw). }
  rewrite !Hocc.
  now rewrite (flat_map_ext _ _ Hocc).
Qed.

End Words.

(** ** The states the command can find *)

Module Reachable.
Import Regex Host Extension RunFacts CycleFacts LoadFacts.

Lemma stable_stored this i : stable this i -> _doc this <> None.
Proof.
  unfold stable, positionHasChanged. intros H E. rewrite E in H.
  discriminate.
Qed.

Lemma final_invoke this i :
  final (invoke i this)
  = with_words (_words (final (invoke i this)))
      (if positionHasChanged this (currentWord i) (document (fst i))
                             (selectionActive (fst i))
       then storedFor (currentWord i) (fst i) this
       else this).
Proof.
  destruct (positionHasChanged this (currentWord i) (document (fst i))
              (selectionActive (fst i))) eqn:Hc.
  - now apply Reload.reload_stores.
  - rewrite (invoke_stable _ _ Hc).
    apply Reload.enterSuggestion_wordsOnly.
Qed.

(** X18. In every state the command can find, whatever the list of
    candidates is (also after a scan that threw, and after a run whose
    pattern is outside the fragment followed here), the document and the
    position are both stored or both not, the status bar shows the
    stored active word and is visible exactly when a document is stored,
    and as long as no document is stored the object is as it was
    created. *)
Theorem reachable_fields (this : CurrentWord) :
  reachable this ->
  (_doc this = None <-> _pos this = None)
  /\ text (_statusBarItem this) = _activeWord this
  /\ (visible (_statusBarItem this) = true <-> _doc this <> None)
  /\ (_doc this = None -> this = newCurrentWord).
Proof.
  induction 1 as [|this i Hreach IH Hret|this i words Hreach IH Hun].
  - simpl. repeat split; try reflexivity; try discriminate.
    intros H. now contradiction H.
  - rewrite final_invoke.
    destruct (positionHasChanged this (currentWord i) (document (fst i))
                (selectionActive (fst i))) eqn:Hc.
    + cbn. rewrite JSFacts.truthy_or_empty.
      repeat split; try reflexivity; try discriminate.
    + pose proof (stable_stored this i Hc) as Hd.
      destruct IH as [H1 [H2 [H3 _]]]. cbn.
      repeat split; try assumption; try apply H1; try apply H3.
      intros E. contradiction.
  - rewrite final_invoke.
    destruct (positionHasChanged this (currentWord i) (document (fst i))
                (selectionActive (fst i))) eqn:Hc.
    + cbn. rewrite JSFacts.truthy_or_empty.
      repeat split; try reflexivity; try discriminate.
    + exfalso. rewrite (invoke_stable _ _ Hc) in Hun.
      rewrite enterSuggestion_completes in Hun. discriminate.
Qed.

Lemma startsWith_refl (w : string) : JS.startsWith w w = true.
Proof.
  apply JSFacts.startsWith_iff. exists "".
  induction w as [|c w IH]; simpl; [reflexivity|now rewrite <- IH].
Qed.

Lemma plain_prefix (w p : string) :
  JS.startsWith w p = true -> plain w = true -> plain p = true.
Proof.
  intros Hp. apply JSFacts.startsWith_iff in Hp. destruct Hp as [rest ->].
  unfold plain. rewrite ParseFacts.list_ascii_of_string_app, forallb_app.
  intros H. now apply andb_prop in H.
Qed.

(** The candidates for a plain active word begin with it. *)
Lemma reachable_plain_candidates this :
  reachable this ->
  plain (_activeWord this) = true ->
  _activeWord this <> "" ->
  Forall (fun c => JS.startsWith c (_activeWord this) = true /\ c <> "")
         (_words this).
Proof.
  induction 1 as [|this i Hreach IH Hret|this i words Hreach IH Hun];
    intros Hplain Hne.
  - constructor.
  - destruct (positionHasChanged this (currentWord i) (document (fst i))
                (selectionActive (fst i))) eqn:Hc.
    + revert Hplain Hne. rewrite (invoke_reload _ _ Hc).
      unfold bind. rewrite loadNewSuggestions_eq.
      pose proof (proj1 (loadWords_frame (currentWord i) (snd i))
                    (storedFor (currentWord i) (fst i) this)) as Hl.
      set (loaded := loadWords (currentWord i) (snd i)
                       (storedFor (currentWord i) (fst i) this)) in *.
      assert (Hact : _activeWord (final loaded) = currentWord i).
      { rewrite Hl. simpl. apply JSFacts.truthy_or_empty. }
      assert (Hloaded : plain (currentWord i) = true ->
                        currentWord i <> "" ->
                        Forall (fun c => JS.startsWith c (currentWord i) = true
                                         /\ c <> "")
                               (_words (final loaded))).
      { intros Hp Hn.
        destruct (PlainPrefix.loadWords_plain (currentWord i) (snd i)
                    (storedFor (currentWord i) (fst i) this)
                    (document (fst i)) (selectionActive (fst i))
                    Hp eq_refl eq_refl) as [_ [_ [_ Hall]]].
        eapply Forall_impl; [|exact Hall].
        intros c [->|Hc']; split; try assumption.
        - apply startsWith_refl.
        - unfold extendsPrefix in Hc'.
          apply andb_prop in Hc'. destruct Hc' as [Hc' _].
          now apply andb_prop in Hc'.
        - eapply PlainPrefix.extendsPrefix_nonempty, Hc'. }
      destruct (completion loaded) as [[]| | |]; cbn [final];
        try (rewrite Hact; exact Hloaded).
      rewrite PlainPrefix.enterSuggestion_activeWord, Hact. intros Hp Hn.
      apply PlainPrefix.enterSuggestion_keeps. now apply Hloaded.
    + revert Hplain Hne. rewrite (invoke_stable _ _ Hc).
      rewrite PlainPrefix.enterSuggestion_activeWord. intros Hp Hn.
      apply PlainPrefix.enterSuggestion_keeps. now apply IH.
  - exfalso. exact (PlainPrefix.plain_followed this i Hun Hplain).
Qed.

(** X19. A press on a plain word replaces it, and keeps what was typed.
    In every state the command can find, an invocation with a word range
    at the cursor whose word is not empty and has neither pattern
    operators nor white space completes after one replacement of that
    range, and the text it inserts is not empty and begins with the
    active word then stored. *)
Theorem press_keeps_typed_prefix (this : CurrentWord) (i : Invocation)
        (range : Range) :
  reachable this ->
  plain (currentWord i) = true ->
  currentWord i <> "" ->
  wordRange i = Some range ->
  exists c,
    completion (invoke i this) = Normal tt
    /\ filter isEdit (trace (invoke i this))
       = [Edit_delete range; Edit_insert (start range) c]
    /\ c <> ""
    /\ JS.startsWith c (_activeWord (final (invoke i this))) = true.
Proof.
  intros Hreach Hplain Hne Hr.
  destruct (positionHasChanged this (currentWord i) (document (fst i))
              (selectionActive (fst i))) eqn:Hc.
  - destruct (Cycle.reload_plain this i range Hc Hplain Hne Hr)
      as [h [t [Hl [Hnon Hi]]]].
    exists h. rewrite Hi. cbn [completion trace final].
    split; [reflexivity|]. split.
    { rewrite filter_app, Pressing.filter_isEdit_scans; [reflexivity|].
      unfold scans. simpl. apply forallb_forall. intros e He.
      apply in_map_iff in He. now destruct He as [x [<- _]]. }
    split; [now inversion Hnon|].
    cbn. rewrite JSFacts.truthy_or_empty.
    destruct (Scanning.loadedWords_plain_last (currentWord i)
                (textBefore (document (fst i)) (selectionActive (fst i)))
                (textAfter (document (fst i)) (selectionActive (fst i)))
                (DocumentList.values (snd i)) Hplain)
      as [found [Hf [Hext _]]].
    rewrite Hl in Hf.
    destruct found as [|f found]; simpl in Hf; inversion Hf; subst.
    + apply startsWith_refl.
    + inversion Hext as [|? ? Hx _]; subst.
      unfold extendsPrefix in Hx.
      apply andb_prop in Hx. destruct Hx as [Hx _].
      now apply andb_prop in Hx.
  - assert (Hs : stable this i) by exact Hc.
    assert (Hpre : JS.startsWith (currentWord i) (_activeWord this) = true).
    { unfold positionHasChanged in Hc.
      destruct (_doc this); [|discriminate].
      destruct (_pos this); [|discriminate].
      destruct (negb _ || _); [discriminate|].
      destruct (JS.startsWith (currentWord i) (_activeWord this));
        [reflexivity|discriminate]. }
    pose proof (reachable_plain_candidates this Hreach
                  (plain_prefix _ _ Hpre Hplain)
                  (PlainPrefix.stable_activeWord this i Hs)) as Hall.
    destruct (PlainPrefix.stable_words this i Hs) as [h [t Hw]].
    rewrite Hw in Hall. inversion Hall as [|? ? [Hh Hhne] _]; subst.
    exists h.
    rewrite (RoundRobin.invoke_rotates this i h t range Hs Hr Hw Hhne).
    cbn [completion trace final]. repeat split; try assumption.
Qed.

End Reachable.

(** ** The properties above on the example documents *)

Module Scenarios.
Import Regex Host Extension Examples Activation.

(** Opening a second document keeps the keys of the list distinct. *)
Lemma registry_keys_witness :
  NoDup (DocumentList.keys (notify listedList (DidOpen dotDoc))).
Proof.
  assert (H : NoDup (DocumentList.keys listedList)).
  { vm_compute. repeat constructor. intros []. }
  exact (proj1 (proj2 (Listeners.registry_keys listedList (DidOpen dotDoc))) H).
Defined.

(** A document opened and not closed is scanned; one that was closed is
    not told of any more. *)
Lemma phase3_scans_latest_texts_witness :
  In (Call_pushWordsFromText "foo" "foo1 foo foo2")
     (skipn 3 (trace (loadWords "foo"
                        (notifyAll [DidOpen listedDoc; DidOpen dotDoc;
                                    DidClose dotDoc] [])
                        (storing listedDoc 0 8)))).
Proof.
  assert (Hd : _doc (storing listedDoc 0 8) = Some listedDoc) by reflexivity.
  assert (Hp : _pos (storing listedDoc 0 8)
               = Some {| line := 0; character := 8 |}) by reflexivity.
  assert (HN : completion
                 (loadWords "foo"
                    (notifyAll [DidOpen listedDoc; DidOpen dotDoc;
                                DidClose dotDoc] [])
                    (storing listedDoc 0 8)) = Normal tt)
    by (vm_compute; reflexivity).
  apply (proj2 (Listeners.phase3_scans_latest_texts _ _ _ _ _ Hd Hp HN
                  "foo1 foo foo2")).
  exists listedDoc. vm_compute. reflexivity.
Defined.

(** A scan appends to the candidates it finds. *)
Lemma scan_keeps_candidates_witness :
  exists added,
    _words (final (pushWordsFromText "foo" "foo1 foo2"
                     (with_words ["foo9"] newCurrentWord)))
    = ["foo9"] ++ added.
Proof.
  assert (HN : completion (pushWordsFromText "foo" "foo1 foo2"
                             (with_words ["foo9"] newCurrentWord))
               = Normal tt) by (vm_compute; reflexivity).
  assert (Hn : NoDup (_words (with_words ["foo9"] newCurrentWord))).
  { simpl. repeat constructor. intros []. }
  pose proof (Scanning.scan_keeps_candidates "foo" "foo1 foo2"
                (with_words ["foo9"] newCurrentWord)) as H.
  cbv zeta in H. destruct H as [_ [_ H]].
  destruct (H HN) as [_ [_ H3]].
  destruct (H3 Hn) as [added [Heq _]].
  exists added. exact Heq.
Defined.

Lemma plain_scan_sound_witness :
  completion (pushWordsFromText "foo" "foo1 foo2" newCurrentWord) = Normal tt.
Proof.
  assert (Hplain : plain "foo" = true) by reflexivity.
  exact (proj1 (Scanning.plain_scan_sound "foo" "foo1 foo2" newCurrentWord
                  Hplain)).
Defined.

(** On a new object [loadWords] returns at once. *)
Lemma loadWords_changes_words_only_witness :
  loadWords "foo" listedList newCurrentWord
  = {| final := newCurrentWord; trace := [Call_loadWords "foo"];
       completion := Normal tt |}.
Proof.
  pose proof (Scanning.loadWords_changes_words_only "foo" listedList
                newCurrentWord) as H.
  cbv zeta in H. destruct H as [_ [_ [_ H]]].
  apply H. left. reflexivity.
Defined.

Lemma loadWords_builds_witness :
  NoDup (_words (final (loadWords "foo" listedList (storing listedDoc 0 8)))).
Proof.
  assert (Hd : _doc (storing listedDoc 0 8) = Some listedDoc) by reflexivity.
  assert (Hp : _pos (storing listedDoc 0 8)
               = Some {| line := 0; character := 8 |}) by reflexivity.
  assert (HN : completion (loadWords "foo" listedList (storing listedDoc 0 8))
               = Normal tt) by (vm_compute; reflexivity).
  exact (proj1 (proj2 (Scanning.loadWords_builds "foo" listedList _ _ _
                         Hd Hp HN))).
Defined.

Lemma plain_prefix_last_witness :
  completion (loadWords "foo" listedList (storing listedDoc 0 8)) = Normal tt.
Proof.
  assert (Hplain : plain "foo" = true) by reflexivity.
  assert (Hd : _doc (storing listedDoc 0 8) = Some listedDoc) by reflexivity.
  assert (Hp : _pos (storing listedDoc 0 8)
               = Some {| line := 0; character := 8 |}) by reflexivity.
  exact (proj1 (Scanning.plain_prefix_last "foo" listedList _ _ _
                  Hplain Hd Hp)).
Defined.


(** The press after the first one of the order scenario does not
    reload. *)
Lemma next_press_cycles_witness :
  stable (final (invoke firstPress newCurrentWord))
         (cursor (typedDoc "foo2") 0 20, []).
Proof.
  assert (Hi : inserted (trace (invoke firstPress newCurrentWord)) = ["foo2"])
    by (vm_compute; reflexivity).
  assert (Ha : _activeWord (final (invoke firstPress newCurrentWord)) = "foo")
    by (vm_compute; reflexivity).
  assert (Hne : _activeWord (final (invoke firstPress newCurrentWord)) <> "").
  { rewrite Ha. discriminate. }
  assert (Hp : JS.startsWith "foo2"
                 (_activeWord (final (invoke firstPress newCurrentWord)))
               = true).
  { rewrite Ha. reflexivity. }
  assert (Hc : currentWord (cursor (typedDoc "foo2") 0 20, []) = "foo2")
    by (vm_compute; reflexivity).
  apply (Pressing.next_press_cycles newCurrentWord firstPress
           (cursor (typedDoc "foo2") 0 20, []) "foo2" Hi Hne Hp Hc).
  exists (typedDoc "foo"), {| line := 0; character := 19 |}.
  rewrite Ha.
  rewrite (Reload.reload_stores newCurrentWord firstPress eq_refl).
  repeat split.
Defined.

(** A word that ends with an opening parenthesis, in a language whose
    words are runs of characters other than white space. *)
Lemma syntax_error_retries_witness :
  let press := (cursor (shellText 1 "foo(") 0 4, []) : Invocation in
  completion (invoke press (final (invoke press newCurrentWord)))
  = Throw SyntaxError.
Proof.
  cbv zeta.
  assert (H : completion (invoke (cursor (shellText 1 "foo(") 0 4, [])
                            newCurrentWord) = Throw SyntaxError)
    by (vm_compute; reflexivity).
  pose proof (Failing.syntax_error_retries newCurrentWord
                (cursor (shellText 1 "foo(") 0 4, []) H) as Hx.
  cbv zeta in Hx. destruct Hx as [_ [_ [_ Hx]]].
  apply Hx. reflexivity.
Defined.

Lemma candidates_stay_distinct_witness :
  NoDup (_words (final (invoke (cursor (typedDoc "foo2") 0 20, [])
                          (final (invoke firstPress newCurrentWord))))).
Proof.
  assert (HN : completion (invoke (cursor (typedDoc "foo2") 0 20, [])
                             (final (invoke firstPress newCurrentWord)))
               = Normal tt) by (vm_compute; reflexivity).
  assert (Hw : _words (final (invoke firstPress newCurrentWord))
               = ["foo1"; "foo3"; "foo4"; "foo"; "foo2"])
    by (vm_compute; reflexivity).
  apply (Failing.candidates_stay_distinct _ _ (or_introl HN)).
  intros _. rewrite Hw.
  repeat (constructor; [simpl; intuition discriminate|]). constructor.
Defined.

(** The five presses of the order scenario. *)
Lemma cycle_restores_typed_word_witness :
  inserted (trace (invokeAll (firstPress :: firstn 4 laterPresses)
                             newCurrentWord))
  = ["foo2"; "foo1"; "foo3"; "foo4"; "foo"].
Proof.
  assert (Hc : positionHasChanged newCurrentWord (currentWord firstPress)
                 (document (fst firstPress))
                 (selectionActive (fst firstPress)) = true)
    by reflexivity.
  assert (Hplain : plain (currentWord firstPress) = true)
    by (vm_compute; reflexivity).
  assert (Hw : currentWord firstPress = "foo") by (vm_compute; reflexivity).
  assert (Hne : currentWord firstPress <> "").
  { rewrite Hw. discriminate. }
  assert (Hr : wordRange firstPress <> None).
  { assert (Hr : wordRange firstPress
                 = Some {| start := {| line := 0; character := 16 |};
                           end_ := {| line := 0; character := 19 |} |})
      by (vm_compute; reflexivity).
    rewrite Hr. discriminate. }
  assert (Hall : eachInvocation
                   (fun s i => stable s i /\ wordRange i <> None)
                   (firstn 4 laterPresses)
                   (final (invoke firstPress newCurrentWord))).
  { vm_compute. repeat split; discriminate. }
  assert (Hlen : S (List.length (firstn 4 laterPresses))
                 <= List.length
                      (loadedWords (currentWord firstPress)
                         (textBefore (document (fst firstPress))
                                     (selectionActive (fst firstPress)))
                         (textAfter (document (fst firstPress))
                                    (selectionActive (fst firstPress)))
                         (DocumentList.values (snd firstPress))))
    by (vm_compute; lia).
  destruct (Cycle.cycle_restores_typed_word newCurrentWord firstPress
              (firstn 4 laterPresses) Hc Hplain Hne Hr Hall Hlen)
    as [_ [Hi _]].
  rewrite Hi. vm_compute. reflexivity.
Defined.

(** The words of a line that extend [foo]. *)
Lemma scan_finds_words_witness :
  _words (final (pushWordsFromText "foo" "alpha foo1 xfoo2 foo foo_bar"
                   newCurrentWord))
  = ["foo1"; "foo_bar"].
Proof.
  assert (Hw : Tokens.wordCharsOnly "foo" = true) by reflexivity.
  destruct (Words.scan_finds_words "foo" "alpha foo1 xfoo2 foo foo_bar"
              newCurrentWord Hw) as [_ [_ H]].
  rewrite H. vm_compute. reflexivity.
Defined.

Lemma loadWords_finds_words_witness :
  _words (final (loadWords "foo" listedList (storing listedDoc 0 8)))
  = ["foo1"; "foo2"; "foo"].
Proof.
  assert (Hw : Tokens.wordCharsOnly "foo" = true) by reflexivity.
  assert (Hd : _doc (storing listedDoc 0 8) = Some listedDoc) by reflexivity.
  assert (Hp : _pos (storing listedDoc 0 8)
               = Some {| line := 0; character := 8 |}) by reflexivity.
  pose proof (Words.loadWords_finds_words "foo" listedList _ _ _ Hw Hd Hp)
    as H.
  cbv zeta in H. destruct H as [_ H].
  rewrite H. vm_compute. reflexivity.
Defined.

(** The state after the first press of the order scenario. *)
Lemma reachable_fields_witness :
  text (_statusBarItem (final (invoke firstPress newCurrentWord)))
  = _activeWord (final (invoke firstPress newCurrentWord)).
Proof.
  assert (Hret : returns (completion (invoke firstPress newCurrentWord))
                 = true) by (vm_compute; reflexivity).
  pose proof (@reachable_invoke newCurrentWord firstPress reachable_new Hret)
    as Hreach.
  exact (proj1 (proj2 (Reachable.reachable_fields _ Hreach))).
Defined.

(** The second press of the order scenario replaces [foo2]. *)
Lemma press_keeps_typed_prefix_witness :
  exists c,
    filter isEdit
      (trace (invoke (cursor (typedDoc "foo2") 0 20, [])
                (final (invoke firstPress newCurrentWord))))
    = [Edit_delete {| start := {| line := 0; character := 16 |};
                      end_ := {| line := 0; character := 20 |} |};
       Edit_insert {| line := 0; character := 16 |} c]
    /\ c <> "".
Proof.
  assert (Hret : returns (completion (invoke firstPress newCurrentWord))
                 = true) by (vm_compute; reflexivity).
  pose proof (@reachable_invoke newCurrentWord firstPress reachable_new Hret)
    as Hreach.
  assert (Hplain : plain (currentWord (cursor (typedDoc "foo2") 0 20, []))
                   = true) by (vm_compute; reflexivity).
  assert (Hw : currentWord (cursor (typedDoc "foo2") 0 20, []) = "foo2")
    by (vm_compute; reflexivity).
  assert (Hne : currentWord (cursor (typedDoc "foo2") 0 20, []) <> "").
  { rewrite Hw. discriminate. }
  assert (Hr : wordRange (cursor (typedDoc "foo2") 0 20, [])
               = Some {| start := {| line := 0; character := 16 |};
                         end_ := {| line := 0; character := 20 |} |})
    by (vm_compute; reflexivity).
  destruct (Reachable.press_keeps_typed_prefix _ _ _ Hreach Hplain Hne Hr)
    as [c [_ [Hedits [Hc _]]]].
  exists c. split; [exact Hedits|exact Hc].
Defined.

End Scenarios.
